(** * Replay buffers and segment trees of [src/common/replay_buffer.py]

    A shallow embedding of the segment tree, of the plain and the
    prioritized replay buffer built on it, and of the vectorised buffer with
    its ring of blocks and its frame-stack reconstruction, followed by the
    properties established for them.

    Conventions of the embedding:
    - Python [int] is [Z]; [//] is [Z.div] and [%] is [Z.modulo] (both floor
      towards minus infinity, as in Python); a Python list is a [list] read
      and written through [list_getitem] and [list_setitem], which implement
      Python's negative indices and [IndexError].
    - Python [float] is idealised as an exact rational [Q]; [float('inf')],
      which only the min tree stores, is the extra point [PInf] of [ext].
      Exponentiation [x ** y] with a fractional exponent leaves the
      rationals, so it is a parameter [pow] of the buffer.
    - An operation that mutates [self] is a function from the state to the
      state it leaves behind and an outcome; a raised exception keeps the
      mutations made before it. *)

From Stdlib Require Import ZArith QArith Qround Qpower Lia Lqa.
From stdpp Require Import base list.

Local Open Scope Z_scope.

(** * Outcomes of a call *)

Inductive exn : Type :=
| AssertionError
| IndexError
| RecursionError
| ZeroDivisionError.

(** Where the embedding stops following the program: a [while] loop given
    too little fuel, or arithmetic on an IEEE infinity. *)
Inductive stuck : Type :=
| OutOfFuel
| InfArith.

Inductive result (X : Type) : Type :=
| Ok (x : X)
| Raise (e : exn)
| Stuck (w : stuck).

Arguments Ok {X} x.
Arguments Raise {X} e.
Arguments Stuck {X} w.

Definition rbind {X Y : Type} (r : result X) (k : X -> result Y) : result Y :=
  match r with
  | Ok x => k x
  | Raise e => Raise e
  | Stuck w => Stuck w
  end.

Notation "'let?' x ':=' r 'in' k" := (rbind r (fun x => k))
  (at level 10, x name, r at level 100, k at level 200).

Fixpoint rmap {X Y : Type} (f : X -> result Y) (l : list X) : result (list Y) :=
  match l with
  | [] => Ok []
  | x :: l' =>
      let? y := f x in
      let? ys := rmap f l' in
      Ok (y :: ys)
  end.

(** State and exceptions: the state reached is returned also when the call
    raises. *)
Definition M (S X : Type) : Type := S -> S * result X.

Definition ret {S X : Type} (x : X) : M S X := fun s => (s, Ok x).

Definition bind {S X Y : Type} (m : M S X) (k : X -> M S Y) : M S Y :=
  fun s =>
    match m s with
    | (s', Ok x) => k x s'
    | (s', Raise e) => (s', Raise e)
    | (s', Stuck w) => (s', Stuck w)
    end.

Definition gets {S X : Type} (f : S -> X) : M S X := fun s => (s, Ok (f s)).

Definition modify {S : Type} (f : S -> S) : M S unit := fun s => (f s, Ok tt).

Definition throw {S X : Type} (e : exn) : M S X := fun s => (s, Raise e).

Definition assert {S : Type} (c : bool) : M S unit :=
  if c then ret tt else throw AssertionError.

(** Run a computation on a component of the state. *)
Definition zoom {S U X : Type} (get : S -> U) (set : U -> S -> S) (m : M U X) : M S X :=
  fun s => let (u', r) := m (get s) in (set u' s, r).

Notation "'let!' x ':=' m 'in' k" := (bind m (fun x => k))
  (at level 10, x name, m at level 100, k at level 200).
Notation "m1 ';;' m2" := (bind m1 (fun _ => m2))
  (at level 100, m2 at level 200, right associativity).

(** * Python lists *)

(** The position a Python index denotes in a list of the given length. *)
Definition py_index (len : nat) (i : Z) : option nat :=
  let n := Z.of_nat len in
  if (0 <=? i) && (i <? n) then Some (Z.to_nat i)
  else if (- n <=? i) && (i <? 0) then Some (Z.to_nat (n + i))
  else None.

Definition list_getitem {X : Type} (l : list X) (i : Z) : result X :=
  match py_index (length l) i with
  | Some k =>
      match l !! k with
      | Some x => Ok x
      | None => Raise IndexError
      end
  | None => Raise IndexError
  end.

Definition list_setitem {X : Type} (l : list X) (i : Z) (x : X) : result (list X) :=
  match py_index (length l) i with
  | Some k => Ok (<[k := x]> l)
  | None => Raise IndexError
  end.

(** * Floats *)

Definition Qlt_bool (x y : Q) : bool := negb (Qle_bool y x).

(** A float that may be [float('inf')]. *)
Inductive ext : Type :=
| Fin (q : Q)
| PInf.

Definition ext_lt_bool (x y : ext) : bool :=
  match x, y with
  | Fin a, Fin b => Qlt_bool a b
  | Fin _, PInf => true
  | PInf, _ => false
  end.

(** Python's [max(a, b)] and [min(a, b)]: the first argument unless the
    second is strictly better. *)
Definition py_max (a b : Q) : Q := if Qlt_bool a b then b else a.

Definition py_min (a b : ext) : ext := if ext_lt_bool b a then b else a.

(** * SegmentTree *)

Module SegmentTree.

Record t (A : Type) : Type := mk {
  _capacity : Z;
  _value : list A;
  _operation : A -> A -> A
}.

Arguments mk {A} _ _ _.
Arguments _capacity {A} _.
Arguments _value {A} _.
Arguments _operation {A} _.

Section Generic.
Context {A : Type}.

Definition set_value (v : list A) (s : t A) : t A :=
  mk (_capacity s) v (_operation s).

Definition __init__ (capacity : Z) (operation : A -> A -> A) (neutral_element : A)
  : result (t A) :=
  if (0 <? capacity) && (Z.land capacity (capacity - 1) =? 0)
  then Ok (mk capacity (replicate (Z.to_nat (2 * capacity)) neutral_element) operation)
  else Raise AssertionError.

(** [depth] is the number of nested calls the interpreter still allows. *)
Fixpoint _reduce_helper (depth : nat) (s : t A) (start end_ node node_start node_end : Z)
  : result A :=
  match depth with
  | O => Raise RecursionError
  | S d =>
      if (start =? node_start) && (end_ =? node_end)
      then list_getitem (_value s) node
      else
        let mid := (node_start + node_end) / 2 in
        if end_ <=? mid
        then _reduce_helper d s start end_ (2 * node) node_start mid
        else if mid + 1 <=? start
        then _reduce_helper d s start end_ (2 * node + 1) (mid + 1) node_end
        else
          let? a := _reduce_helper d s start mid (2 * node) node_start mid in
          let? b := _reduce_helper d s (mid + 1) end_ (2 * node + 1) (mid + 1) node_end in
          Ok (_operation s a b)
  end.

(** [end_ = None] is the default argument [end=None]. *)
Definition reduce (depth : nat) (s : t A) (start : Z) (end_ : option Z) : result A :=
  let end_ := match end_ with None => _capacity s | Some e => e end in
  let end_ := if end_ <? 0 then end_ + _capacity s else end_ in
  let end_ := end_ - 1 in
  _reduce_helper depth s start end_ 1 0 (_capacity s - 1).

(** [self._value[i]] and [self._value[i] = x]. *)
Definition read_value (i : Z) : M (t A) A :=
  fun s => (s, list_getitem (_value s) i).

Definition write_value (i : Z) (x : A) : M (t A) unit :=
  fun s =>
    match list_setitem (_value s) i x with
    | Ok v => (set_value v s, Ok tt)
    | Raise e => (s, Raise e)
    | Stuck w => (s, Stuck w)
    end.

(** The loop [while idx >= 1: ...; idx //= 2] of [__setitem__], by recursion
    on the binary digits of [idx]: halving drops the last digit, and the
    loop is left when no digit remains. *)
Fixpoint setitem_loop (idx : positive) : M (t A) unit :=
  let! a := read_value (2 * Z.pos idx) in
  let! b := read_value (2 * Z.pos idx + 1) in
  let! op := gets _operation in
  write_value (Z.pos idx) (op a b);;
  match idx with
  | xH => ret tt
  | xO idx' | xI idx' => setitem_loop idx'
  end.

Definition __setitem__ (idx : Z) (val : A) : M (t A) unit :=
  let! cap := gets _capacity in
  let idx := idx + cap in
  write_value idx val;;
  match idx / 2 with
  | Z.pos idx' => setitem_loop idx'
  | _ => ret tt
  end.

Definition __getitem__ (s : t A) (idx : Z) : result A :=
  if (0 <=? idx) && (idx <? _capacity s)
  then list_getitem (_value s) (_capacity s + idx)
  else Raise AssertionError.

End Generic.
End SegmentTree.

(** * SumSegmentTree *)

Module SumSegmentTree.

Definition __init__ (capacity : Z) : result (SegmentTree.t Q) :=
  SegmentTree.__init__ capacity Qplus 0%Q.

Definition sum (depth : nat) (s : SegmentTree.t Q) (start : Z) (end_ : option Z)
  : result Q :=
  SegmentTree.reduce depth s start end_.

(** The loop [while idx < self._capacity] of [find_prefixsum_idx]. *)
Fixpoint find_loop (fuel : nat) (s : SegmentTree.t Q) (idx : Z) (prefixsum : Q)
  : result Z :=
  if idx <? SegmentTree._capacity s then
    match fuel with
    | O => Stuck OutOfFuel
    | S fuel' =>
        let? left := list_getitem (SegmentTree._value s) (2 * idx) in
        if Qlt_bool prefixsum left
        then find_loop fuel' s (2 * idx) prefixsum
        else find_loop fuel' s (2 * idx + 1) (prefixsum - left)%Q
    end
  else Ok (idx - SegmentTree._capacity s).

Definition find_prefixsum_idx (depth fuel : nat) (s : SegmentTree.t Q) (prefixsum : Q)
  : result Z :=
  if Qle_bool 0 prefixsum then
    let? total := sum depth s 0 None in
    if Qle_bool prefixsum (total + (1 # 100000))%Q
    then find_loop fuel s 1 prefixsum
    else Raise AssertionError
  else Raise AssertionError.

End SumSegmentTree.

(** * MinSegmentTree *)

Module MinSegmentTree.

Definition __init__ (capacity : Z) : result (SegmentTree.t ext) :=
  SegmentTree.__init__ capacity py_min PInf.

Definition min (depth : nat) (s : SegmentTree.t ext) (start : Z) (end_ : option Z)
  : result ext :=
  SegmentTree.reduce depth s start end_.

End MinSegmentTree.

(** * ReplayBuffer *)

Module ReplayBuffer.

Record t (T : Type) : Type := mk {
  _storage : list T;
  _maxsize : Z;
  _next_idx : Z
}.

Arguments mk {T} _ _ _.
Arguments _storage {T} _.
Arguments _maxsize {T} _.
Arguments _next_idx {T} _.

Section Transitions.
(** [T] is the tuple [(o, a, r, o_, d)], which the buffer only copies. *)
Context {T : Type}.

Definition __init__ (size : Z) : t T := mk [] size 0.

Definition __len__ (b : t T) : Z := Z.of_nat (length (_storage b)).

Definition add (data : T) : M (t T) unit :=
  fun b =>
    let stored :=
      if _next_idx b >=? __len__ b
      then Ok (_storage b ++ [data])
      else list_setitem (_storage b) (_next_idx b) data in
    match stored with
    | Ok st =>
        if _maxsize b =? 0
        then (mk st (_maxsize b) (_next_idx b), Raise ZeroDivisionError)
        else (mk st (_maxsize b) ((_next_idx b + 1) mod _maxsize b), Ok tt)
    | Raise e => (b, Raise e)
    | Stuck w => (b, Stuck w)
    end.

(** The conversion of the gathered rows to tensors is left to the caller. *)
Definition _encode_sample (b : t T) (idxes : list Z) : result (list T) :=
  rmap (list_getitem (_storage b)) idxes.

(** [random.choice(xs)]: [IndexError] on an empty sequence, otherwise
    [xs[i]] for the integer [i] drawn below [len(xs)]; [randbelow k n] is
    the integer drawn below [n] by the [k]-th call. *)
Definition choice {X : Type} (randbelow : nat -> Z -> Z) (k : nat) (xs : list X)
  : result X :=
  if (length xs =? 0)%nat then Raise IndexError
  else list_getitem xs (randbelow k (Z.of_nat (length xs))).

(** [range(n)] as the list of its elements. *)
Definition range (n : Z) : list Z := map Z.of_nat (seq 0 (Z.to_nat n)).

Definition sample (randbelow : nat -> Z -> Z) (b : t T) (batch_size : Z)
  : result (list T) :=
  let indexes := range (__len__ b) in
  let? idxes := rmap (fun k => choice randbelow k indexes)
                     (seq 0 (Z.to_nat batch_size)) in
  _encode_sample b idxes.

End Transitions.
End ReplayBuffer.

(** * PrioritizedReplayBuffer *)

Module PrioritizedReplayBuffer.

Record t (T : Type) : Type := mk {
  base : ReplayBuffer.t T;
  _alpha : Q;
  _it_sum : SegmentTree.t Q;
  _it_min : SegmentTree.t ext;
  _max_priority : Q;
  beta : Q
}.

Arguments mk {T} _ _ _ _ _ _.
Arguments base {T} _.
Arguments _alpha {T} _.
Arguments _it_sum {T} _.
Arguments _it_min {T} _.
Arguments _max_priority {T} _.
Arguments beta {T} _.

Section Buffer.
Context {T : Type}.

(** [pow x y] is [x ** y] on floats. Where Python's [**] raises or leaves
    the reals (a zero base with a negative exponent, a negative base with a
    fractional one) the parameter is not constrained; the properties below
    use it on positive bases only. *)
Variable pow : Q -> Q -> Q.

Definition set_base (r : ReplayBuffer.t T) (b : t T) : t T :=
  mk r (_alpha b) (_it_sum b) (_it_min b) (_max_priority b) (beta b).

Definition set_it_sum (s : SegmentTree.t Q) (b : t T) : t T :=
  mk (base b) (_alpha b) s (_it_min b) (_max_priority b) (beta b).

Definition set_it_min (m : SegmentTree.t ext) (b : t T) : t T :=
  mk (base b) (_alpha b) (_it_sum b) m (_max_priority b) (beta b).

Definition set_max_priority (p : Q) (b : t T) : t T :=
  mk (base b) (_alpha b) (_it_sum b) (_it_min b) p (beta b).

Definition __len__ (b : t T) : Z := ReplayBuffer.__len__ (base b).

(** The loop [while it_capacity < size: it_capacity *= 2]. *)
Fixpoint it_capacity_loop (fuel : nat) (it_capacity size : Z) : result Z :=
  if it_capacity <? size then
    match fuel with
    | O => Stuck OutOfFuel
    | S fuel' => it_capacity_loop fuel' (it_capacity * 2) size
    end
  else Ok it_capacity.

Definition __init__ (size : Z) (alpha beta : Q) : result (t T) :=
  let b := ReplayBuffer.__init__ size in
  if Qle_bool 0 alpha then
    let? it_capacity := it_capacity_loop (Z.to_nat size) 1 size in
    let? it_sum := SumSegmentTree.__init__ it_capacity in
    let? it_min := MinSegmentTree.__init__ it_capacity in
    Ok (mk b alpha it_sum it_min 1%Q beta)
  else Raise AssertionError.

Definition add (data : T) : M (t T) unit :=
  let! idx := gets (fun b => ReplayBuffer._next_idx (base b)) in
  zoom base set_base (ReplayBuffer.add data);;
  let! p := gets (fun b => pow (_max_priority b) (_alpha b)) in
  zoom _it_sum set_it_sum (SegmentTree.__setitem__ idx p);;
  let! p := gets (fun b => pow (_max_priority b) (_alpha b)) in
  zoom _it_min set_it_min (SegmentTree.__setitem__ idx (Fin p)).

(** [random k] is the value returned by the [k]-th call of
    [random.random()], a float in [[0, 1)]. *)
Definition _sample_proportional (depth fuel : nat) (random : nat -> Q)
    (b : t T) (batch_size : Z) : result (list Z) :=
  let? p_total := SumSegmentTree.sum depth (_it_sum b) 0 (Some (__len__ b - 1)) in
  if batch_size =? 0 then Raise ZeroDivisionError else
  let every_range_len := (p_total / inject_Z batch_size)%Q in
  rmap (fun i : nat =>
          let mass := (random i * every_range_len
                       + inject_Z (Z.of_nat i) * every_range_len)%Q in
          SumSegmentTree.find_prefixsum_idx depth fuel (_it_sum b) mass)
       (seq 0 (Z.to_nat batch_size)).

(** The returned triple is the gathered rows, the weights and the indices. *)
Definition sample (depth fuel : nat) (random : nat -> Q) (b : t T) (batch_size : Z)
  : result (list T * list Q * list Z) :=
  let? idxes := _sample_proportional depth fuel random b batch_size in
  let? it_sum := SumSegmentTree.sum depth (_it_sum b) 0 None in
  let? it_min := MinSegmentTree.min depth (_it_min b) 0 None in
  if Qeq_bool it_sum 0 then Raise ZeroDivisionError else
  match it_min with
  | PInf => Stuck InfArith
  | Fin it_min =>
      let p_min := (it_min / it_sum)%Q in
      let len := inject_Z (__len__ b) in
      let max_weight := pow (p_min * len)%Q (- beta b)%Q in
      let? masses := rmap (SegmentTree.__getitem__ (_it_sum b)) idxes in
      let p_samples := map (fun x => (x / it_sum)%Q) masses in
      let weights :=
        map (fun p => (pow (p * len) (- beta b) / max_weight)%Q) p_samples in
      let? encoded_sample := ReplayBuffer._encode_sample (base b) idxes in
      Ok (encoded_sample, weights, idxes)
  end.

Fixpoint update_loop (pairs : list (Z * Q)) : M (t T) unit :=
  match pairs with
  | [] => ret tt
  | (idx, priority) :: rest =>
      assert (Qlt_bool 0 priority);;
      let! len := gets __len__ in
      assert ((0 <=? idx) && (idx <? len));;
      let! alpha := gets _alpha in
      zoom _it_sum set_it_sum (SegmentTree.__setitem__ idx (pow priority alpha));;
      zoom _it_min set_it_min (SegmentTree.__setitem__ idx (Fin (pow priority alpha)));;
      modify (fun b => set_max_priority (py_max (_max_priority b) priority) b);;
      update_loop rest
  end.

Definition update_priorities (idxes : list Z) (priorities : list Q) : M (t T) unit :=
  assert (length idxes =? length priorities)%nat;;
  update_loop (zip idxes priorities).

End Buffer.
End PrioritizedReplayBuffer.

(** * VecReplayBuffer *)

Module VecReplayBuffer.

(** One block of [nc] channels of an observation, flattened. *)
Definition frame : Type := list Z.

(** The fields [_stack_obs] reads, all of them sizes; [fsize] is the
    number of entries of a frame, [nc * nh * nw]. *)
Record t : Type := mk {
  nenv : nat;
  nsteps : nat;
  nstack : nat;
  fsize : nat
}.

Definition times_mask (f : frame) (m : Z) : frame := map (fun x => x * m) f.

(** A row of [mask] after [mask[:, 1:] = 1.0 - dones]. *)
Definition initial_mask (dones_e : list Z) : list Z :=
  1 :: map (fun d => 1 - d) dones_e.

(** A row of [mask] after [mask[:, 1:] *= mask[:, :-1]]; the right-hand
    side is read before the left-hand side is written. *)
Definition mask_step (mask_e : list Z) : list Z :=
  match mask_e with
  | [] => []
  | m0 :: tl => m0 :: zip_with Z.mul tl mask_e
  end.

(** [obs[e, :, i*nc:(i+1)*nc] = enc_obs[e, i:i+nsteps+1]] *)
Definition assign_block (self : t) (i : nat) (obs_e : list (list frame))
    (enc_e : list frame) : list (list frame) :=
  zip_with (fun row fr => <[i := fr]> row) obs_e (take (S (nsteps self)) (drop i enc_e)).

(** [obs[e, :, i*nc:(i+1)*nc] *= mask[e]] *)
Definition scale_block (i : nat) (obs_e : list (list frame)) (mask_e : list Z)
  : list (list frame) :=
  zip_with (fun row m => alter (fun f => times_mask f m) i row) obs_e mask_e.

(** The body of [for i in range(self.nstack - 1, -1, -1)] on [(obs, mask)]. *)
Definition stack_step (self : t) (enc_obs : list (list frame))
    (st : list (list (list frame)) * list (list Z)) (i : nat)
  : list (list (list frame)) * list (list Z) :=
  let (obs, mask) := st in
  let obs := zip_with (assign_block self i) obs enc_obs in
  if (Z.of_nat i <? Z.of_nat (nstack self) - 1)
  then (zip_with (scale_block i) obs mask, map mask_step mask)
  else (obs, mask).

Definition stack_loop (self : t) (enc_obs : list (list frame)) (dones : list (list Z))
  : list (list (list frame)) * list (list Z) :=
  let obs :=
    replicate (nenv self)
      (replicate (S (nsteps self)) (replicate (nstack self) (replicate (fsize self) 0))) in
  let mask := map initial_mask dones in
  fold_left (stack_step self enc_obs) (rev (seq 0 (nstack self))) (obs, mask).

Definition _stack_obs (self : t) (enc_obs : list (list frame)) (dones : list (list Z))
  : list (list (list frame)) :=
  fst (stack_loop self enc_obs dones).

(** The memory of the buffer: the five arrays, indexed by location and
    then by environment, and the two counters. What an array holds for one
    location and one environment is, for [enc_o], the [nsteps + nstack]
    encoded frames and, for [done], the [nsteps] flags; for [a], [r] and
    [p] it is left abstract. A value assigned to a location is taken as
    numpy stores it, in the dtype of the array and of the shape of one
    location; an assignment that numpy cannot broadcast is not modelled. *)
Record mem (A R P : Type) : Type := mk_mem {
  size : Z;
  enc_o : list (list (list frame));
  a : list (list A);
  r : list (list R);
  p : list (list P);
  done : list (list (list Z));
  next_idx : Z;
  nonempty_num : Z
}.

Arguments mk_mem {A R P} _ _ _ _ _ _ _ _.
Arguments size {A R P} _.
Arguments enc_o {A R P} _.
Arguments a {A R P} _.
Arguments r {A R P} _.
Arguments p {A R P} _.
Arguments done {A R P} _.
Arguments next_idx {A R P} _.
Arguments nonempty_num {A R P} _.

Section Memory.
Context {A R P : Type}.

Definition set_enc_o (v : list (list (list frame))) (m : mem A R P) : mem A R P :=
  mk_mem (size m) v (a m) (r m) (p m) (done m) (next_idx m) (nonempty_num m).

Definition set_a (v : list (list A)) (m : mem A R P) : mem A R P :=
  mk_mem (size m) (enc_o m) v (r m) (p m) (done m) (next_idx m) (nonempty_num m).

Definition set_r (v : list (list R)) (m : mem A R P) : mem A R P :=
  mk_mem (size m) (enc_o m) (a m) v (p m) (done m) (next_idx m) (nonempty_num m).

Definition set_p (v : list (list P)) (m : mem A R P) : mem A R P :=
  mk_mem (size m) (enc_o m) (a m) (r m) v (done m) (next_idx m) (nonempty_num m).

Definition set_done (v : list (list (list Z))) (m : mem A R P) : mem A R P :=
  mk_mem (size m) (enc_o m) (a m) (r m) (p m) v (next_idx m) (nonempty_num m).

Definition set_next_idx (i : Z) (m : mem A R P) : mem A R P :=
  mk_mem (size m) (enc_o m) (a m) (r m) (p m) (done m) i (nonempty_num m).

Definition set_nonempty_num (n : Z) (m : mem A R P) : mem A R P :=
  mk_mem (size m) (enc_o m) (a m) (r m) (p m) (done m) (next_idx m) n.

(** [x[i] = v] on the first axis of an array. *)
Definition assign {S X : Type} (get : S -> list X) (set : list X -> S -> S)
    (i : Z) (v : X) : M S unit :=
  fun s =>
    match list_setitem (get s) i v with
    | Ok l => (set l s, Ok tt)
    | Raise e => (s, Raise e)
    | Stuck w => (s, Stuck w)
    end.

Definition add (enc_o_ : list (list frame)) (a_ : list A) (r_ : list R) (p_ : list P)
    (done_ : list (list Z)) : M (mem A R P) unit :=
  let! i := gets next_idx in
  assign enc_o set_enc_o i enc_o_;;
  assign a set_a i a_;;
  assign r set_r i r_;;
  assign p set_p i p_;;
  assign done set_done i done_;;
  let! sz := gets size in
  if sz =? 0 then throw ZeroDivisionError else
  modify (fun m => set_next_idx ((next_idx m + 1) mod sz) m);;
  modify (fun m => set_nonempty_num (Z.min sz (nonempty_num m + 1)) m).

(** [out[i] = x[idx[i], i]] for every environment [i]. *)
Definition _take {X : Type} (self : t) (x : list (list X)) (idx : list Z)
  : result (list X) :=
  rmap (fun i : nat =>
          let? k := list_getitem idx (Z.of_nat i) in
          let? row := list_getitem x k in
          list_getitem row (Z.of_nat i))
       (seq 0 (nenv self)).

(** [idx] is the array that [np.random.randint(0, self.nonempty_num,
    self.nenv)] has returned; the conversion of the five results to tensors
    is left to the caller. *)
Definition sample (self : t) (idx : list Z) (m : mem A R P)
  : result (list (list (list frame)) * list A * list R * list P * list (list Z)) :=
  let? b_done := _take self (done m) idx in
  let? b_enc := _take self (enc_o m) idx in
  let b_o := _stack_obs self b_enc b_done in
  let? b_a := _take self (a m) idx in
  let? b_r := _take self (r m) idx in
  let? b_p := _take self (p m) idx in
  Ok (b_o, b_a, b_r, b_p, b_done).

End Memory.

End VecReplayBuffer.

(** * Vocabulary of the specification *)

Section TreeVocabulary.
Context {A : Type}.
Implicit Types s : SegmentTree.t A.

(** [value[k]], when [k] is a position of the array. *)
Definition node s (k : Z) : option A := SegmentTree._value s !! Z.to_nat k.

(** The array has [2 * capacity] entries. *)
Definition wf s : Prop :=
  0 < SegmentTree._capacity s /\
  Z.of_nat (length (SegmentTree._value s)) = 2 * SegmentTree._capacity s.

(** [value[k] == operation(value[2k], value[2k+1])] *)
Definition ok_at s (k : Z) : Prop :=
  exists a b, node s (2 * k) = Some a /\ node s (2 * k + 1) = Some b /\
              node s k = Some (SegmentTree._operation s a b).

(** The invariant of the tree: every internal node caches the reduction of
    its two children. *)
Definition consistent s : Prop :=
  forall k, 1 <= k < SegmentTree._capacity s -> ok_at s k.

(** [k] is [p] or one of the nodes above it. *)
Fixpoint on_path (p : positive) (k : Z) : Prop :=
  k = Z.pos p \/
  match p with
  | xH => False
  | xO q | xI q => on_path q k
  end.

(** One turn of the loop of [__setitem__]: node [p] is recomputed from its
    children [a] and [b]. *)
Definition recompute s (p : positive) (a b : A) : SegmentTree.t A :=
  SegmentTree.set_value
    (<[Z.to_nat (Z.pos p) := SegmentTree._operation s a b]> (SegmentTree._value s)) s.

(** The leaves, in index order: the second half of the array. *)
Definition leaves s : list A :=
  drop (Z.to_nat (SegmentTree._capacity s)) (SegmentTree._value s).

(** The left-to-right fold of [op] over the leaves [[a, b)], from [e]. *)
Definition fold_range (op : A -> A -> A) (e : A) s (a b : Z) : A :=
  fold_left op (take (Z.to_nat (b - a)) (drop (Z.to_nat a) (leaves s))) e.

(** A run of [set] calls. *)
Fixpoint setitems (calls : list (Z * A)) : M (SegmentTree.t A) unit :=
  match calls with
  | [] => ret tt
  | (i, v) :: rest => SegmentTree.__setitem__ i v;; setitems rest
  end.

(** The trees a program can hold: constructed by [__init__], then written
    through [__setitem__] at indices of [[0, capacity)]. *)
Inductive built (op : A -> A -> A) (e : A) : SegmentTree.t A -> Prop :=
| built_init c s :
    SegmentTree.__init__ c op e = Ok s -> built op e s
| built_set s i v s' :
    built op e s ->
    0 <= i < SegmentTree._capacity s ->
    SegmentTree.__setitem__ i v s = (s', Ok tt) ->
    built op e s'.

Definition neutral (op : A -> A -> A) (e : A) : Prop :=
  forall x, op e x = x /\ op x e = x.

Definition associative (op : A -> A -> A) : Prop :=
  forall x y z, op x (op y z) = op (op x y) z.

End TreeVocabulary.

(** [leaf[0] + ... + leaf[i - 1]], the mass before slot [i] of a sum tree. *)
Definition prefix_sum (s : SegmentTree.t Q) (i : Z) : Q :=
  fold_range Qplus 0%Q s 0 i.

(** The sum of all leaves of a sum tree. *)
Definition total_sum (s : SegmentTree.t Q) : Q :=
  fold_left Qplus (leaves s) 0%Q.

Section BufferVocabulary.
Context {T : Type}.
Variable pow : Q -> Q -> Q.
Implicit Types b : PrioritizedReplayBuffer.t T.

Definition storage b : list T :=
  ReplayBuffer._storage (PrioritizedReplayBuffer.base b).

Definition maxsize b : Z := ReplayBuffer._maxsize (PrioritizedReplayBuffer.base b).

Definition next_idx b : Z := ReplayBuffer._next_idx (PrioritizedReplayBuffer.base b).

(** The shape of a prioritized buffer: the cursor follows the storage while
    it fills and then stays inside it, and both trees are segment trees
    with room for every slot. *)
Record buffer_wf b : Prop := {
  wf_maxsize : 0 < maxsize b;
  wf_len : PrioritizedReplayBuffer.__len__ b <= maxsize b;
  wf_cursor : 0 <= next_idx b < maxsize b;
  wf_filling :
    PrioritizedReplayBuffer.__len__ b < maxsize b ->
    next_idx b = PrioritizedReplayBuffer.__len__ b;
  wf_capacity : maxsize b <= SegmentTree._capacity (PrioritizedReplayBuffer._it_sum b);
  wf_same_capacity :
    SegmentTree._capacity (PrioritizedReplayBuffer._it_min b)
      = SegmentTree._capacity (PrioritizedReplayBuffer._it_sum b);
  wf_sum : built Qplus 0%Q (PrioritizedReplayBuffer._it_sum b);
  wf_min : built py_min PInf (PrioritizedReplayBuffer._it_min b)
}.

(** A pair [(idx, priority)] that passes both assertions of
    [update_priorities]. *)
Definition valid_pair b (pr : Z * Q) : bool :=
  Qlt_bool 0 pr.2 && ((0 <=? pr.1) && (pr.1 <? PrioritizedReplayBuffer.__len__ b)).

(** The pairs before the first one that fails an assertion. *)
Fixpoint valid_prefix b (pairs : list (Z * Q)) : list (Z * Q) :=
  match pairs with
  | [] => []
  | pr :: rest => if valid_pair b pr then pr :: valid_prefix b rest else []
  end.

(** The pairs a call [update_priorities(idxes, priorities)] applies. *)
Definition applied b (idxes : list Z) (priorities : list Q) : list (Z * Q) :=
  if (length idxes =? length priorities)%nat
  then valid_prefix b (zip idxes priorities)
  else [].

(** The largest of [1.0] and the priorities applied so far. *)
Definition historical_max (h : list Q) : Q := fold_left py_max h 1%Q.

(** The states a program can bring a buffer of positive size to, each with
    the priorities that [update_priorities] has applied on the way. *)
Inductive reachable : PrioritizedReplayBuffer.t T -> list Q -> Prop :=
| reach_init size alpha beta b :
    0 < size ->
    PrioritizedReplayBuffer.__init__ size alpha beta = Ok b ->
    reachable b []
| reach_add b h data b' r :
    reachable b h ->
    PrioritizedReplayBuffer.add pow data b = (b', r) ->
    reachable b' h
| reach_update b h idxes priorities b' r :
    reachable b h ->
    PrioritizedReplayBuffer.update_priorities pow idxes priorities b = (b', r) ->
    reachable b' (h ++ (applied b idxes priorities).*2).

End BufferVocabulary.


(** A run of [add] calls on a plain replay buffer. *)
Fixpoint adds {T : Type} (ds : list T) : M (ReplayBuffer.t T) unit :=
  match ds with
  | [] => ret tt
  | d :: rest => ReplayBuffer.add d;; adds rest
  end.

(** The state of a buffer of size [m] that has been given the items
    [hist], oldest first. *)
Definition ring_of {T : Type} (m : Z) (hist : list T) (b : ReplayBuffer.t T) : Prop :=
  ReplayBuffer._maxsize b = m /\
  ReplayBuffer.__len__ b = Z.min (Z.of_nat (length hist)) m /\
  ReplayBuffer._next_idx b = Z.of_nat (length hist) mod m /\
  forall (k : nat) d, hist !! k = Some d ->
    Z.of_nat (length hist) - m <= Z.of_nat k ->
    ReplayBuffer._storage b !! Z.to_nat (Z.of_nat k mod m) = Some d.

(** What one call of [VecReplayBuffer.add] is given. *)
Record block (A R P : Type) : Type := mk_block {
  block_enc_o : list (list VecReplayBuffer.frame);
  block_a : list A;
  block_r : list R;
  block_p : list P;
  block_done : list (list Z)
}.

Arguments mk_block {A R P} _ _ _ _ _.
Arguments block_enc_o {A R P} _.
Arguments block_a {A R P} _.
Arguments block_r {A R P} _.
Arguments block_p {A R P} _.
Arguments block_done {A R P} _.

(** A run of [add] calls on the vectorised buffer. *)
Fixpoint vec_adds {A R P : Type} (blocks : list (block A R P))
  : M (VecReplayBuffer.mem A R P) unit :=
  match blocks with
  | [] => ret tt
  | blk :: rest =>
      VecReplayBuffer.add (block_enc_o blk) (block_a blk) (block_r blk) (block_p blk)
        (block_done blk);;
      vec_adds rest
  end.

(** An array of [sz] locations after the values [hist] have been written
    to it in turn, round the ring: the last [sz] of them are in place. *)
Definition slots_of {X : Type} (sz : Z) (hist : list X) (x : list X) : Prop :=
  Z.of_nat (length x) = sz /\
  forall (k : nat) v, hist !! k = Some v ->
    Z.of_nat (length hist) - sz <= Z.of_nat k ->
    x !! Z.to_nat (Z.of_nat k mod sz) = Some v.

(** The memory as [__init__] leaves it, whatever [np.empty] put into the
    arrays: [sz] locations in every array, both counters at zero. *)
Definition fresh_mem {A R P : Type} (sz : Z) (m : VecReplayBuffer.mem A R P) : Prop :=
  VecReplayBuffer.size m = sz /\
  Z.of_nat (length (VecReplayBuffer.enc_o m)) = sz /\
  Z.of_nat (length (VecReplayBuffer.a m)) = sz /\
  Z.of_nat (length (VecReplayBuffer.r m)) = sz /\
  Z.of_nat (length (VecReplayBuffer.p m)) = sz /\
  Z.of_nat (length (VecReplayBuffer.done m)) = sz /\
  VecReplayBuffer.next_idx m = 0 /\
  VecReplayBuffer.nonempty_num m = 0.

(** The memory of a buffer of [sz] locations that has been given the
    blocks [hist], oldest first. *)
Definition vec_ring_of {A R P : Type} (sz : Z) (hist : list (block A R P))
    (m : VecReplayBuffer.mem A R P) : Prop :=
  VecReplayBuffer.size m = sz /\
  VecReplayBuffer.next_idx m = Z.of_nat (length hist) mod sz /\
  VecReplayBuffer.nonempty_num m = Z.min sz (Z.of_nat (length hist)) /\
  slots_of sz (map block_enc_o hist) (VecReplayBuffer.enc_o m) /\
  slots_of sz (map block_a hist) (VecReplayBuffer.a m) /\
  slots_of sz (map block_r hist) (VecReplayBuffer.r m) /\
  slots_of sz (map block_p hist) (VecReplayBuffer.p m) /\
  slots_of sz (map block_done hist) (VecReplayBuffer.done m).

(** Every array of the block has one entry per environment. *)
Definition block_shaped {A R P : Type} (nenv : nat) (blk : block A R P) : Prop :=
  length (block_enc_o blk) = nenv /\
  length (block_a blk) = nenv /\
  length (block_r blk) = nenv /\
  length (block_p blk) = nenv /\
  length (block_done blk) = nenv.

(** The product of [1 - done[s]] over the [k] steps [s] before step [t]
    (fewer when [t < k]): 1 when no episode ended in them, 0 otherwise. *)
Fixpoint window (d : list Z) (t k : nat) {struct k} : Z :=
  match k, t with
  | S k', S t' => (1 - d !!! t') * window d t' k'
  | _, _ => 1
  end.

(** The cumulative not-done mask: [1] at step 0 and
    [cumulative_mask[t - 1] * (1 - done[t - 1])] at step [t > 0]. *)
Fixpoint cumulative_mask (d : list Z) (t : nat) : Z :=
  match t with
  | O => 1
  | S t' => cumulative_mask d t' * (1 - d !!! t')
  end.

(** What one turn of the loop of [_stack_obs] does to one environment. *)
Definition step_env (self : VecReplayBuffer.t) (enc_e : list VecReplayBuffer.frame)
    (st : list (list VecReplayBuffer.frame) * list Z) (i : nat)
  : list (list VecReplayBuffer.frame) * list Z :=
  let obs_e := VecReplayBuffer.assign_block self i st.1 enc_e in
  if (Z.of_nat i <? Z.of_nat (VecReplayBuffer.nstack self) - 1)
  then (VecReplayBuffer.scale_block i obs_e st.2, VecReplayBuffer.mask_step st.2)
  else (obs_e, st.2).

(** The state of one environment once the loop of [_stack_obs] has
    handled the channels [k] and above: these hold their frames, masked by
    the window of their age, the others are still zero, and the mask has
    been multiplied into itself once per masked channel. *)
Definition stacked_from (self : VecReplayBuffer.t) (enc_e : list VecReplayBuffer.frame)
    (d_e : list Z) (k : nat)
    (st : list (list VecReplayBuffer.frame) * list Z) : Prop :=
  length st.1 = S (VecReplayBuffer.nsteps self) /\
  st.2 = Nat.iter (VecReplayBuffer.nstack self - 1 - k) VecReplayBuffer.mask_step
           (VecReplayBuffer.initial_mask d_e) /\
  forall t row, st.1 !! t = Some row ->
    length row = VecReplayBuffer.nstack self /\
    forall i, (i < VecReplayBuffer.nstack self)%nat ->
      row !! i =
        Some (if decide (k <= i)%nat
              then VecReplayBuffer.times_mask (enc_e !!! (i + t)%nat)
                     (window d_e t (VecReplayBuffer.nstack self - 1 - i))
              else replicate (VecReplayBuffer.fsize self) 0).

(** Order on floats that may be infinite. *)
Definition ext_le (x y : ext) : Prop :=
  match x, y with
  | Fin a, Fin b => (a <= b)%Q
  | _, PInf => True
  | PInf, Fin _ => False
  end.

(** The two trees describe the same slots: a populated slot has one
    strictly positive priority mass, stored in both trees; the other leaves
    hold the neutral elements. *)
Definition masses_ok {T : Type} (b : PrioritizedReplayBuffer.t T) : Prop :=
  forall j : nat,
    Z.of_nat j < SegmentTree._capacity (PrioritizedReplayBuffer._it_sum b) ->
    if decide (Z.of_nat j < PrioritizedReplayBuffer.__len__ b)
    then exists m,
           leaves (PrioritizedReplayBuffer._it_sum b) !! j = Some m /\
           leaves (PrioritizedReplayBuffer._it_min b) !! j = Some (Fin m) /\
           (0 < m)%Q
    else leaves (PrioritizedReplayBuffer._it_sum b) !! j = Some 0%Q /\
         leaves (PrioritizedReplayBuffer._it_min b) !! j = Some PInf.

(** * Sample data *)

(** A sum tree of capacity 2 as [SumSegmentTree(2)] leaves it, and a sum
    tree of capacity 4 after [t[0] = 1/2; t[1] = 3/2; t[2] = 1; t[3] = 2]. *)
Definition sum_tree2 : SegmentTree.t Q :=
  SegmentTree.mk 2 [0; 0; 0; 0]%Q Qplus.

Definition sum_tree4_calls : list (Z * Q) :=
  [(0, (1 # 2)%Q); (1, (3 # 2)%Q); (2, 1%Q); (3, 2%Q)].

Definition int_tree4_calls : list (Z * Z) := [(0, 5); (3, 2); (0, 1)].

Definition sum_tree4 : SegmentTree.t Q :=
  fst (setitems sum_tree4_calls (SegmentTree.mk 4 (replicate 8 0%Q) Qplus)).

(** The same tree when only slots 0 and 1 have been written. *)
Definition sum_tree4_partial : SegmentTree.t Q :=
  fst (setitems (take 2 sum_tree4_calls) (SegmentTree.mk 4 (replicate 8 0%Q) Qplus)).

(** Exponentiation at integral exponents, where it stays rational; other
    exponents are rounded down. *)
Definition ipow (x y : Q) : Q := Qpower x (Qfloor y).

(** A buffer of size 2 with [alpha = 1] and [beta = 1]: empty, after one
    call of [add] and after two; transitions are numbered. *)
Definition buffer0 : PrioritizedReplayBuffer.t nat :=
  PrioritizedReplayBuffer.mk (ReplayBuffer.mk [] 2 0) 1%Q
    (SegmentTree.mk 2 (replicate 4 0%Q) Qplus)
    (SegmentTree.mk 2 (replicate 4 PInf) py_min) 1%Q 1%Q.

Definition buffer1 : PrioritizedReplayBuffer.t nat :=
  fst (PrioritizedReplayBuffer.add ipow 10%nat buffer0).

Definition buffer2 : PrioritizedReplayBuffer.t nat :=
  fst (PrioritizedReplayBuffer.add ipow 11%nat buffer1).

(** [buffer1] after [update_priorities([0], [0.5])] and a second [add]. *)
Definition buffer_low : PrioritizedReplayBuffer.t nat :=
  fst ((PrioritizedReplayBuffer.update_priorities ipow [0] [(1 # 2)%Q];;
        PrioritizedReplayBuffer.add ipow 11%nat) buffer1).

(** [buffer1] after a rejected [update_priorities([5], [50.0])] and a
    second [add]. *)
Definition buffer_rejected : PrioritizedReplayBuffer.t nat :=
  fst (PrioritizedReplayBuffer.add ipow 11%nat
         (fst (PrioritizedReplayBuffer.update_priorities ipow [5] [50%Q] buffer1))).

(** Two environments, [nsteps = 3], [nstack = 2], one entry per frame;
    an episode of environment 0 ends at its first step. *)
Definition vec_self : VecReplayBuffer.t := VecReplayBuffer.mk 2 3 2 1.

Definition vec_enc_obs : list (list VecReplayBuffer.frame) :=
  [[[10]; [11]; [12]; [13]; [14]]; [[20]; [21]; [22]; [23]; [24]]].

Definition vec_dones : list (list Z) := [[1; 0; 0]; [0; 0; 0]].





(** A memory of two locations for [vec_self] as [np.empty] may leave it,
    and three blocks to store in it; actions, rewards and policies are
    rows of integers. *)
Definition vec_mem0 : VecReplayBuffer.mem (list Z) (list Z) (list Z) :=
  VecReplayBuffer.mk_mem 2
    (replicate 2 (replicate 2 (replicate 5 [7])))
    (replicate 2 (replicate 2 [7; 7; 7]))
    (replicate 2 (replicate 2 [7; 7; 7]))
    (replicate 2 (replicate 2 [7; 7; 7]))
    (replicate 2 (replicate 2 [7; 7; 7]))
    0 0.

Definition vec_block (n : Z) : block (list Z) (list Z) (list Z) :=
  mk_block
    (map (map (map (Z.add (100 * n)))) vec_enc_obs)
    [[n; n; n]; [n + 1; n + 1; n + 1]]
    [[2 * n; 2 * n; 2 * n]; [2 * n + 1; 2 * n + 1; 2 * n + 1]]
    [[3 * n; 3 * n; 3 * n]; [3 * n + 1; 3 * n + 1; 3 * n + 1]]
    vec_dones.

Definition vec_blocks : list (block (list Z) (list Z) (list Z)) :=
  [vec_block 1; vec_block 2; vec_block 3].



(** * Properties *)

(** ** Python lists *)

Lemma py_index_nonneg len i :
  0 <= i < Z.of_nat len -> py_index len i = Some (Z.to_nat i).
Proof.
  intros H. unfold py_index.
  destruct (Z.leb_spec 0 i); [|lia]. destruct (Z.ltb_spec i (Z.of_nat len)); [|lia].
  reflexivity.
Qed.

Lemma py_index_negative len i :
  - Z.of_nat len <= i < 0 -> py_index len i = Some (Z.to_nat (Z.of_nat len + i)).
Proof.
  intros H. unfold py_index.
  destruct (Z.leb_spec 0 i); [lia|]. simpl.
  destruct (Z.leb_spec (- Z.of_nat len) i); [|lia]. destruct (Z.ltb_spec i 0); [|lia].
  reflexivity.
Qed.

Lemma py_index_above len i : Z.of_nat len <= i -> py_index len i = None.
Proof.
  intros H. unfold py_index.
  destruct (Z.leb_spec 0 i); [|lia]. destruct (Z.ltb_spec i (Z.of_nat len)); [lia|].
  simpl. destruct (Z.ltb_spec i 0); [lia|]. rewrite andb_false_r. reflexivity.
Qed.

Lemma py_index_lt len i k : py_index len i = Some k -> (k < len)%nat.
Proof.
  unfold py_index.
  destruct (Z.leb_spec 0 i), (Z.ltb_spec i (Z.of_nat len)); simpl;
    try (intros [= <-]; lia);
    destruct (Z.leb_spec (- Z.of_nat len) i), (Z.ltb_spec i 0); simpl;
    try discriminate; intros [= <-]; lia.
Qed.

Lemma list_getitem_lookup {X} (l : list X) i x :
  0 <= i -> l !! Z.to_nat i = Some x -> list_getitem l i = Ok x.
Proof.
  intros Hi Hl. unfold list_getitem.
  rewrite py_index_nonneg; [by rewrite Hl|].
  apply lookup_lt_Some in Hl. lia.
Qed.

Lemma list_setitem_insert {X} (l : list X) i x :
  0 <= i < Z.of_nat (length l) -> list_setitem l i x = Ok (<[Z.to_nat i := x]> l).
Proof. intros H. unfold list_setitem. by rewrite py_index_nonneg. Qed.

Lemma list_setitem_above {X} (l : list X) i x :
  Z.of_nat (length l) <= i -> list_setitem l i x = Raise IndexError.
Proof. intros H. unfold list_setitem. by rewrite py_index_above. Qed.

Lemma list_setitem_length {X} (l l' : list X) i x :
  list_setitem l i x = Ok l' -> length l' = length l.
Proof.
  unfold list_setitem. destruct (py_index _ _); [|discriminate].
  intros [= <-]. apply length_insert.
Qed.

(** ** The array of a segment tree *)

Section TreeFacts.
Context {A : Type}.
Implicit Types s : SegmentTree.t A.

Lemma node_is_Some s k :
  wf s -> 0 <= k < 2 * SegmentTree._capacity s -> exists x, node s k = Some x.
Proof.
  intros [_ Hlen] Hk. unfold node.
  destruct (lookup_lt_is_Some_2 (SegmentTree._value s) (Z.to_nat k)) as [x Hx]; [lia|eauto].
Qed.

Lemma node_in_range s k x :
  wf s -> 0 <= k -> node s k = Some x -> k < 2 * SegmentTree._capacity s.
Proof. intros [_ Hlen] Hk Hx. apply lookup_lt_Some in Hx. lia. Qed.

Lemma read_value_node s k x :
  0 <= k -> node s k = Some x -> SegmentTree.read_value k s = (s, Ok x).
Proof.
  intros Hk Hx. unfold SegmentTree.read_value. by rewrite (list_getitem_lookup _ _ x).
Qed.

Lemma write_value_insert s k x :
  wf s -> 0 <= k < 2 * SegmentTree._capacity s ->
  SegmentTree.write_value k x s =
    (SegmentTree.set_value (<[Z.to_nat k := x]> (SegmentTree._value s)) s, Ok tt).
Proof.
  intros [_ Hlen] Hk. unfold SegmentTree.write_value.
  rewrite list_setitem_insert; [done|lia].
Qed.

Lemma wf_insert s k x :
  wf s -> wf (SegmentTree.set_value (<[k := x]> (SegmentTree._value s)) s).
Proof. intros [Hc Hlen]. split; simpl; [done|]. by rewrite length_insert. Qed.

Lemma node_insert_eq s k x :
  wf s -> 0 <= k < 2 * SegmentTree._capacity s ->
  node (SegmentTree.set_value (<[Z.to_nat k := x]> (SegmentTree._value s)) s) k = Some x.
Proof.
  intros [_ Hlen] Hk. unfold node. simpl. apply list_lookup_insert_eq. lia.
Qed.

Lemma node_insert_ne s k j x :
  0 <= k -> 0 <= j -> k <> j ->
  node (SegmentTree.set_value (<[Z.to_nat k := x]> (SegmentTree._value s)) s) j = node s j.
Proof.
  intros Hk Hj Hne. unfold node. simpl. apply list_lookup_insert_ne. lia.
Qed.

Lemma ok_at_insert_other s k j x :
  0 <= k -> 0 <= j -> k <> j -> k <> 2 * j -> k <> 2 * j + 1 ->
  ok_at s j ->
  ok_at (SegmentTree.set_value (<[Z.to_nat k := x]> (SegmentTree._value s)) s) j.
Proof.
  intros Hk Hj H0 H1 H2 (a & b & Ha & Hb & Hj'). exists a, b.
  rewrite !node_insert_ne by lia. done.
Qed.

Lemma on_path_self p : on_path p (Z.pos p).
Proof. destruct p; simpl; auto. Qed.

Lemma on_path_positive p k : on_path p k -> 1 <= k <= Z.pos p.
Proof.
  revert k. induction p as [q IH|q IH|]; simpl; intros k [->|H]; try lia;
    try (apply IH in H; lia); done.
Qed.

Lemma setitem_loop_step p s :
  wf s -> Z.pos p < SegmentTree._capacity s ->
  exists a b,
    node s (2 * Z.pos p) = Some a /\ node s (2 * Z.pos p + 1) = Some b /\
    SegmentTree.setitem_loop p s =
      match p with
      | xH => ret tt
      | xO q | xI q => SegmentTree.setitem_loop q
      end (recompute s p a b).
Proof.
  intros Hwf Hp.
  destruct (node_is_Some s (2 * Z.pos p)) as [a Ha]; [done|lia|].
  destruct (node_is_Some s (2 * Z.pos p + 1)) as [b Hb]; [done|lia|].
  exists a, b. split; [done|]. split; [done|].
  assert (Hrun : forall rest : M (SegmentTree.t A) unit,
    (let! a := SegmentTree.read_value (2 * Z.pos p) in
     let! b := SegmentTree.read_value (2 * Z.pos p + 1) in
     let! op := gets SegmentTree._operation in
     SegmentTree.write_value (Z.pos p) (op a b);; rest) s = rest (recompute s p a b)).
  { intros rest. unfold bind at 1. rewrite (read_value_node _ _ a) by (done || lia).
    unfold bind at 1. rewrite (read_value_node _ _ b) by (done || lia).
    unfold bind at 1, gets at 1. unfold bind at 1.
    rewrite write_value_insert by (done || lia). reflexivity. }
  destruct p; cbn [SegmentTree.setitem_loop]; apply Hrun.
Qed.

Lemma recompute_ok p s a b :
  wf s -> Z.pos p < SegmentTree._capacity s ->
  node s (2 * Z.pos p) = Some a -> node s (2 * Z.pos p + 1) = Some b ->
  (forall k, 1 <= k < SegmentTree._capacity s -> ~ on_path p k -> ok_at s k) ->
  forall k, 1 <= k < SegmentTree._capacity s ->
    ~ match p with xH => False | xO q | xI q => on_path q k end ->
    ok_at (recompute s p a b) k.
Proof.
  intros Hwf Hp Ha Hb Hok k Hk Hnot. unfold recompute.
  destruct (decide (k = Z.pos p)) as [->|Hne].
  - exists a, b. rewrite !node_insert_ne by lia.
    rewrite node_insert_eq by (done || lia). done.
  - apply ok_at_insert_other; try lia.
    + intros Heq. apply Hnot. destruct p as [q|q|]; try lia.
      replace k with (Z.pos q) by lia. apply on_path_self.
    + intros Heq. apply Hnot. destruct p as [q|q|]; try lia.
      replace k with (Z.pos q) by lia. apply on_path_self.
    + apply Hok; [done|]. intros Hpath. apply Hnot.
      destruct p; simpl in Hpath; destruct Hpath as [?|?]; done.
Qed.

(** The loop of [__setitem__], started at [p] on a tree that is consistent
    away from [p] and the nodes above it, ends normally with a consistent
    tree and touches no leaf. *)
Lemma setitem_loop_ok p : forall s,
  wf s ->
  Z.pos p < SegmentTree._capacity s ->
  (forall k, 1 <= k < SegmentTree._capacity s -> ~ on_path p k -> ok_at s k) ->
  exists s',
    SegmentTree.setitem_loop p s = (s', Ok tt) /\
    wf s' /\
    SegmentTree._capacity s' = SegmentTree._capacity s /\
    SegmentTree._operation s' = SegmentTree._operation s /\
    consistent s' /\
    (forall k, SegmentTree._capacity s <= k -> node s' k = node s k).
Proof.
  induction p as [q IH|q IH|]; intros s Hwf Hp Hok;
    destruct (setitem_loop_step _ s Hwf Hp) as (a & b & Ha & Hb & ->);
    pose proof (recompute_ok _ s a b Hwf Hp Ha Hb Hok) as Hok1.
  1,2: match goal with |- context [recompute ?s0 ?p ?a0 ?b0] =>
         destruct (IH (recompute s0 p a0 b0))
           as (s' & Hrun & Hwf' & Hcap & Hop & Hcons & Hleaf)
       end;
    [by apply wf_insert | simpl; lia | done |];
    exists s'; rewrite Hrun; repeat split; try done; try apply Hwf';
    intros k Hk; rewrite Hleaf by (simpl; lia); apply node_insert_ne; lia.
  eexists. split; [reflexivity|]. split; [by apply wf_insert|].
  split; [done|]. split; [done|]. split.
  - intros k Hk. apply Hok1; tauto.
  - intros k Hk. apply node_insert_ne; lia.
Qed.

End TreeFacts.

(** ** [__init__] and [__setitem__] *)

Section SetItem.
Context {A : Type}.
Implicit Types s : SegmentTree.t A.

Lemma leaves_lookup s (j : nat) :
  wf s -> leaves s !! j = node s (SegmentTree._capacity s + Z.of_nat j).
Proof.
  intros [Hc _]. unfold leaves, node. rewrite lookup_drop. f_equal. lia.
Qed.

Lemma leaves_length s : wf s -> Z.of_nat (length (leaves s)) = SegmentTree._capacity s.
Proof. intros [Hc Hlen]. unfold leaves. rewrite length_drop. lia. Qed.

Lemma setitem_ok s i v :
  wf s -> consistent s -> 0 <= i < SegmentTree._capacity s ->
  exists s',
    SegmentTree.__setitem__ i v s = (s', Ok tt) /\
    wf s' /\
    SegmentTree._capacity s' = SegmentTree._capacity s /\
    SegmentTree._operation s' = SegmentTree._operation s /\
    consistent s' /\
    leaves s' = <[Z.to_nat i := v]> (leaves s).
Proof.
  intros Hwf Hcons Hi.
  set (c := SegmentTree._capacity s) in *.
  set (s1 := SegmentTree.set_value (<[Z.to_nat (i + c) := v]> (SegmentTree._value s)) s).
  assert (Hwf1 : wf s1) by (by apply wf_insert).
  assert (Hleaves : forall s', wf s' ->
    SegmentTree._capacity s' = c ->
    (forall k, c <= k -> node s' k = node s1 k) ->
    leaves s' = <[Z.to_nat i := v]> (leaves s)).
  { intros s' Hwf' Hcap Hleaf. apply list_eq. intros j.
    rewrite leaves_lookup, Hcap by done.
    destruct (decide (Z.of_nat j < c)) as [Hj|Hj].
    - rewrite Hleaf by lia. subst s1.
      destruct (decide (j = Z.to_nat i)) as [->|Hne].
      + rewrite list_lookup_insert_eq by (pose proof (leaves_length s Hwf); lia).
        replace (c + Z.of_nat (Z.to_nat i)) with (i + c) by lia.
        apply node_insert_eq; [done|fold c; lia].
      + rewrite list_lookup_insert_ne by done. rewrite leaves_lookup by done. fold c.
        apply node_insert_ne; lia.
    - rewrite (lookup_ge_None_2 (<[_ := _]> _)).
      2: { rewrite length_insert. pose proof (leaves_length s Hwf). fold c in H. lia. }
      unfold node. apply lookup_ge_None_2. destruct Hwf' as [_ Hlen]. lia. }
  unfold SegmentTree.__setitem__. unfold bind at 1, gets at 1. cbv zeta.
  unfold bind at 1. rewrite write_value_insert by (done || (fold c; lia)).
  fold c s1. destruct ((i + c) / 2) as [|p|p] eqn:Hhalf.
  - exists s1. split; [done|]. split; [done|]. split; [done|]. split; [done|]. split.
    + intros k Hk. simpl in Hk. fold c in Hk.
      assert (c = 1) by (pose proof (Z.div_le_lower_bound (i + c) 2 1); lia). lia.
    + by apply Hleaves.
  - assert (Hp : 2 * Z.pos p <= i + c < 2 * Z.pos p + 2).
    { rewrite <- Hhalf. pose proof (Z.div_mod (i + c) 2).
      pose proof (Z.mod_pos_bound (i + c) 2). lia. }
    destruct (setitem_loop_ok p s1) as (s' & Hrun & Hwf' & Hcap & Hop & Hcons' & Hleaf).
    + done.
    + simpl. fold c. lia.
    + intros k Hk Hnot. simpl in Hk. fold c in Hk. subst s1.
      assert (k <> Z.pos p) by (intros ->; apply Hnot, on_path_self).
      apply ok_at_insert_other; try lia. by apply Hcons.
    + exists s'. split; [done|]. split; [done|]. split; [done|]. split; [done|].
      split; [done|]. by apply Hleaves.
  - pose proof (Z.div_pos (i + c) 2). lia.
Qed.

(** [capacity & (capacity - 1) == 0] singles out the powers of two. *)
Lemma land_pred_pow2 c :
  0 < c -> Z.land c (c - 1) = 0 -> exists n : nat, c = 2 ^ Z.of_nat n.
Proof.
  intros Hc Hland. exists (Z.to_nat (Z.log2 c)).
  pose proof (Z.log2_nonneg c) as Hn. rewrite Z2Nat.id by done.
  destruct (Z.log2_spec c Hc) as [Hlo Hhi].
  destruct (decide (c = 2 ^ Z.log2 c)) as [|Hne]; [done|exfalso].
  assert (Hb1 : Z.testbit c (Z.log2 c) = true) by (apply Z.bit_log2; lia).
  assert (Hlog : Z.log2 (c - 1) = Z.log2 c).
  { apply Z.log2_unique; [done|]. rewrite Z.pow_succ_r in Hhi by done. 
    rewrite Z.pow_succ_r by done. lia. }
  assert (Hb2 : Z.testbit (c - 1) (Z.log2 c) = true).
  { rewrite <- Hlog. apply Z.bit_log2. pose proof (Z.pow_pos_nonneg 2 (Z.log2 c)). lia. }
  assert (Hb : Z.testbit (Z.land c (c - 1)) (Z.log2 c) = true)
    by (rewrite Z.land_spec, Hb1, Hb2; done).
  rewrite Hland, Z.bits_0 in Hb. discriminate.
Qed.

Lemma init_ok c (op : A -> A -> A) e s :
  op e e = e ->
  SegmentTree.__init__ c op e = Ok s ->
  wf s /\ consistent s /\
  SegmentTree._capacity s = c /\ SegmentTree._operation s = op /\
  (exists n : nat, c = 2 ^ Z.of_nat n) /\
  leaves s = replicate (Z.to_nat c) e.
Proof.
  intros He. unfold SegmentTree.__init__.
  destruct (Z.ltb_spec 0 c); [|discriminate].
  destruct (Z.eqb_spec (Z.land c (c - 1)) 0); [|discriminate].
  simpl. intros [= <-]. split; [|split; [|split; [|split; [|split]]]]; simpl; try done.
  - split; simpl; [done|]. rewrite length_replicate. lia.
  - intros k Hk. simpl in Hk. exists e, e. unfold node. simpl.
    rewrite !lookup_replicate_2 by lia. by rewrite He.
  - by apply land_pred_pow2.
  - unfold leaves. simpl. rewrite drop_replicate. f_equal. lia.
Qed.

(** What holds of every tree a program can hold. *)
Lemma built_valid (op : A -> A -> A) e s :
  op e e = e -> built op e s ->
  wf s /\ consistent s /\ SegmentTree._operation s = op /\
  (exists n : nat, SegmentTree._capacity s = 2 ^ Z.of_nat n).
Proof.
  intros He. induction 1 as [c s Hinit|s i v s' Hb IH Hi Hset].
  - destruct (init_ok _ _ _ _ He Hinit) as (? & ? & -> & ? & ? & _). done.
  - destruct IH as (Hwf & Hcons & Hop & Hpow).
    destruct (setitem_ok s i v Hwf Hcons Hi) as (s2 & Hrun & ? & Hcap & Hop2 & ? & _).
    rewrite Hset in Hrun. injection Hrun as ->. rewrite Hcap, Hop2. done.
Qed.

End SetItem.

(** ** Runs of [__setitem__] *)

Section Runs.
Context {A : Type}.
Implicit Types s : SegmentTree.t A.

Lemma setitems_ok (calls : list (Z * A)) : forall s,
  wf s -> consistent s ->
  Forall (fun call => 0 <= call.1 < SegmentTree._capacity s) calls ->
  exists s',
    setitems calls s = (s', Ok tt) /\ wf s' /\ consistent s' /\
    SegmentTree._capacity s' = SegmentTree._capacity s /\
    SegmentTree._operation s' = SegmentTree._operation s.
Proof.
  induction calls as [|[i v] calls IH]; intros s Hwf Hcons Hall.
  - exists s. done.
  - apply Forall_cons in Hall as [Hi Hall]. simpl in Hi.
    destruct (setitem_ok s i v Hwf Hcons Hi) as (s1 & Hrun & Hwf1 & Hcap & Hop & Hcons1 & _).
    destruct (IH s1 Hwf1 Hcons1) as (s' & Hrun' & ? & ? & Hcap' & Hop').
    { by rewrite Hcap. }
    exists s'. simpl. unfold bind. rewrite Hrun, Hrun'.
    rewrite Hcap', Hop', Hcap, Hop. done.
Qed.

Lemma setitem_above s i v :
  wf s -> SegmentTree._capacity s <= i ->
  SegmentTree.__setitem__ i v s = (s, Raise IndexError).
Proof.
  intros [Hc Hlen] Hi. unfold SegmentTree.__setitem__, bind, gets.
  unfold SegmentTree.write_value. rewrite list_setitem_above by lia. done.
Qed.

End Runs.

(** C1. On a tree built by [__init__] from an associative operation and
    its neutral element, every run of [set(i, v)] calls with all [i] in
    [[0, capacity)] ends normally, and after each call of the run every
    internal node [k] satisfies
    [value[k] == operation(value[2k], value[2k+1])]. *)
Theorem tree_consistent_after_every_set {A : Type} (op : A -> A -> A) (e : A)
    (c : Z) (s0 : SegmentTree.t A) (calls : list (Z * A)) (n : nat) :
  associative op -> neutral op e ->
  SegmentTree.__init__ c op e = Ok s0 ->
  Forall (fun call => 0 <= call.1 < c) calls ->
  exists s, setitems (take n calls) s0 = (s, Ok tt) /\ consistent s.
Proof.
  intros _ Hne Hinit Hall.
  destruct (init_ok c op e s0 (proj1 (Hne e)) Hinit) as (Hwf & Hcons & Hcap & _).
  destruct (setitems_ok (take n calls) s0 Hwf Hcons) as (s & Hrun & _ & Hcons' & _).
  { rewrite Hcap. by apply Forall_take. }
  exists s. done.
Qed.

Lemma tree_consistent_after_every_set_witness :
  exists s,
    setitems (take 2 int_tree4_calls) (SegmentTree.mk 4 (replicate 8 0) Z.add)
      = (s, Ok tt) /\ consistent s.
Proof.
  apply (tree_consistent_after_every_set Z.add 0 4).
  - intros x y z. apply Z.add_assoc.
  - intros x. split; [apply Z.add_0_l | apply Z.add_0_r].
  - reflexivity.
  - repeat constructor; simpl; lia.
Defined.

(** C8, at a negative index. [sum_tree2[-1] = 5] on a fresh sum tree of
    capacity 2 raises nothing: it overwrites the root [value[1]] and
    returns, leaving a tree whose root is no longer the sum of its
    children, although no leaf has changed. [__getitem__] rejects the same
    index by its assertion. *)
Theorem setitem_negative_index_accepted :
  SumSegmentTree.__init__ 2 = Ok sum_tree2 /\
  SegmentTree.__setitem__ (-1) 5%Q sum_tree2
    = (SegmentTree.set_value [0; 5; 0; 0]%Q sum_tree2, Ok tt) /\
  SegmentTree.__getitem__ sum_tree2 (-1) = Raise AssertionError /\
  leaves (SegmentTree.set_value [0; 5; 0; 0]%Q sum_tree2) = leaves sum_tree2 /\
  ~ consistent (SegmentTree.set_value [0; 5; 0; 0]%Q sum_tree2).
Proof.
  split; [reflexivity|]. split; [reflexivity|]. split; [reflexivity|].
  split; [reflexivity|].
  intros H. destruct (H 1) as (a & b & Ha & Hb & Hk); [simpl; lia|].
  unfold node in Ha, Hb, Hk. simpl in Ha, Hb, Hk.
  injection Ha as <-. injection Hb as <-. discriminate Hk.
Qed.

(** ** Folds over the leaves *)

Section Fold.
Context {A : Type} (op : A -> A -> A) (e : A).
Hypothesis op_assoc : associative op.
Hypothesis op_neutral : neutral op e.
Implicit Types s : SegmentTree.t A.

Lemma fold_left_from (l : list A) : forall a,
  fold_left op l a = op a (fold_left op l e).
Proof.
  induction l as [|x l IH]; intros a; simpl.
  - symmetry. apply op_neutral.
  - rewrite IH, (IH (op e x)). rewrite (proj1 (op_neutral x)). symmetry. apply op_assoc.
Qed.

Lemma fold_left_op_app (l1 l2 : list A) :
  fold_left op (l1 ++ l2) e = op (fold_left op l1 e) (fold_left op l2 e).
Proof. rewrite fold_left_app. apply fold_left_from. Qed.

Lemma fold_range_empty s a : fold_range op e s a a = e.
Proof. unfold fold_range. by rewrite Z.sub_diag. Qed.

Lemma fold_range_split s a b c :
  0 <= a <= b -> b <= c ->
  fold_range op e s a c = op (fold_range op e s a b) (fold_range op e s b c).
Proof.
  intros Hab Hbc. unfold fold_range. rewrite <- fold_left_op_app. f_equal.
  replace (Z.to_nat (c - a)) with (Z.to_nat (b - a) + Z.to_nat (c - b))%nat by lia.
  rewrite <- take_take_drop, drop_drop.
  replace (Z.to_nat a + Z.to_nat (b - a))%nat with (Z.to_nat b) by lia. done.
Qed.

Lemma fold_range_single s i x :
  wf s -> 0 <= i -> node s (SegmentTree._capacity s + i) = Some x ->
  fold_range op e s i (i + 1) = x.
Proof.
  intros Hwf Hi Hx. unfold fold_range.
  replace (Z.to_nat (i + 1 - i)) with 1%nat by lia.
  assert (Hl : drop (Z.to_nat i) (leaves s) !! 0%nat = Some x).
  { rewrite lookup_drop, leaves_lookup by done.
    rewrite <- Hx. f_equal. lia. }
  destruct (drop (Z.to_nat i) (leaves s)) as [|y l]; [done|].
  injection Hl as ->. simpl. apply op_neutral.
Qed.

Lemma fold_range_all s :
  wf s -> fold_range op e s 0 (SegmentTree._capacity s) = fold_left op (leaves s) e.
Proof.
  intros Hwf. unfold fold_range. rewrite drop_0, take_ge; [done|].
  pose proof (leaves_length s Hwf). lia.
Qed.

(** The node [k] that lies [h] levels above the leaves caches the fold of
    the [2 ^ h] leaves below it. *)
Lemma node_fold s (h : nat) : forall k,
  wf s -> consistent s -> SegmentTree._operation s = op ->
  SegmentTree._capacity s <= k * 2 ^ Z.of_nat h ->
  (k + 1) * 2 ^ Z.of_nat h <= 2 * SegmentTree._capacity s ->
  node s k =
    Some (fold_range op e s (k * 2 ^ Z.of_nat h - SegmentTree._capacity s)
                            ((k + 1) * 2 ^ Z.of_nat h - SegmentTree._capacity s)).
Proof.
  set (c := SegmentTree._capacity s).
  induction h as [|h IH]; intros k Hwf Hcons Hop Hlo Hhi.
  - change (2 ^ Z.of_nat 0) with 1 in *. rewrite !Z.mul_1_r in *.
    destruct (node_is_Some s k Hwf) as [x Hx]; [fold c; lia|].
    rewrite Hx. f_equal. symmetry.
    replace (k + 1 - c) with (k - c + 1) by lia.
    apply fold_range_single; [done|lia|]. fold c. rewrite <- Hx. f_equal. lia.
  - rewrite Nat2Z.inj_succ, Z.pow_succ_r in * by lia.
    set (P := 2 ^ Z.of_nat h) in *.
    assert (HP : 0 < P) by (apply Z.pow_pos_nonneg; lia).
    assert (Hc : 0 < c) by apply Hwf.
    assert (Hk : 1 <= k < c) by nia.
    destruct (Hcons k Hk) as (a & b & Ha & Hb & Hn).
    rewrite (IH (2 * k)) in Ha by (done || nia).
    rewrite (IH (2 * k + 1)) in Hb by (done || nia).
    injection Ha as <-. injection Hb as <-. rewrite Hn, Hop. f_equal.
    replace (2 * k * P - c) with (k * (2 * P) - c) by ring.
    replace ((2 * k + 1 + 1) * P - c) with ((k + 1) * (2 * P) - c) by ring.
    replace ((2 * k + 1) * P - c) with ((2 * k + 1) * P - c) by ring.
    symmetry. apply fold_range_split; nia.
Qed.

(** [_reduce_helper], called on a node together with the range of leaves
    below it, folds the queried part of that range. *)
Lemma reduce_helper_ok s (h : nat) : forall depth k start end_,
  wf s -> consistent s -> SegmentTree._operation s = op ->
  SegmentTree._capacity s <= k * 2 ^ Z.of_nat h ->
  (k + 1) * 2 ^ Z.of_nat h <= 2 * SegmentTree._capacity s ->
  k * 2 ^ Z.of_nat h - SegmentTree._capacity s <= start ->
  start <= end_ ->
  end_ <= (k + 1) * 2 ^ Z.of_nat h - SegmentTree._capacity s - 1 ->
  (h < depth)%nat ->
  SegmentTree._reduce_helper depth s start end_ k
      (k * 2 ^ Z.of_nat h - SegmentTree._capacity s)
      ((k + 1) * 2 ^ Z.of_nat h - SegmentTree._capacity s - 1)
    = Ok (fold_range op e s start (end_ + 1)).
Proof.
  set (c := SegmentTree._capacity s).
  induction h as [|h IH]; intros depth k start end_ Hwf Hcons Hop Hlo Hhi Hs Hse He Hd;
    (destruct depth as [|d]; [lia|]); cbn [SegmentTree._reduce_helper];
    pose proof (node_fold s _ k Hwf Hcons Hop Hlo Hhi) as Hnode; fold c in Hnode;
    assert (Hc : 0 < c) by apply Hwf.
  - change (2 ^ Z.of_nat 0) with 1 in *. rewrite !Z.mul_1_r in *.
    destruct (Z.eqb_spec start (k - c)); [|lia].
    destruct (Z.eqb_spec end_ (k + 1 - c - 1)); [|lia]. simpl.
    erewrite list_getitem_lookup; [|lia|exact Hnode]. do 2 f_equal; lia.
  - rewrite Nat2Z.inj_succ, Z.pow_succ_r in * by lia.
    set (P := 2 ^ Z.of_nat h) in *.
    assert (HP : 0 < P) by (apply Z.pow_pos_nonneg; lia).
    set (lo := k * (2 * P) - c) in *. set (hi := (k + 1) * (2 * P) - c - 1) in *.
    assert (Hmid : (lo + hi) / 2 = lo + P - 1).
    { symmetry. apply (Z.div_unique _ _ _ 1); subst lo hi; lia. }
    assert (IH' : forall k' start' end' lo' hi',
      lo' = k' * P - c -> hi' = (k' + 1) * P - c - 1 ->
      c <= k' * P -> (k' + 1) * P <= 2 * c ->
      lo' <= start' -> start' <= end' -> end' <= hi' ->
      SegmentTree._reduce_helper d s start' end' k' lo' hi'
        = Ok (fold_range op e s start' (end' + 1))).
    { intros k' start' end' lo' hi' -> -> ? ? ? ? ?. apply IH; (done || lia). }
    destruct (Z.eqb_spec start lo) as [E1|E1], (Z.eqb_spec end_ hi) as [E2|E2]; simpl.
    1: { erewrite list_getitem_lookup; [|nia|exact Hnode].
         do 2 f_equal; subst hi; lia. }
    all: rewrite Hmid.
    all: destruct (Z.leb_spec end_ (lo + P - 1)) as [L|L].
    all: try (apply IH'; subst lo hi; (done || nia)).
    all: destruct (Z.leb_spec (lo + P - 1 + 1) start) as [R|R].
    all: try (apply IH'; subst lo hi; (done || nia)).
    all: rewrite (IH' (2 * k) start (lo + P - 1) lo (lo + P - 1)),
           (IH' (2 * k + 1) (lo + P - 1 + 1) end_ (lo + P - 1 + 1) hi)
           by (subst lo hi; (done || nia));
      simpl; rewrite Hop; f_equal; symmetry; apply fold_range_split; subst lo hi; nia.
Qed.

End Fold.

(** ** [reduce] *)

Section Reduce.
Context {A : Type} (op : A -> A -> A) (e : A).
Hypothesis op_assoc : associative op.
Hypothesis op_neutral : neutral op e.
Implicit Types s : SegmentTree.t A.

Lemma reduce_ok s depth start end_ :
  wf s -> consistent s -> SegmentTree._operation s = op ->
  (exists n : nat, SegmentTree._capacity s = 2 ^ Z.of_nat n) ->
  0 <= start < end_ -> end_ <= SegmentTree._capacity s ->
  Z.log2 (SegmentTree._capacity s) < Z.of_nat depth ->
  SegmentTree.reduce depth s start (Some end_) = Ok (fold_range op e s start end_).
Proof.
  intros Hwf Hcons Hop [n Hn] Hse He Hd. unfold SegmentTree.reduce.
  destruct (Z.ltb_spec end_ 0); [lia|].
  rewrite Hn, Z.log2_pow2 in Hd by lia.
  pose proof (reduce_helper_ok op e op_assoc op_neutral s n depth 1 start (end_ - 1)
                Hwf Hcons Hop) as H1.
  rewrite <- Hn in H1.
  replace (1 * SegmentTree._capacity s - SegmentTree._capacity s) with 0 in H1 by lia.
  replace ((1 + 1) * SegmentTree._capacity s - SegmentTree._capacity s - 1)
    with (SegmentTree._capacity s - 1) in H1 by lia.
  replace (end_ - 1 + 1) with end_ in H1 by lia.
  apply H1; lia.
Qed.

Lemma reduce_default_ok s depth :
  wf s -> consistent s -> SegmentTree._operation s = op ->
  (exists n : nat, SegmentTree._capacity s = 2 ^ Z.of_nat n) ->
  Z.log2 (SegmentTree._capacity s) < Z.of_nat depth ->
  SegmentTree.reduce depth s 0 None = Ok (fold_left op (leaves s) e).
Proof.
  intros Hwf Hcons Hop Hn Hd. rewrite <- (fold_range_all op e s Hwf).
  rewrite <- (reduce_ok s depth 0 (SegmentTree._capacity s)); try done.
  all: destruct Hwf; lia.
Qed.

Lemma setitems_built (calls : list (Z * A)) : forall s s',
  op e e = e -> built op e s ->
  Forall (fun call => 0 <= call.1 < SegmentTree._capacity s) calls ->
  setitems calls s = (s', Ok tt) -> built op e s'.
Proof.
  induction calls as [|[i v] calls IH]; intros s s' He Hb Hall Hrun.
  - injection Hrun as <-. done.
  - apply Forall_cons in Hall as [Hi Hall]. simpl in Hi.
    destruct (built_valid op e s He Hb) as (Hwf & Hcons & _).
    destruct (setitem_ok s i v Hwf Hcons Hi) as (s1 & Hrun1 & _ & Hcap & _).
    simpl in Hrun. unfold bind in Hrun. rewrite Hrun1 in Hrun.
    apply (IH s1); [done| |by rewrite Hcap|done].
    by apply (built_set op e s i v).
Qed.

End Reduce.

(** A query for an empty range never meets a node whose range it equals:
    the recursion goes down until the interpreter gives up. *)
Lemma reduce_helper_empty {A : Type} (s : SegmentTree.t A) (depth : nat) :
  forall start end_ k node_start node_end,
  end_ < start ->
  node_start <= node_end \/ (node_start = node_end + 1 /\ node_end < end_) ->
  SegmentTree._reduce_helper depth s start end_ k node_start node_end
    = Raise RecursionError.
Proof.
  induction depth as [|d IH]; intros start end_ k ns ne Hlt Hrange; [done|].
  cbn [SegmentTree._reduce_helper].
  destruct (Z.eqb_spec start ns), (Z.eqb_spec end_ ne); simpl; try lia.
  all: destruct (Z.leb_spec end_ ((ns + ne) / 2));
    [apply IH; [done|]; pose proof (Z.div_mod (ns + ne) 2);
       pose proof (Z.mod_pos_bound (ns + ne) 2); lia|].
  all: destruct (Z.leb_spec ((ns + ne) / 2 + 1) start);
    [apply IH; [done|]; pose proof (Z.div_mod (ns + ne) 2);
       pose proof (Z.mod_pos_bound (ns + ne) 2); lia|lia].
Qed.

Lemma reduce_empty_range {A : Type} (s : SegmentTree.t A) (depth : nat) (start : Z) :
  0 < SegmentTree._capacity s -> 0 <= start ->
  SegmentTree.reduce depth s start (Some start) = Raise RecursionError.
Proof.
  intros Hc Hs. unfold SegmentTree.reduce.
  destruct (Z.ltb_spec start 0); [lia|]. apply reduce_helper_empty; lia.
Qed.

(** ** Floats as rationals *)

Lemma Qplus_associative : associative Qplus.
Proof.
  intros [a b] [c d] [f g]. unfold Qplus. simpl. f_equal.
  - rewrite !Pos2Z.inj_mul. ring.
  - apply Pos.mul_assoc.
Qed.

Lemma Qplus_neutral : neutral Qplus 0%Q.
Proof.
  intros [a b]. unfold Qplus. simpl. split; f_equal.
  - lia.
  - rewrite Z.mul_1_r. lia.
  - apply Pos.mul_1_r.
Qed.


Lemma sum_tree4_built : built Qplus 0%Q sum_tree4.
Proof.
  apply (setitems_built Qplus 0%Q sum_tree4_calls
           (SegmentTree.mk 4 (replicate 8 0%Q) Qplus)).
  - reflexivity.
  - apply (built_init Qplus 0%Q 4). reflexivity.
  - repeat constructor; simpl; lia.
  - reflexivity.
Qed.



(** ** [find_prefixsum_idx] *)

Lemma Qlt_bool_iff x y : Qlt_bool x y = true <-> (x < y)%Q.
Proof.
  unfold Qlt_bool. rewrite negb_true_iff, <- not_true_iff_false, Qle_bool_iff.
  split; [apply Qnot_le_lt | apply Qlt_not_le].
Qed.

Lemma Qlt_bool_false x y : Qlt_bool x y = false <-> (y <= x)%Q.
Proof.
  unfold Qlt_bool. rewrite negb_false_iff, Qle_bool_iff. done.
Qed.

Lemma fold_left_Qplus_nonneg (l : list Q) : forall a,
  Forall (fun x => 0 <= x)%Q l -> (0 <= a)%Q -> (0 <= fold_left Qplus l a)%Q.
Proof.
  induction l as [|x l IH]; intros a Hl Ha; simpl; [done|].
  apply Forall_cons in Hl as [Hx Hl]. apply IH; [done|lra].
Qed.

Section Find.
Variable s : SegmentTree.t Q.
Hypothesis s_wf : wf s.
Hypothesis s_consistent : consistent s.
Hypothesis s_op : SegmentTree._operation s = Qplus.

Abbreviation c := (SegmentTree._capacity s).
Abbreviation F := (fold_range Qplus 0%Q s).

Lemma F_split a b d : 0 <= a <= b -> b <= d -> (F a d == F a b + F b d)%Q.
Proof.
  intros Hab Hbd.
  rewrite (fold_range_split Qplus 0%Q Qplus_associative Qplus_neutral s a b d) by done.
  reflexivity.
Qed.

Lemma F_nonneg a b :
  Forall (fun x => 0 <= x)%Q (leaves s) -> (0 <= F a b)%Q.
Proof.
  intros Hl. unfold fold_range. apply fold_left_Qplus_nonneg; [|lra].
  by apply Forall_take, Forall_drop.
Qed.

Lemma F_positive a :
  Forall (fun x => 0 < x)%Q (leaves s) -> 0 <= a < c -> (0 < F a (a + 1))%Q.
Proof.
  intros Hl Ha.
  destruct (node_is_Some s (c + a) s_wf) as [x Hx]; [lia|].
  rewrite (fold_range_single Qplus 0%Q Qplus_neutral s a x) by (done || lia).
  rewrite Forall_lookup in Hl. apply (Hl (Z.to_nat a)).
  rewrite leaves_lookup by done. rewrite <- Hx. f_equal. lia.
Qed.

(** The descent from node [k], [h] levels above the leaves that start at
    [lo]: it ends within [h] turns at a leaf below [k]; when the mass sought
    lies inside the mass below [k], at the leaf that holds it; and when it
    is at least that mass (the leaves being non-negative), at the last leaf
    below [k]. *)
Lemma find_loop_ok (h : nat) : forall fuel k lo p,
  lo = k * 2 ^ Z.of_nat h - c ->
  c <= k * 2 ^ Z.of_nat h ->
  (k + 1) * 2 ^ Z.of_nat h <= 2 * c ->
  (h <= fuel)%nat ->
  exists i,
    SumSegmentTree.find_loop fuel s k p = Ok i /\
    lo <= i < lo + 2 ^ Z.of_nat h /\
    ((0 <= p)%Q -> (p < F lo (lo + 2 ^ Z.of_nat h))%Q ->
       (F lo i <= p)%Q /\ (p < F lo (i + 1))%Q) /\
    (Forall (fun x => 0 <= x)%Q (leaves s) -> (F lo (lo + 2 ^ Z.of_nat h) <= p)%Q ->
       i = lo + 2 ^ Z.of_nat h - 1).
Proof.
  assert (Hc : 0 < c) by apply s_wf.
  induction h as [|h IH]; intros fuel k lo p Hlo Hk1 Hk2 Hfuel.
  - change (2 ^ Z.of_nat 0) with 1 in *. exists (k - c).
    assert (Hrun : SumSegmentTree.find_loop fuel s k p = Ok (k - c)).
    { destruct fuel; simpl; destruct (Z.ltb_spec k c); (done || lia). }
    split; [done|]. split; [lia|]. split; [|lia].
    intros Hp0 Hp. replace (k - c) with lo by lia.
    rewrite fold_range_empty. done.
  - rewrite Nat2Z.inj_succ, Z.pow_succ_r in * by lia.
    set (P := 2 ^ Z.of_nat h) in *.
    assert (HP : 0 < P) by (apply Z.pow_pos_nonneg; lia).
    destruct fuel as [|fuel]; [lia|].
    cbn [SumSegmentTree.find_loop]. destruct (Z.ltb_spec k c) as [_|?]; [|nia].
    pose proof (node_fold Qplus 0%Q Qplus_associative Qplus_neutral s h (2 * k)
                  s_wf s_consistent s_op) as Hleft.
    fold P in Hleft.
    replace (2 * k * P - c) with lo in Hleft by (subst lo; ring).
    replace ((2 * k + 1) * P - c) with (lo + P) in Hleft by (subst lo; ring).
    erewrite list_getitem_lookup; [|lia|apply Hleft; nia]. simpl.
    pose proof (F_split lo (lo + P) (lo + 2 * P)) as Hsplit.
    destruct (Qlt_bool p (F lo (lo + P))) eqn:Hcmp.
    + apply Qlt_bool_iff in Hcmp.
      destruct (IH fuel (2 * k) lo p) as (i & Hrun & Hi & Hin & Hout);
        [subst lo; ring|nia|nia|lia|].
      exists i. split; [done|]. split; [lia|]. split.
      * intros Hp0 _. by apply Hin.
      * intros Hnn Hp. pose proof (F_nonneg (lo + P) (lo + 2 * P) Hnn).
        rewrite Hsplit in Hp by nia. lra.
    + apply Qlt_bool_false in Hcmp.
      destruct (IH fuel (2 * k + 1) (lo + P) (p - F lo (lo + P))%Q)
        as (i & Hrun & Hi & Hin & Hout); [subst lo; ring|nia|nia|lia|].
      replace (lo + P + P) with (lo + 2 * P) in * by lia.
      exists i. split; [done|]. split; [lia|]. split.
      * intros Hp0 Hp. rewrite Hsplit in Hp by nia.
        destruct Hin as [Hin1 Hin2]; [lra|lra|].
        pose proof (F_split lo (lo + P) i). pose proof (F_split lo (lo + P) (i + 1)).
        split; [rewrite H by nia; lra | rewrite H0 by nia; lra].
      * intros Hnn Hp. rewrite Hsplit in Hp by nia.
        rewrite Hout; [lia|done|lra].
Qed.


End Find.

Section FindPrefixSum.
Variable s : SegmentTree.t Q.
Hypothesis s_built : built Qplus 0%Q s.

Lemma sum_tree_valid :
  wf s /\ consistent s /\ SegmentTree._operation s = Qplus /\
  (exists n : nat, SegmentTree._capacity s = 2 ^ Z.of_nat n).
Proof. apply (built_valid Qplus 0%Q); [reflexivity|done]. Qed.

Lemma sum_default_ok depth :
  Z.log2 (SegmentTree._capacity s) < Z.of_nat depth ->
  SumSegmentTree.sum depth s 0 None = Ok (total_sum s).
Proof.
  intros Hd. destruct sum_tree_valid as (Hwf & Hcons & Hop & Hpow).
  by apply (reduce_default_ok Qplus 0%Q Qplus_associative Qplus_neutral).
Qed.

Lemma total_sum_prefix : total_sum s = prefix_sum s (SegmentTree._capacity s).
Proof.
  destruct sum_tree_valid as (Hwf & _). unfold total_sum, prefix_sum.
  by rewrite fold_range_all.
Qed.

(** [find_prefixsum_idx] on any mass that passes its assertion. *)
Lemma find_prefixsum_idx_ok depth fuel target :
  Z.log2 (SegmentTree._capacity s) < Z.of_nat depth ->
  Z.log2 (SegmentTree._capacity s) <= Z.of_nat fuel ->
  (0 <= target)%Q -> (target <= total_sum s + (1 # 100000))%Q ->
  exists i,
    SumSegmentTree.find_prefixsum_idx depth fuel s target = Ok i /\
    0 <= i < SegmentTree._capacity s /\
    ((target < total_sum s)%Q ->
       (prefix_sum s i <= target)%Q /\ (target < prefix_sum s (i + 1))%Q) /\
    (Forall (fun x => 0 <= x)%Q (leaves s) -> (total_sum s <= target)%Q ->
       i = SegmentTree._capacity s - 1).
Proof.
  intros Hd Hf Ht0 Ht1. destruct sum_tree_valid as (Hwf & Hcons & Hop & [n Hn]).
  unfold SumSegmentTree.find_prefixsum_idx.
  rewrite (proj2 (Qle_bool_iff 0 target) Ht0), sum_default_ok by done. simpl.
  rewrite (proj2 (Qle_bool_iff target _) Ht1).
  rewrite Hn, Z.log2_pow2 in Hf by lia.
  destruct (find_loop_ok s Hwf Hcons Hop n fuel 1 0 target)
    as (i & Hrun & Hi & Hin & Hout); [lia|lia|lia|lia|].
  rewrite <- Hn in Hi, Hin, Hout. rewrite Z.add_0_l in Hi, Hin, Hout.
  rewrite total_sum_prefix. unfold prefix_sum.
  exists i. split; [done|]. split; [done|]. split; [|done].
  intros Hlt. by apply Hin.
Qed.

End FindPrefixSum.






(** The unpopulated slot of the example above is really returned. *)
Example find_prefixsum_idx_unpopulated :
  SumSegmentTree.find_prefixsum_idx 1000 2 sum_tree4_partial 2%Q = Ok 3 /\
  SegmentTree.__getitem__ sum_tree4_partial 3 = Ok 0%Q.
Proof. split; reflexivity. Qed.

(** ** The prioritized buffer *)

Lemma getitem_leaves {A : Type} (s : SegmentTree.t A) i x :
  wf s -> 0 <= i < SegmentTree._capacity s ->
  leaves s !! Z.to_nat i = Some x ->
  SegmentTree.__getitem__ s i = Ok x.
Proof.
  intros Hwf Hi Hx. unfold SegmentTree.__getitem__.
  destruct (Z.leb_spec 0 i); [|lia].
  destruct (Z.ltb_spec i (SegmentTree._capacity s)); [|lia]. simpl.
  apply list_getitem_lookup; [lia|].
  rewrite leaves_lookup in Hx by done. unfold node in Hx. rewrite <- Hx. f_equal. lia.
Qed.

Lemma py_min_PInf : py_min PInf PInf = PInf.
Proof. reflexivity. Qed.

Section BaseBuffer.
Context {T : Type}.
Implicit Types rb : ReplayBuffer.t T.

(** [ReplayBuffer.add] writes at the cursor and moves it one slot on. *)
Lemma base_add_ok rb data :
  0 < ReplayBuffer._maxsize rb ->
  ReplayBuffer.__len__ rb <= ReplayBuffer._maxsize rb ->
  0 <= ReplayBuffer._next_idx rb < ReplayBuffer._maxsize rb ->
  (ReplayBuffer.__len__ rb < ReplayBuffer._maxsize rb ->
   ReplayBuffer._next_idx rb = ReplayBuffer.__len__ rb) ->
  exists rb',
    ReplayBuffer.add data rb = (rb', Ok tt) /\
    ReplayBuffer._maxsize rb' = ReplayBuffer._maxsize rb /\
    ReplayBuffer._storage rb' !! Z.to_nat (ReplayBuffer._next_idx rb) = Some data /\
    (forall j, j <> Z.to_nat (ReplayBuffer._next_idx rb) ->
       ReplayBuffer._storage rb' !! j = ReplayBuffer._storage rb !! j) /\
    ReplayBuffer.__len__ rb' =
      (if ReplayBuffer._next_idx rb =? ReplayBuffer.__len__ rb
       then ReplayBuffer.__len__ rb + 1 else ReplayBuffer.__len__ rb) /\
    ReplayBuffer.__len__ rb' <= ReplayBuffer._maxsize rb /\
    0 <= ReplayBuffer._next_idx rb' < ReplayBuffer._maxsize rb /\
    (ReplayBuffer.__len__ rb' < ReplayBuffer._maxsize rb ->
     ReplayBuffer._next_idx rb' = ReplayBuffer.__len__ rb').
Proof.
  destruct rb as [st mx nx]. unfold ReplayBuffer.__len__. simpl.
  intros Hmx Hlen Hnx Hfill. unfold ReplayBuffer.add, ReplayBuffer.__len__. simpl.
  destruct (Z.eqb_spec mx 0) as [|_]; [lia|].
  pose proof (Z.mod_pos_bound (nx + 1) mx Hmx) as Hmod.
  destruct (Z.geb_spec nx (Z.of_nat (length st))) as [Hge|Hlt].
  - assert (Hnxlen : nx = Z.of_nat (length st)) by lia.
    eexists. split; [reflexivity|]. simpl. rewrite length_app. simpl.
    destruct (Z.eqb_spec nx (Z.of_nat (length st))); [|lia].
    split; [done|]. split.
    { rewrite lookup_app_r by lia. replace (Z.to_nat nx - length st)%nat with 0%nat by lia. done. }
    split.
    { intros j Hj. destruct (decide (j < length st)%nat).
      - by rewrite lookup_app_l.
      - rewrite (lookup_ge_None_2 st) by lia.
        apply lookup_ge_None_2. rewrite length_app. simpl. lia. }
    split; [lia|]. split; [lia|]. split; [lia|].
    intros Hl. rewrite Z.mod_small by lia. lia.
  - rewrite list_setitem_insert by lia.
    eexists. split; [reflexivity|]. simpl. rewrite length_insert.
    destruct (Z.eqb_spec nx (Z.of_nat (length st))); [lia|].
    split; [done|]. split; [apply list_lookup_insert_eq; lia|].
    split; [intros j Hj; by apply list_lookup_insert_ne|].
    split; [done|]. split; [lia|]. split; [lia|]. lia.
Qed.

End BaseBuffer.

Section BufferFacts.
Context {T : Type}.
Variable pow : Q -> Q -> Q.
Implicit Types b : PrioritizedReplayBuffer.t T.

Lemma set_both_ok b idx p :
  buffer_wf b -> 0 <= idx < maxsize b ->
  exists s' m',
    SegmentTree.__setitem__ idx p (PrioritizedReplayBuffer._it_sum b) = (s', Ok tt) /\
    SegmentTree.__setitem__ idx (Fin p) (PrioritizedReplayBuffer._it_min b) = (m', Ok tt) /\
    built Qplus 0%Q s' /\ built py_min PInf m' /\
    SegmentTree._capacity s' = SegmentTree._capacity (PrioritizedReplayBuffer._it_sum b) /\
    SegmentTree._capacity m' = SegmentTree._capacity (PrioritizedReplayBuffer._it_sum b) /\
    leaves s' = <[Z.to_nat idx := p]> (leaves (PrioritizedReplayBuffer._it_sum b)) /\
    leaves m' = <[Z.to_nat idx := Fin p]> (leaves (PrioritizedReplayBuffer._it_min b)).
Proof.
  intros Hwf Hidx.
  pose proof (wf_capacity b Hwf) as Hcap. pose proof (wf_same_capacity b Hwf) as Hsame.
  destruct (built_valid Qplus 0%Q _ eq_refl (wf_sum b Hwf)) as (Hs1 & Hs2 & _).
  destruct (built_valid py_min PInf _ py_min_PInf (wf_min b Hwf)) as (Hm1 & Hm2 & _).
  destruct (setitem_ok (PrioritizedReplayBuffer._it_sum b) idx p Hs1 Hs2)
    as (s' & Hrs & _ & Hcs & _ & _ & Hls); [lia|].
  destruct (setitem_ok (PrioritizedReplayBuffer._it_min b) idx (Fin p) Hm1 Hm2)
    as (m' & Hrm & _ & Hcm & _ & _ & Hlm); [lia|].
  exists s', m'. split; [done|]. split; [done|].
  split; [apply (built_set _ _ _ idx p _ (wf_sum b Hwf)); [lia|done]|].
  split; [apply (built_set _ _ _ idx (Fin p) _ (wf_min b Hwf)); [lia|done]|].
  split; [done|]. split; [lia|]. done.
Qed.

(** [add] succeeds; it stores the transition at the cursor and sets the
    leaf of that slot in both trees to [max_priority ** alpha]. *)
Lemma add_ok b data :
  buffer_wf b ->
  exists b',
    PrioritizedReplayBuffer.add pow data b = (b', Ok tt) /\
    buffer_wf b' /\
    PrioritizedReplayBuffer._max_priority b' = PrioritizedReplayBuffer._max_priority b /\
    PrioritizedReplayBuffer._alpha b' = PrioritizedReplayBuffer._alpha b /\
    PrioritizedReplayBuffer.beta b' = PrioritizedReplayBuffer.beta b /\
    storage b' !! Z.to_nat (next_idx b) = Some data /\
    PrioritizedReplayBuffer.__len__ b' =
      (if next_idx b =? PrioritizedReplayBuffer.__len__ b
       then PrioritizedReplayBuffer.__len__ b + 1
       else PrioritizedReplayBuffer.__len__ b) /\
    leaves (PrioritizedReplayBuffer._it_sum b') =
      <[Z.to_nat (next_idx b) :=
          pow (PrioritizedReplayBuffer._max_priority b) (PrioritizedReplayBuffer._alpha b)]>
        (leaves (PrioritizedReplayBuffer._it_sum b)) /\
    leaves (PrioritizedReplayBuffer._it_min b') =
      <[Z.to_nat (next_idx b) :=
          Fin (pow (PrioritizedReplayBuffer._max_priority b)
                   (PrioritizedReplayBuffer._alpha b))]>
        (leaves (PrioritizedReplayBuffer._it_min b)).
Proof.
  intros Hwf.
  destruct (base_add_ok (PrioritizedReplayBuffer.base b) data
              (wf_maxsize b Hwf) (wf_len b Hwf) (wf_cursor b Hwf) (wf_filling b Hwf))
    as (rb' & Hbase & Hmx & Hst & _ & Hlen & Hlen' & Hnx & Hfill).
  destruct (set_both_ok b (next_idx b)
              (pow (PrioritizedReplayBuffer._max_priority b)
                   (PrioritizedReplayBuffer._alpha b)) Hwf (wf_cursor b Hwf))
    as (s' & m' & Hrs & Hrm & Hbs & Hbm & Hcs & Hcm & Hls & Hlm).
  exists (PrioritizedReplayBuffer.set_it_min m'
            (PrioritizedReplayBuffer.set_it_sum s'
               (PrioritizedReplayBuffer.set_base rb' b))).
  split.
  { unfold PrioritizedReplayBuffer.add, bind, gets, zoom. rewrite Hbase. simpl.
    unfold next_idx in Hrs, Hrm. rewrite Hrs. simpl. rewrite Hrm. done. }
  split.
  { pose proof (wf_capacity b Hwf). unfold maxsize in *.
    constructor; unfold maxsize, next_idx, PrioritizedReplayBuffer.__len__; simpl;
      try done; try lia. }
  simpl. repeat split; try done.
Qed.

(** One pair of [update_priorities] that passes both assertions. *)
Lemma update_loop_valid b idx p :
  buffer_wf b -> valid_pair b (idx, p) = true ->
  exists b1,
    (forall rest,
       PrioritizedReplayBuffer.update_loop pow ((idx, p) :: rest) b
       = PrioritizedReplayBuffer.update_loop pow rest b1) /\
    buffer_wf b1 /\
    PrioritizedReplayBuffer.base b1 = PrioritizedReplayBuffer.base b /\
    PrioritizedReplayBuffer._alpha b1 = PrioritizedReplayBuffer._alpha b /\
    PrioritizedReplayBuffer.beta b1 = PrioritizedReplayBuffer.beta b /\
    PrioritizedReplayBuffer._max_priority b1
      = py_max (PrioritizedReplayBuffer._max_priority b) p /\
    leaves (PrioritizedReplayBuffer._it_sum b1) =
      <[Z.to_nat idx := pow p (PrioritizedReplayBuffer._alpha b)]>
        (leaves (PrioritizedReplayBuffer._it_sum b)) /\
    leaves (PrioritizedReplayBuffer._it_min b1) =
      <[Z.to_nat idx := Fin (pow p (PrioritizedReplayBuffer._alpha b))]>
        (leaves (PrioritizedReplayBuffer._it_min b)).
Proof.
  intros Hwf Hvalid. unfold valid_pair in Hvalid. simpl in Hvalid.
  apply andb_true_iff in Hvalid as [Hp Hidx].
  assert (Hidx' : 0 <= idx < PrioritizedReplayBuffer.__len__ b).
  { apply andb_true_iff in Hidx as [H1 H2].
    apply Z.leb_le in H1. apply Z.ltb_lt in H2. done. }
  pose proof (wf_len b Hwf) as Hlen.
  destruct (set_both_ok b idx (pow p (PrioritizedReplayBuffer._alpha b)) Hwf)
    as (s' & m' & Hrs & Hrm & Hbs & Hbm & Hcs & Hcm & Hls & Hlm); [lia|].
  exists (PrioritizedReplayBuffer.set_max_priority
            (py_max (PrioritizedReplayBuffer._max_priority b) p)
            (PrioritizedReplayBuffer.set_it_min m'
               (PrioritizedReplayBuffer.set_it_sum s' b))).
  split.
  { intros rest. cbn [PrioritizedReplayBuffer.update_loop].
    unfold bind, gets, zoom, assert, modify. rewrite Hp. simpl. rewrite Hidx. simpl.
    rewrite Hrs. simpl. rewrite Hrm. done. }
  split.
  { destruct Hwf. constructor;
      unfold maxsize, next_idx, PrioritizedReplayBuffer.__len__ in *; simpl; try done; lia. }
  simpl. repeat split; done.
Qed.

Lemma update_loop_invalid b idx p rest :
  valid_pair b (idx, p) = false ->
  PrioritizedReplayBuffer.update_loop pow ((idx, p) :: rest) b = (b, Raise AssertionError).
Proof.
  unfold valid_pair. simpl. intros Hinv. cbn [PrioritizedReplayBuffer.update_loop].
  unfold bind, gets, assert. destruct (Qlt_bool 0 p); simpl in *; [|done].
  rewrite Hinv. done.
Qed.

Lemma valid_pair_same_len b b1 pr :
  PrioritizedReplayBuffer.base b1 = PrioritizedReplayBuffer.base b ->
  valid_pair b1 pr = valid_pair b pr.
Proof. intros Hb. unfold valid_pair, PrioritizedReplayBuffer.__len__. by rewrite Hb. Qed.

Lemma valid_prefix_same_len b b1 pairs :
  PrioritizedReplayBuffer.base b1 = PrioritizedReplayBuffer.base b ->
  valid_prefix b1 pairs = valid_prefix b pairs.
Proof.
  intros Hb. induction pairs as [|pr pairs IH]; simpl; [done|].
  by rewrite (valid_pair_same_len b b1), IH.
Qed.

(** The loop of [update_priorities] stops at the first pair that fails an
    assertion, having applied exactly the pairs before it. *)
Lemma update_loop_prefix pairs : forall b,
  buffer_wf b ->
  exists b' r,
    PrioritizedReplayBuffer.update_loop pow (valid_prefix b pairs) b = (b', Ok tt) /\
    PrioritizedReplayBuffer.update_loop pow pairs b = (b', r) /\
    (valid_prefix b pairs = pairs -> r = Ok tt) /\
    (valid_prefix b pairs <> pairs -> r = Raise AssertionError) /\
    buffer_wf b' /\
    PrioritizedReplayBuffer.base b' = PrioritizedReplayBuffer.base b /\
    PrioritizedReplayBuffer._alpha b' = PrioritizedReplayBuffer._alpha b /\
    PrioritizedReplayBuffer.beta b' = PrioritizedReplayBuffer.beta b /\
    PrioritizedReplayBuffer._max_priority b'
      = fold_left py_max (valid_prefix b pairs).*2 (PrioritizedReplayBuffer._max_priority b).
Proof.
  induction pairs as [|[idx p] pairs IH]; intros b Hwf.
  - exists b, (Ok tt). done.
  - cbn [valid_prefix]. destruct (valid_pair b (idx, p)) eqn:Hv.
    + destruct (update_loop_valid b idx p Hwf Hv)
        as (b1 & Hrun & Hwf1 & Hbase & Halpha & Hbeta & Hmp & _).
      destruct (IH b1 Hwf1)
        as (b' & r & Hok & Hall & Hr1 & Hr2 & Hwf' & Hbase' & Halpha' & Hbeta' & Hmp').
      rewrite (valid_prefix_same_len b b1) in * by done.
      exists b', r. rewrite !Hrun, Hok, Hall, fmap_cons. cbn [fold_left snd].
      rewrite Hmp', Hmp.
      split; [done|]. split; [done|].
      split; [intros [= E]; by apply Hr1|].
      split; [intros E; apply Hr2; intros E'; apply E; by rewrite E'|].
      split; [done|]. split; [congruence|]. split; [congruence|]. split; [congruence|done].
    + exists b, (Raise AssertionError). rewrite update_loop_invalid by done.
      split; [done|]. split; [done|]. split; [discriminate|]. done.
Qed.

End BufferFacts.

Section Reachable.
Context {T : Type}.
Variable pow : Q -> Q -> Q.
Implicit Types b : PrioritizedReplayBuffer.t T.

Lemma it_capacity_loop_ge fuel : forall c0 size c,
  PrioritizedReplayBuffer.it_capacity_loop fuel c0 size = Ok c -> size <= c.
Proof.
  induction fuel as [|fuel IH]; intros c0 size c; simpl;
    destruct (Z.ltb_spec c0 size); try discriminate; try (intros [= <-]; lia).
  apply IH.
Qed.

Lemma init_wf size alpha beta b :
  0 < size ->
  PrioritizedReplayBuffer.__init__ size alpha beta = Ok b ->
  buffer_wf b /\ PrioritizedReplayBuffer._max_priority b = 1%Q.
Proof.
  intros Hsize. unfold PrioritizedReplayBuffer.__init__.
  destruct (Qle_bool 0 alpha); [|discriminate].
  destruct (PrioritizedReplayBuffer.it_capacity_loop _ 1 size) as [c| |] eqn:Hc;
    try discriminate. simpl.
  apply it_capacity_loop_ge in Hc.
  destruct (SumSegmentTree.__init__ c) as [s| |] eqn:Hs; try discriminate. simpl.
  destruct (MinSegmentTree.__init__ c) as [m| |] eqn:Hm; try discriminate. simpl.
  intros [= <-]. split; [|done].
  destruct (init_ok c Qplus 0%Q s eq_refl Hs) as (_ & _ & Hcs & _).
  destruct (init_ok c py_min PInf m py_min_PInf Hm) as (_ & _ & Hcm & _).
  constructor; unfold maxsize, next_idx, PrioritizedReplayBuffer.__len__,
    ReplayBuffer.__len__; simpl; try lia.
  - by apply (built_init Qplus 0%Q c).
  - by apply (built_init py_min PInf c).
Qed.

Lemma tree_init_pow2 {A : Type} (k : nat) (op : A -> A -> A) (e : A) :
  exists s, SegmentTree.__init__ (2 ^ Z.of_nat k) op e = Ok s.
Proof.
  unfold SegmentTree.__init__.
  assert (Hpos : 0 < 2 ^ Z.of_nat k) by (apply Z.pow_pos_nonneg; lia).
  destruct (Z.ltb_spec 0 (2 ^ Z.of_nat k)); [|lia].
  replace (2 ^ Z.of_nat k - 1) with (Z.ones (Z.of_nat k))
    by (rewrite Z.ones_equiv; lia).
  rewrite Z.land_ones, Z.mod_same by lia. simpl. eauto.
Qed.

(** The loop that sizes the trees ends on a power of two before its fuel
    runs out. *)
Lemma it_capacity_loop_ok fuel : forall (j : nat) size,
  size <= 2 ^ Z.of_nat j * 2 ^ Z.of_nat fuel ->
  exists k : nat,
    PrioritizedReplayBuffer.it_capacity_loop fuel (2 ^ Z.of_nat j) size
      = Ok (2 ^ Z.of_nat k).
Proof.
  induction fuel as [|fuel IH]; intros j size Hsize; simpl.
  - destruct (Z.ltb_spec (2 ^ Z.of_nat j) size); [|eauto].
    change (2 ^ 0) with 1 in Hsize. lia.
  - destruct (Z.ltb_spec (2 ^ Z.of_nat j) size); [|eauto].
    replace (2 ^ Z.of_nat j * 2) with (2 ^ Z.of_nat (S j))
      by (rewrite Nat2Z.inj_succ, Z.pow_succ_r; lia).
    apply IH. rewrite Nat2Z.inj_succ, Z.pow_succ_r in * by lia. lia.
Qed.

(** The constructor succeeds for every positive size and every
    [alpha >= 0]. *)
Lemma init_succeeds size (alpha beta : Q) :
  0 < size -> (0 <= alpha)%Q ->
  exists b : PrioritizedReplayBuffer.t T,
    PrioritizedReplayBuffer.__init__ size alpha beta = Ok b.
Proof.
  intros Hsize Halpha. unfold PrioritizedReplayBuffer.__init__.
  rewrite (proj2 (Qle_bool_iff 0 alpha) Halpha).
  destruct (it_capacity_loop_ok (Z.to_nat size) 0 size) as [k Hk].
  { change (2 ^ Z.of_nat 0) with 1. rewrite Z2Nat.id by lia.
    pose proof (Z.pow_gt_lin_r 2 size). lia. }
  change (2 ^ Z.of_nat 0) with 1 in Hk. rewrite Hk. simpl.
  unfold SumSegmentTree.__init__, MinSegmentTree.__init__.
  destruct (tree_init_pow2 k Qplus 0%Q) as [s ->].
  destruct (tree_init_pow2 k py_min PInf) as [m ->]. simpl. eauto.
Qed.

(** [update_priorities] as a whole. *)
Lemma update_priorities_spec b idxes priorities :
  buffer_wf b ->
  exists b' r,
    PrioritizedReplayBuffer.update_priorities pow idxes priorities b = (b', r) /\
    PrioritizedReplayBuffer.update_loop pow (applied b idxes priorities) b = (b', Ok tt) /\
    (length idxes <> length priorities -> b' = b /\ r = Raise AssertionError) /\
    (length idxes = length priorities ->
       (valid_prefix b (zip idxes priorities) = zip idxes priorities -> r = Ok tt) /\
       (valid_prefix b (zip idxes priorities) <> zip idxes priorities ->
        r = Raise AssertionError)) /\
    buffer_wf b' /\
    PrioritizedReplayBuffer.base b' = PrioritizedReplayBuffer.base b /\
    PrioritizedReplayBuffer._alpha b' = PrioritizedReplayBuffer._alpha b /\
    PrioritizedReplayBuffer.beta b' = PrioritizedReplayBuffer.beta b /\
    PrioritizedReplayBuffer._max_priority b'
      = fold_left py_max (applied b idxes priorities).*2
          (PrioritizedReplayBuffer._max_priority b).
Proof.
  intros Hwf. unfold PrioritizedReplayBuffer.update_priorities, applied, bind, assert.
  destruct (Nat.eqb_spec (length idxes) (length priorities)) as [Hlen|Hlen]; simpl.
  - destruct (update_loop_prefix pow (zip idxes priorities) b Hwf)
      as (b' & r & Hok & Hall & Hr1 & Hr2 & Hwf' & Hrest).
    exists b', r. rewrite Hall.
    split; [done|]. split; [done|]. split; [done|]. split; [done|]. done.
  - exists b, (Raise AssertionError).
    split; [done|]. split; [done|]. split; [done|]. split; [done|]. done.
Qed.

Lemma reachable_wf b h :
  reachable pow b h ->
  buffer_wf b /\ PrioritizedReplayBuffer._max_priority b = historical_max h.
Proof.
  induction 1 as [size alpha beta b Hsize Hinit
                 |b h data b' r Hb [Hwf Hmp] Hadd
                 |b h idxes priorities b' r Hb [Hwf Hmp] Hupd].
  - by apply (init_wf size alpha beta).
  - destruct (add_ok pow b data Hwf) as (b2 & Hrun & Hwf2 & Hmp2 & _).
    rewrite Hadd in Hrun. injection Hrun as -> ->. split; [done|congruence].
  - destruct (update_priorities_spec b idxes priorities Hwf)
      as (b2 & r2 & Hrun & _ & _ & _ & Hwf2 & _ & _ & _ & Hmp2).
    rewrite Hupd in Hrun. injection Hrun as -> ->. split; [done|].
    unfold historical_max. rewrite fold_left_app. fold (historical_max h).
    by rewrite <- Hmp.
Qed.

End Reachable.


Lemma buffer1_reachable : reachable ipow buffer1 [].
Proof.
  apply (reach_add ipow buffer0 [] 10%nat buffer1 (Ok tt)).
  - apply (reach_init ipow 2 1%Q 1%Q); [lia|reflexivity].
  - reflexivity.
Qed.

Lemma buffer2_reachable : reachable ipow buffer2 [].
Proof.
  apply (reach_add ipow buffer1 [] 11%nat buffer2 (Ok tt)).
  - exact buffer1_reachable.
  - reflexivity.
Qed.



(** C6, as the code has it. On a store of positive size, [add] succeeds,
    the base store writes the transition at the slot the cursor pointed to,
    and both trees hold [max_priority ** alpha] at that slot, where
    [max_priority] is the largest of [1.0] and the priorities that
    [update_priorities] has applied so far. *)
Theorem add_sets_max_priority_mass {T : Type} (pow : Q -> Q -> Q)
    (b : PrioritizedReplayBuffer.t T) (h : list Q) (data : T) :
  reachable pow b h ->
  exists b',
    PrioritizedReplayBuffer.add pow data b = (b', Ok tt) /\
    storage b' !! Z.to_nat (next_idx b) = Some data /\
    PrioritizedReplayBuffer._max_priority b = historical_max h /\
    SegmentTree.__getitem__ (PrioritizedReplayBuffer._it_sum b') (next_idx b)
      = Ok (pow (historical_max h) (PrioritizedReplayBuffer._alpha b)) /\
    SegmentTree.__getitem__ (PrioritizedReplayBuffer._it_min b') (next_idx b)
      = Ok (Fin (pow (historical_max h) (PrioritizedReplayBuffer._alpha b))).
Proof.
  intros Hb. destruct (reachable_wf pow b h Hb) as [Hwf Hmp].
  destruct (add_ok pow b data Hwf) as (b' & Hrun & Hwf' & _ & _ & _ & Hst & _ & Hls & Hlm).
  exists b'. split; [done|]. split; [done|]. split; [done|].
  pose proof (wf_cursor b Hwf) as Hcur. pose proof (wf_capacity b Hwf) as Hcap.
  pose proof (wf_same_capacity b Hwf) as Hsame.
  destruct (built_valid Qplus 0%Q _ eq_refl (wf_sum b Hwf)) as (Hs & _).
  destruct (built_valid py_min PInf _ py_min_PInf (wf_min b Hwf)) as (Hm & _).
  destruct (built_valid Qplus 0%Q _ eq_refl (wf_sum b' Hwf')) as (Hs' & _).
  destruct (built_valid py_min PInf _ py_min_PInf (wf_min b' Hwf')) as (Hm' & _).
  pose proof (leaves_length _ Hs) as Hl1. pose proof (leaves_length _ Hm) as Hl2.
  pose proof (leaves_length _ Hs') as Hl1'. pose proof (leaves_length _ Hm') as Hl2'.
  rewrite Hls, length_insert in Hl1'. rewrite Hlm, length_insert in Hl2'.
  rewrite <- Hmp. split.
  - apply getitem_leaves; [done|lia|]. rewrite Hls. apply list_lookup_insert_eq. lia.
  - apply getitem_leaves; [done|lia|]. rewrite Hlm. apply list_lookup_insert_eq. lia.
Qed.

Lemma add_sets_max_priority_mass_witness :
  exists b',
    PrioritizedReplayBuffer.add ipow 12%nat buffer2 = (b', Ok tt) /\
    storage b' !! Z.to_nat (next_idx buffer2) = Some 12%nat /\
    PrioritizedReplayBuffer._max_priority buffer2 = historical_max [] /\
    SegmentTree.__getitem__ (PrioritizedReplayBuffer._it_sum b') (next_idx buffer2)
      = Ok (ipow (historical_max []) (PrioritizedReplayBuffer._alpha buffer2)) /\
    SegmentTree.__getitem__ (PrioritizedReplayBuffer._it_min b') (next_idx buffer2)
      = Ok (Fin (ipow (historical_max []) (PrioritizedReplayBuffer._alpha buffer2))).
Proof.
  apply (add_sets_max_priority_mass ipow buffer2 [] 12%nat).
  exact buffer2_reachable.
Defined.

(** C6 as stated fails when every priority supplied so far is below 1:
    after [add; update_priorities([0], [0.5]); add] with [alpha = 1], slot 1
    holds [1.0], not [0.5 ** alpha], although 0.5 is the only priority ever
    supplied. It also fails for a priority supplied in a pair that is
    rejected: after [add; update_priorities([5], [50.0])], which fails on
    its index, and a second [add], slot 1 holds [1.0], not [50.0 ** alpha]. *)
Lemma add_after_low_priority_uses_one :
  (PrioritizedReplayBuffer.update_priorities ipow [0] [(1 # 2)%Q];;
   PrioritizedReplayBuffer.add ipow 11%nat) buffer1 = (buffer_low, Ok tt) /\
  SegmentTree.__getitem__ (PrioritizedReplayBuffer._it_sum buffer_low) 1 = Ok 1%Q /\
  SegmentTree.__getitem__ (PrioritizedReplayBuffer._it_min buffer_low) 1 = Ok (Fin 1%Q) /\
  ~ (1 == ipow (1 # 2) (PrioritizedReplayBuffer._alpha buffer_low))%Q /\
  snd (PrioritizedReplayBuffer.update_priorities ipow [5] [50%Q] buffer1)
    = Raise AssertionError /\
  SegmentTree.__getitem__ (PrioritizedReplayBuffer._it_sum buffer_rejected) 1 = Ok 1%Q /\
  ~ (1 == ipow 50 (PrioritizedReplayBuffer._alpha buffer_rejected))%Q.
Proof.
  split; [vm_compute; reflexivity|]. split; [reflexivity|]. split; [reflexivity|].
  split; [vm_compute; discriminate|]. split; [reflexivity|]. split; [reflexivity|].
  vm_compute. discriminate.
Qed.

(** C5 on a store with two transitions of priority mass 1 each. The mass
    that [_sample_proportional] partitions is [sum(0, len - 1)], which
    [reduce] reads with an exclusive end: it is the mass of slot 0 alone, 1
    and not 2, so the only stratum of a batch of one is [[0, 1)] and a draw
    of 0.9 lands at 0.9 in slot 0, where a partition of the whole mass
    [[0, 2)] puts it at 1.8 in slot 1; slot 1 cannot be drawn. With one
    transition the range is empty and the call never returns a batch. *)
Theorem sample_proportional_leaves_out_last_slot :
  PrioritizedReplayBuffer.__len__ buffer2 = 2 /\
  SegmentTree.__getitem__ (PrioritizedReplayBuffer._it_sum buffer2) 0 = Ok 1%Q /\
  SegmentTree.__getitem__ (PrioritizedReplayBuffer._it_sum buffer2) 1 = Ok 1%Q /\
  SumSegmentTree.sum 1000 (PrioritizedReplayBuffer._it_sum buffer2) 0
    (Some (PrioritizedReplayBuffer.__len__ buffer2 - 1)) = Ok 1%Q /\
  PrioritizedReplayBuffer._sample_proportional 1000 1 (fun _ => 9 # 10)%Q buffer2 1
    = Ok [0] /\
  SumSegmentTree.find_prefixsum_idx 1000 1 (PrioritizedReplayBuffer._it_sum buffer2)
    (18 # 10)%Q = Ok 1 /\
  PrioritizedReplayBuffer._sample_proportional 1000 1 (fun _ => 9 # 10)%Q buffer1 1
    = Raise RecursionError.
Proof. repeat split; vm_compute; reflexivity. Qed.

(** ** Frame stacking *)

Lemma times_mask_1 (f : VecReplayBuffer.frame) : VecReplayBuffer.times_mask f 1 = f.
Proof.
  unfold VecReplayBuffer.times_mask. induction f as [|x f IH]; simpl; [done|].
  by rewrite IH, Z.mul_1_r.
Qed.

Lemma times_mask_0 (f : VecReplayBuffer.frame) :
  VecReplayBuffer.times_mask f 0 = replicate (length f) 0.
Proof.
  unfold VecReplayBuffer.times_mask. induction f as [|x f IH]; simpl; [done|].
  by rewrite IH, Z.mul_0_r.
Qed.

Lemma mask_step_length m : length (VecReplayBuffer.mask_step m) = length m.
Proof.
  destruct m as [|m0 tl]; simpl; [done|]. rewrite length_zip_with. simpl. lia.
Qed.

Lemma mask_step_lookup_0 m x :
  m !! 0%nat = Some x -> VecReplayBuffer.mask_step m !! 0%nat = Some x.
Proof. destruct m; simpl; done. Qed.

Lemma mask_step_lookup_S m (t : nat) a b :
  m !! t = Some a -> m !! S t = Some b ->
  VecReplayBuffer.mask_step m !! S t = Some (b * a).
Proof.
  destruct m as [|m0 tl]; [done|]. intros Ha Hb. simpl in Hb |- *.
  rewrite lookup_zip_with, Hb, Ha. done.
Qed.

Lemma initial_mask_lookup_0 d : VecReplayBuffer.initial_mask d !! 0%nat = Some 1.
Proof. done. Qed.

Lemma initial_mask_lookup_S d (t : nat) :
  (t < length d)%nat -> VecReplayBuffer.initial_mask d !! S t = Some (1 - d !!! t).
Proof.
  intros Ht. unfold VecReplayBuffer.initial_mask. simpl.
  rewrite list_lookup_fmap, (list_lookup_lookup_total_lt d t) by done. done.
Qed.

Section Window.
Variable d : list Z.
Hypothesis d_binary : Forall (fun x => x = 0 \/ x = 1) d.

Lemma done_binary (t : nat) : d !!! t = 0 \/ d !!! t = 1.
Proof.
  destruct (decide (t < length d)%nat) as [Ht|Ht].
  - rewrite Forall_lookup in d_binary. apply (d_binary t).
    by apply list_lookup_lookup_total_lt.
  - rewrite list_lookup_total_alt, lookup_ge_None_2 by lia. by right.
Qed.

Lemma window_binary (k : nat) : forall t, window d t k = 0 \/ window d t k = 1.
Proof.
  induction k as [|k IH]; intros [|t]; simpl; auto.
  destruct (done_binary t) as [-> | ->], (IH t) as [-> | ->]; auto.
Qed.

Lemma window_absorbs (k : nat) : forall t,
  window d t k * window d t (S k) = window d t (S k).
Proof.
  induction k as [|k IH]; intros [|t]; try (simpl; lia).
  change (window d (S t) (S (S k))) with ((1 - d !!! t) * window d t (S k)).
  change (window d (S t) (S k)) with ((1 - d !!! t) * window d t k).
  pose proof (IH t) as Hk.
  destruct (done_binary t) as [-> | ->]; [|lia].
  rewrite !Z.sub_0_r, !Z.mul_1_l. done.
Qed.

(** The mask after [j] multiplications into itself is the window of
    length [j + 1]. *)
Lemma mask_iter_lookup (j : nat) : forall t : nat,
  (t <= length d)%nat ->
  Nat.iter j VecReplayBuffer.mask_step (VecReplayBuffer.initial_mask d) !! t
    = Some (window d t (S j)).
Proof.
  induction j as [|j IH]; intros [|t] Ht.
  - done.
  - cbn [Nat.iter nat_rect]. rewrite initial_mask_lookup_S by lia.
    change (window d (S t) 1) with ((1 - d !!! t) * 1). by rewrite Z.mul_1_r.
  - simpl. apply mask_step_lookup_0. by apply IH.
  - cbn [Nat.iter nat_rect].
    rewrite (mask_step_lookup_S _ t (window d t (S j)) (window d (S t) (S j)))
      by (apply IH; lia).
    f_equal. change (window d (S t) (S (S j))) with ((1 - d !!! t) * window d t (S j)).
    change (window d (S t) (S j)) with ((1 - d !!! t) * window d t j).
    rewrite <- Z.mul_assoc, window_absorbs. done.
Qed.

(** A window is 0 exactly when an episode ended inside it. *)
Lemma window_zero (k : nat) : forall t : nat,
  window d t k = 0 <-> exists s : nat, (t - k <= s < t)%nat /\ d !!! s = 1.
Proof.
  induction k as [|k IH]; intros [|t]; simpl.
  1,2,3: split; [lia|intros (s & Hs & _); lia].
  split.
  - intros H. destruct (done_binary t) as [E|E].
    + rewrite E in H. destruct (proj1 (IH t)) as (s & Hs & Hd); [lia|].
      exists s. split; [lia|done].
    + exists t. split; [lia|done].
  - intros (s & Hs & Hd). destruct (decide (s = t)) as [->|Hne].
    + rewrite Hd. lia.
    + rewrite (proj2 (IH t)); [lia|]. exists s. split; [lia|done].
Qed.

End Window.

Section StackEnv.
Variable self : VecReplayBuffer.t.
Variable enc_e : list VecReplayBuffer.frame.
Variable d_e : list Z.
Hypothesis enc_length :
  length enc_e = (VecReplayBuffer.nsteps self + VecReplayBuffer.nstack self)%nat.
Hypothesis d_length : length d_e = VecReplayBuffer.nsteps self.
Hypothesis d_binary : Forall (fun x => x = 0 \/ x = 1) d_e.

Lemma mask_iter_length (j : nat) :
  length (Nat.iter j VecReplayBuffer.mask_step (VecReplayBuffer.initial_mask d_e))
    = S (VecReplayBuffer.nsteps self).
Proof.
  induction j as [|j IH]; cbn [Nat.iter nat_rect].
  - unfold VecReplayBuffer.initial_mask. simpl. by rewrite length_fmap, d_length.
  - by rewrite mask_step_length.
Qed.

Lemma assign_block_lookup (k t : nat) obs_e row :
  (k < VecReplayBuffer.nstack self)%nat ->
  length obs_e = S (VecReplayBuffer.nsteps self) ->
  obs_e !! t = Some row ->
  VecReplayBuffer.assign_block self k obs_e enc_e !! t
    = Some (<[k := enc_e !!! (k + t)%nat]> row).
Proof.
  intros Hk Hlen Hrow. pose proof (lookup_lt_Some _ _ _ Hrow) as Ht.
  unfold VecReplayBuffer.assign_block.
  rewrite lookup_zip_with, Hrow. simpl.
  rewrite lookup_take_lt, lookup_drop by lia.
  rewrite (list_lookup_lookup_total_lt enc_e (k + t)) by lia. done.
Qed.

Lemma assign_block_length (k : nat) obs_e :
  (k < VecReplayBuffer.nstack self)%nat ->
  length obs_e = S (VecReplayBuffer.nsteps self) ->
  length (VecReplayBuffer.assign_block self k obs_e enc_e)
    = S (VecReplayBuffer.nsteps self).
Proof.
  intros Hk Hlen. unfold VecReplayBuffer.assign_block.
  rewrite length_zip_with, length_take, length_drop. lia.
Qed.

Lemma scale_block_lookup (k t : nat) obs_e mask_e row m :
  obs_e !! t = Some row -> mask_e !! t = Some m ->
  VecReplayBuffer.scale_block k obs_e mask_e !! t
    = Some (alter (fun f => VecReplayBuffer.times_mask f m) k row).
Proof.
  intros Hrow Hm. unfold VecReplayBuffer.scale_block.
  by rewrite lookup_zip_with, Hrow, Hm.
Qed.

(** One turn of the loop, for channel [k]. *)
Lemma step_env_stacked (k : nat) st :
  (k < VecReplayBuffer.nstack self)%nat ->
  stacked_from self enc_e d_e (S k) st ->
  stacked_from self enc_e d_e k (step_env self enc_e st k).
Proof.
  intros Hk. destruct st as [obs mask]. intros (Hlen & Hmask & Hrows). simpl in *.
  unfold step_env. simpl.
  pose proof (assign_block_length k obs Hk Hlen) as Halen.
  destruct (Z.ltb_spec (Z.of_nat k) (Z.of_nat (VecReplayBuffer.nstack self) - 1)) as [Hlt|Hge].
  - split; [|split]; simpl.
    + unfold VecReplayBuffer.scale_block. rewrite length_zip_with, Halen, Hmask.
      rewrite mask_iter_length. lia.
    + replace (VecReplayBuffer.nstack self - 1 - k)%nat
        with (S (VecReplayBuffer.nstack self - 1 - S k)) by lia.
      cbn [Nat.iter nat_rect]. by rewrite Hmask.
    + intros t row' Hrow'.
      assert (Ht : (t < S (VecReplayBuffer.nsteps self))%nat).
      { apply lookup_lt_Some in Hrow'. unfold VecReplayBuffer.scale_block in Hrow'.
        rewrite length_zip_with in Hrow'. lia. }
      destruct (lookup_lt_is_Some_2 obs t) as [row Hrow]; [lia|].
      destruct (Hrows t row Hrow) as [Hrl Hri].
      assert (Hm : mask !! t = Some (window d_e t (VecReplayBuffer.nstack self - 1 - k))).
      { rewrite Hmask, mask_iter_lookup by (done || lia). do 2 f_equal. lia. }
      rewrite (scale_block_lookup k t _ mask (<[k := enc_e !!! (k + t)%nat]> row) _
                 (assign_block_lookup k t obs row Hk Hlen Hrow) Hm) in Hrow'.
      injection Hrow' as <-. split; [by rewrite length_alter, length_insert|].
      intros i Hi. destruct (decide (i = k)) as [->|Hne].
      * rewrite list_lookup_alter_eq, list_lookup_insert_eq by lia. simpl.
        by rewrite decide_True by lia.
      * rewrite list_lookup_alter_ne, list_lookup_insert_ne, Hri by done.
        destruct (decide (S k <= i)%nat), (decide (k <= i)%nat); (done || lia).
  - split; [|split]; simpl.
    + done.
    + rewrite Hmask. f_equal. lia.
    + intros t row' Hrow'.
      assert (Ht : (t < S (VecReplayBuffer.nsteps self))%nat).
      { apply lookup_lt_Some in Hrow'. lia. }
      destruct (lookup_lt_is_Some_2 obs t) as [row Hrow]; [lia|].
      destruct (Hrows t row Hrow) as [Hrl Hri].
      rewrite (assign_block_lookup k t obs row Hk Hlen Hrow) in Hrow'.
      injection Hrow' as <-. split; [by rewrite length_insert|].
      intros i Hi. destruct (decide (i = k)) as [->|Hne].
      * rewrite list_lookup_insert_eq, decide_True by lia.
        replace (VecReplayBuffer.nstack self - 1 - k)%nat with 0%nat by lia.
        change (window d_e t 0) with 1. by rewrite times_mask_1.
      * rewrite list_lookup_insert_ne, Hri by done.
        destruct (decide (S k <= i)%nat), (decide (k <= i)%nat); (done || lia).
Qed.

(** The whole loop, channel [nstack - 1] first. *)
Lemma stack_env_stacked (m : nat) :
  (m <= VecReplayBuffer.nstack self)%nat ->
  stacked_from self enc_e d_e (VecReplayBuffer.nstack self - m)
    (fold_left (step_env self enc_e)
       (rev (seq (VecReplayBuffer.nstack self - m) m))
       (replicate (S (VecReplayBuffer.nsteps self))
          (replicate (VecReplayBuffer.nstack self)
             (replicate (VecReplayBuffer.fsize self) 0)),
        VecReplayBuffer.initial_mask d_e)).
Proof.
  induction m as [|m IH]; intros Hm.
  - cbn [seq rev fold_left]. split; [|split]; cbn [fst snd].
    + by rewrite length_replicate.
    + replace (VecReplayBuffer.nstack self - 1 - (VecReplayBuffer.nstack self - 0))%nat
        with 0%nat by lia. done.
    + intros t row Hrow. apply lookup_replicate_1 in Hrow as [-> _].
      split; [by rewrite length_replicate|]. intros i Hi.
      rewrite lookup_replicate_2, decide_False by lia. done.
  - replace (VecReplayBuffer.nstack self - m)%nat
      with (S (VecReplayBuffer.nstack self - S m)) in IH by lia.
    cbn [seq rev]. rewrite fold_left_app. simpl.
    apply step_env_stacked; [lia|]. apply IH. lia.
Qed.

End StackEnv.

(** The arrays are handled one environment at a time. *)
Lemma stack_step_env self enc_obs obs mask (i e : nat) oe me ee :
  obs !! e = Some oe -> mask !! e = Some me -> enc_obs !! e = Some ee ->
  (VecReplayBuffer.stack_step self enc_obs (obs, mask) i).1 !! e
    = Some (step_env self ee (oe, me) i).1 /\
  (VecReplayBuffer.stack_step self enc_obs (obs, mask) i).2 !! e
    = Some (step_env self ee (oe, me) i).2.
Proof.
  intros Ho Hm He. unfold VecReplayBuffer.stack_step, step_env. simpl.
  destruct (Z.of_nat i <? Z.of_nat (VecReplayBuffer.nstack self) - 1); simpl.
  - rewrite !lookup_zip_with, Ho, He, Hm, list_lookup_fmap, Hm. done.
  - rewrite lookup_zip_with, Ho, He, Hm. done.
Qed.

Lemma stack_fold_env self enc_obs (e : nat) ee (l : list nat) : forall obs mask oe me,
  obs !! e = Some oe -> mask !! e = Some me -> enc_obs !! e = Some ee ->
  (fold_left (VecReplayBuffer.stack_step self enc_obs) l (obs, mask)).1 !! e
    = Some (fold_left (step_env self ee) l (oe, me)).1.
Proof.
  induction l as [|i l IH]; intros obs mask oe me Ho Hm He; [done|].
  cbn [fold_left].
  destruct (stack_step_env self enc_obs obs mask i e oe me ee Ho Hm He) as [H1 H2].
  destruct (VecReplayBuffer.stack_step self enc_obs (obs, mask) i) as [obs' mask'].
  destruct (step_env self ee (oe, me) i) as [oe' me']. by apply IH.
Qed.

(** C9, as the code has it. The mask starts as [mask[0] = 1] and
    [mask[t] = 1 - done[t - 1]], and after each masked channel it is
    multiplied into itself one step apart, so that the channel that is [k]
    frames older than the newest one is multiplied, at step [t], by the
    product of [1 - done[s]] over the [k] steps [s] before [t]. In the
    reconstructed stack of an environment, channel [i] at step [t] is
    therefore frame [i + t] of that environment, zeroed exactly when one of
    its own episodes ended between that frame and the newest frame of the
    step, and otherwise unchanged. *)
Theorem stack_obs_masks_by_window (self : VecReplayBuffer.t)
    (enc_obs : list (list VecReplayBuffer.frame)) (dones : list (list Z))
    (e t i : nat) (enc_e : list VecReplayBuffer.frame) (d_e : list Z) :
  (e < VecReplayBuffer.nenv self)%nat ->
  enc_obs !! e = Some enc_e -> dones !! e = Some d_e ->
  length enc_e = (VecReplayBuffer.nsteps self + VecReplayBuffer.nstack self)%nat ->
  length d_e = VecReplayBuffer.nsteps self ->
  Forall (fun x => x = 0 \/ x = 1) d_e ->
  (t <= VecReplayBuffer.nsteps self)%nat ->
  (i < VecReplayBuffer.nstack self)%nat ->
  let k := (VecReplayBuffer.nstack self - 1 - i)%nat in
  VecReplayBuffer.initial_mask d_e !! 0%nat = Some 1 /\
  (forall s : nat, (s < VecReplayBuffer.nsteps self)%nat ->
     VecReplayBuffer.initial_mask d_e !! S s = Some (1 - d_e !!! s)) /\
  exists obs_e row,
    VecReplayBuffer._stack_obs self enc_obs dones !! e = Some obs_e /\
    obs_e !! t = Some row /\
    row !! i = Some (VecReplayBuffer.times_mask (enc_e !!! (i + t)%nat) (window d_e t k)) /\
    ((exists s : nat, (t - k <= s < t)%nat /\ d_e !!! s = 1) ->
       row !! i = Some (replicate (length (enc_e !!! (i + t)%nat)) 0)) /\
    ((forall s : nat, (t - k <= s < t)%nat -> d_e !!! s = 0) ->
       row !! i = Some (enc_e !!! (i + t)%nat)).
Proof.
  intros He Henc Hd Hel Hdl Hbin Ht Hi k.
  split; [done|]. split.
  { intros s Hs. apply initial_mask_lookup_S. lia. }
  pose proof (stack_env_stacked self enc_e d_e Hel Hdl Hbin
                (VecReplayBuffer.nstack self) (le_n _)) as Hst.
  rewrite Nat.sub_diag in Hst. destruct Hst as (Hlen & _ & Hrows).
  set (final := fold_left (step_env self enc_e) _ _) in *.
  exists final.1.
  destruct (lookup_lt_is_Some_2 final.1 t) as [row Hrow]; [lia|].
  exists row. destruct (Hrows t row Hrow) as [_ Hri].
  specialize (Hri i Hi). rewrite decide_True in Hri by lia. fold k in Hri.
  split.
  { unfold VecReplayBuffer._stack_obs, VecReplayBuffer.stack_loop.
    apply (stack_fold_env self enc_obs e enc_e); [|by rewrite list_lookup_fmap, Hd|done].
    by apply lookup_replicate_2. }
  split; [done|]. split; [done|]. split.
  - intros Hex. rewrite (proj2 (window_zero d_e Hbin k t) Hex), times_mask_0 in Hri.
    exact Hri.
  - intros Hall.
    destruct (window_binary d_e Hbin k t) as [H0|H1].
    + apply (window_zero d_e Hbin) in H0 as (s & Hs & Hd1).
      rewrite (Hall s Hs) in Hd1. discriminate.
    + rewrite H1, times_mask_1 in Hri. exact Hri.
Qed.

Lemma stack_obs_masks_by_window_witness :
  let k := (VecReplayBuffer.nstack vec_self - 1 - 0)%nat in
  VecReplayBuffer.initial_mask [1; 0; 0] !! 0%nat = Some 1 /\
  (forall s : nat, (s < VecReplayBuffer.nsteps vec_self)%nat ->
     VecReplayBuffer.initial_mask [1; 0; 0] !! S s = Some (1 - [1; 0; 0] !!! s)) /\
  exists obs_e row,
    VecReplayBuffer._stack_obs vec_self vec_enc_obs vec_dones !! 0%nat = Some obs_e /\
    obs_e !! 1%nat = Some row /\
    row !! 0%nat
      = Some (VecReplayBuffer.times_mask
                ([[10]; [11]; [12]; [13]; [14]] !!! (0 + 1)%nat) (window [1; 0; 0] 1 k)) /\
    ((exists s : nat, (1 - k <= s < 1)%nat /\ [1; 0; 0] !!! s = 1) ->
       row !! 0%nat
         = Some (replicate (length ([[10]; [11]; [12]; [13]; [14]] !!! (0 + 1)%nat)) 0)) /\
    ((forall s : nat, (1 - k <= s < 1)%nat -> [1; 0; 0] !!! s = 0) ->
       row !! 0%nat = Some ([[10]; [11]; [12]; [13]; [14]] !!! (0 + 1)%nat)).
Proof.
  apply (stack_obs_masks_by_window vec_self vec_enc_obs vec_dones 0 1 0
           [[10]; [11]; [12]; [13]; [14]] [1; 0; 0]).
  - simpl. lia.
  - reflexivity.
  - reflexivity.
  - reflexivity.
  - reflexivity.
  - repeat constructor; lia.
  - simpl. lia.
  - simpl. lia.
Defined.

(** C9 as stated fails: with [done = [1, 0, 0]] and two stacked frames, the
    mask that multiplies the older channel is [[1, 0, 1, 1]], which is not
    cumulative ([mask[2] = 1] although [mask[1] * (1 - done[1]) = 0]); at
    step 2 the older channel keeps its frame, which the cumulative mask
    would zero. *)
Lemma stack_obs_mask_not_cumulative :
  (VecReplayBuffer.stack_loop vec_self vec_enc_obs vec_dones).2 !! 0%nat
    = Some (VecReplayBuffer.mask_step [1; 0; 1; 1]) /\
  ~ (forall t : nat, (0 < t <= 3)%nat ->
       [1; 0; 1; 1] !!! t = [1; 0; 1; 1] !!! (t - 1)%nat * (1 - [1; 0; 0] !!! (t - 1)%nat)) /\
  (exists obs_e row,
     VecReplayBuffer._stack_obs vec_self vec_enc_obs vec_dones !! 0%nat = Some obs_e /\
     obs_e !! 2%nat = Some row /\ row !! 0%nat = Some [12]) /\
  VecReplayBuffer.times_mask [12] (cumulative_mask [1; 0; 0] 2) = [0].
Proof.
  split; [reflexivity|]. split.
  { intros H. specialize (H 2%nat ltac:(lia)). vm_compute in H. discriminate. }
  split; [|reflexivity].
  eexists _, _. split; [reflexivity|]. split; reflexivity.
Qed.

(** ** The minimum tree *)

Lemma ext_lt_bool_iff x y : ext_lt_bool x y = true <-> ext_le x y /\ ~ ext_le y x.
Proof.
  destruct x as [a|], y as [b|]; simpl; try rewrite Qlt_bool_iff;
    split; try (intros [? ?]); try split; try tauto; try discriminate; try lra.
Qed.

Lemma ext_le_refl x : ext_le x x.
Proof. destruct x; simpl; [lra|done]. Qed.

Lemma ext_le_trans x y z : ext_le x y -> ext_le y z -> ext_le x z.
Proof. destruct x, y, z; simpl; try tauto; try lra. Qed.

Lemma ext_le_total x y : ext_le x y \/ ext_le y x.
Proof. destruct x as [a|], y as [b|]; simpl; try tauto. lra. Qed.

Lemma py_min_spec a b :
  (py_min a b = a /\ ext_le a b) \/ (py_min a b = b /\ ext_le b a /\ ~ ext_le a b).
Proof.
  unfold py_min. destruct (ext_lt_bool b a) eqn:E.
  - right. apply ext_lt_bool_iff in E. tauto.
  - left. split; [done|].
    destruct a as [x|], b as [y|]; simpl in *; try done.
    by apply Qlt_bool_false.
Qed.

Lemma py_min_associative : associative py_min.
Proof.
  intros x y z.
  destruct (py_min_spec y z) as [[-> Hyz]|(-> & Hzy & Hnyz)].
  - destruct (py_min_spec x y) as [[-> Hxy]|(-> & Hyx & Hnxy)].
    + destruct (py_min_spec x z) as [[-> _]|(_ & _ & Hn)]; [done|].
      exfalso. apply Hn. by apply (ext_le_trans x y z).
    + destruct (py_min_spec y z) as [[-> _]|(_ & _ & Hn)]; [done|]. tauto.
  - destruct (py_min_spec x y) as [[-> Hxy]|(-> & Hyx & Hnxy)].
    + done.
    + destruct (py_min_spec x z) as [[-> Hxz]|(-> & Hzx & Hnxz)].
      * exfalso. apply Hnxy. by apply (ext_le_trans x z y).
      * destruct (py_min_spec y z) as [[_ H]|(-> & _)]; [tauto|done].
Qed.

Lemma py_min_neutral : neutral py_min PInf.
Proof. intros [a|]; split; reflexivity. Qed.

(** The minimum tree's fold is a lower bound of the leaves, and one of
    them unless it is infinite. *)
Lemma fold_py_min (l : list ext) : forall a,
  ext_le (fold_left py_min l a) a /\
  (forall x, x ∈ l -> ext_le (fold_left py_min l a) x) /\
  (fold_left py_min l a = a \/ fold_left py_min l a ∈ l).
Proof.
  induction l as [|y l IH]; intros a; simpl.
  - split; [apply ext_le_refl|]. split; [|by left]. intros x Hx. by apply elem_of_nil in Hx.
  - destruct (IH (py_min a y)) as (H1 & H2 & H3).
    assert (Ha : ext_le (py_min a y) a /\ ext_le (py_min a y) y).
    { destruct (py_min_spec a y) as [[-> ?]|(-> & ? & ?)];
        split; (done || apply ext_le_refl). }
    split; [apply (ext_le_trans _ (py_min a y)); tauto|]. split.
    + intros x Hx. apply elem_of_cons in Hx as [->|Hx]; [|by apply H2].
      apply (ext_le_trans _ (py_min a y)); tauto.
    + destruct H3 as [H3|H3]; [|right; by apply elem_of_cons; right].
      rewrite H3. destruct (py_min_spec a y) as [[-> _]|(-> & _)]; [by left|].
      right. apply elem_of_cons. by left.
Qed.

(** ** Priority masses of the reachable states *)

Section Masses.
Context {T : Type}.
Variable pow : Q -> Q -> Q.
Hypothesis pow_pos : forall x a, (0 < x)%Q -> (0 < pow x a)%Q.
Implicit Types b : PrioritizedReplayBuffer.t T.

Lemma masses_ok_insert b b' idx p :
  buffer_wf b -> masses_ok b ->
  SegmentTree._capacity (PrioritizedReplayBuffer._it_sum b')
    = SegmentTree._capacity (PrioritizedReplayBuffer._it_sum b) ->
  leaves (PrioritizedReplayBuffer._it_sum b')
    = <[Z.to_nat idx := p]> (leaves (PrioritizedReplayBuffer._it_sum b)) ->
  leaves (PrioritizedReplayBuffer._it_min b')
    = <[Z.to_nat idx := Fin p]> (leaves (PrioritizedReplayBuffer._it_min b)) ->
  (0 < p)%Q ->
  0 <= idx < PrioritizedReplayBuffer.__len__ b' ->
  idx < SegmentTree._capacity (PrioritizedReplayBuffer._it_sum b) ->
  (forall j : nat, j <> Z.to_nat idx ->
     Z.of_nat j < PrioritizedReplayBuffer.__len__ b' <->
     Z.of_nat j < PrioritizedReplayBuffer.__len__ b) ->
  masses_ok b'.
Proof.
  intros Hwf Hm Hcap Hls Hlm Hp Hidx Hidxc Hlen j Hj.
  destruct (built_valid Qplus 0%Q _ eq_refl (wf_sum b Hwf)) as (Hs & _).
  destruct (built_valid py_min PInf _ py_min_PInf (wf_min b Hwf)) as (Hmn & _).
  pose proof (leaves_length _ Hs) as Hl1. pose proof (leaves_length _ Hmn) as Hl2.
  pose proof (wf_same_capacity b Hwf) as Hsame.
  rewrite Hls, Hlm. destruct (decide (j = Z.to_nat idx)) as [->|Hne].
  - rewrite decide_True by lia. exists p.
    rewrite !list_lookup_insert_eq by lia. done.
  - rewrite !list_lookup_insert_ne by done. rewrite Hcap in Hj.
    specialize (Hm j Hj). specialize (Hlen j Hne).
    destruct (decide (Z.of_nat j < PrioritizedReplayBuffer.__len__ b)),
             (decide (Z.of_nat j < PrioritizedReplayBuffer.__len__ b')); (done || tauto).
Qed.

Lemma py_max_pos a p : (0 < a)%Q -> (0 < py_max a p)%Q.
Proof.
  intros Ha. unfold py_max. destruct (Qlt_bool a p) eqn:E; [|done].
  apply Qlt_bool_iff in E. lra.
Qed.

Lemma add_masses b data b' :
  buffer_wf b -> masses_ok b -> (0 < PrioritizedReplayBuffer._max_priority b)%Q ->
  PrioritizedReplayBuffer.add pow data b = (b', Ok tt) ->
  masses_ok b' /\ (0 < PrioritizedReplayBuffer._max_priority b')%Q.
Proof.
  intros Hwf Hm Hmp Hadd.
  destruct (add_ok pow b data Hwf)
    as (b2 & Hrun & Hwf2 & Hmp2 & _ & _ & _ & Hlen & Hls & Hlm).
  rewrite Hadd in Hrun. injection Hrun as <-.
  split; [|by rewrite Hmp2].
  pose proof (wf_cursor b Hwf) as Hcur. pose proof (wf_capacity b Hwf) as Hcap.
  pose proof (wf_filling b Hwf) as Hfill. pose proof (wf_len b Hwf) as Hle.
  destruct (built_valid Qplus 0%Q _ eq_refl (wf_sum b Hwf)) as (Hs & _).
  destruct (built_valid Qplus 0%Q _ eq_refl (wf_sum b' Hwf2)) as (Hs' & _).
  pose proof (leaves_length _ Hs) as Hl1. pose proof (leaves_length _ Hs') as Hl1'.
  rewrite Hls, length_insert in Hl1'.
  apply (masses_ok_insert b b' (next_idx b)
           (pow (PrioritizedReplayBuffer._max_priority b) (PrioritizedReplayBuffer._alpha b))
           Hwf Hm); try done; try lia.
  - by apply pow_pos.
  - rewrite Hlen. destruct (Z.eqb_spec (next_idx b) (PrioritizedReplayBuffer.__len__ b)); lia.
  - intros j Hj. rewrite Hlen.
    destruct (Z.eqb_spec (next_idx b) (PrioritizedReplayBuffer.__len__ b)); lia.
Qed.

Lemma update_loop_masses pairs : forall b b',
  buffer_wf b -> masses_ok b -> (0 < PrioritizedReplayBuffer._max_priority b)%Q ->
  PrioritizedReplayBuffer.update_loop pow (valid_prefix b pairs) b = (b', Ok tt) ->
  masses_ok b' /\ (0 < PrioritizedReplayBuffer._max_priority b')%Q.
Proof.
  induction pairs as [|[idx p] pairs IH]; intros b b' Hwf Hm Hmp.
  - simpl. intros [= <-]. done.
  - cbn [valid_prefix]. destruct (valid_pair b (idx, p)) eqn:Hv.
    + destruct (update_loop_valid pow b idx p Hwf Hv)
        as (b1 & Hrun & Hwf1 & Hbase & Halpha & _ & Hmp1 & Hls & Hlm).
      rewrite Hrun, <- (valid_prefix_same_len b b1) by done.
      assert (Hlen : PrioritizedReplayBuffer.__len__ b1 = PrioritizedReplayBuffer.__len__ b)
        by (unfold PrioritizedReplayBuffer.__len__; by rewrite Hbase).
      unfold valid_pair in Hv. simpl in Hv.
      apply andb_true_iff in Hv as [Hp Hidx]. apply Qlt_bool_iff in Hp.
      apply andb_true_iff in Hidx as [H1 H2].
      apply Z.leb_le in H1. apply Z.ltb_lt in H2.
      pose proof (wf_len b Hwf). pose proof (wf_capacity b Hwf).
      destruct (built_valid Qplus 0%Q _ eq_refl (wf_sum b Hwf)) as (Hs & _).
      destruct (built_valid Qplus 0%Q _ eq_refl (wf_sum b1 Hwf1)) as (Hs1 & _).
      pose proof (leaves_length _ Hs) as Hl. pose proof (leaves_length _ Hs1) as Hl1.
      rewrite Hls, length_insert in Hl1.
      apply IH; [done| |].
      * apply (masses_ok_insert b b1 idx (pow p (PrioritizedReplayBuffer._alpha b))
                 Hwf Hm); try done; try lia; try (intros j _; by rewrite Hlen).
        by apply pow_pos.
      * rewrite Hmp1. by apply py_max_pos.
    + simpl. intros [= <-]. done.
Qed.

Lemma reachable_masses b h :
  reachable pow b h ->
  masses_ok b /\ (0 < PrioritizedReplayBuffer._max_priority b)%Q.
Proof.
  induction 1 as [size alpha beta b Hsize Hinit
                 |b h data b' r Hb [Hm Hmp] Hadd
                 |b h idxes priorities b' r Hb [Hm Hmp] Hupd].
  - destruct (init_wf size alpha beta b Hsize Hinit) as [Hwf ->]. split; [|done].
    revert Hinit. unfold PrioritizedReplayBuffer.__init__.
    destruct (Qle_bool 0 alpha); [|discriminate].
    destruct (PrioritizedReplayBuffer.it_capacity_loop _ 1 size) as [c| |]; try discriminate.
    simpl.
    destruct (SumSegmentTree.__init__ c) as [s| |] eqn:Hs; try discriminate. simpl.
    destruct (MinSegmentTree.__init__ c) as [m| |] eqn:Hmn; try discriminate. simpl.
    intros [= <-].
    destruct (init_ok c Qplus 0%Q s eq_refl Hs) as (_ & _ & Hcs & _ & _ & Hls).
    destruct (init_ok c py_min PInf m py_min_PInf Hmn) as (_ & _ & Hcm & _ & _ & Hlm).
    intros j Hj. simpl in *. unfold PrioritizedReplayBuffer.__len__, ReplayBuffer.__len__.
    simpl. rewrite decide_False by lia. rewrite Hls, Hlm.
    rewrite !lookup_replicate_2 by lia. done.
  - pose proof (reachable_wf pow b h Hb) as [Hwf _].
    destruct (add_ok pow b data Hwf) as (b2 & Hrun & _).
    rewrite Hadd in Hrun. injection Hrun as -> ->.
    by apply (add_masses b data).
  - pose proof (reachable_wf pow b h Hb) as [Hwf _].
    destruct (update_priorities_spec pow b idxes priorities Hwf)
      as (b2 & r2 & Hrun & Hok & _).
    rewrite Hupd in Hrun. injection Hrun as -> ->.
    unfold applied in Hok.
    destruct (length idxes =? length priorities)%nat.
    + by apply (update_loop_masses (zip idxes priorities) b).
    + simpl in Hok. injection Hok as <-. done.
Qed.

End Masses.

(** ** Sampling *)


Section Weights.
Variable pow : Q -> Q -> Q.
Hypothesis pow_pos : forall x a, (0 < x)%Q -> (0 < pow x a)%Q.
Hypothesis pow_antitone :
  forall x y a, (a <= 0)%Q -> (0 < x)%Q -> (x <= y)%Q -> (pow y a <= pow x a)%Q.


End Weights.

Section SumMasses.
Context {T : Type}.
Variable b : PrioritizedReplayBuffer.t T.
Hypothesis b_wf : buffer_wf b.
Hypothesis b_masses : masses_ok b.

Abbreviation sumt := (PrioritizedReplayBuffer._it_sum b).
Abbreviation mint := (PrioritizedReplayBuffer._it_min b).
Abbreviation len := (PrioritizedReplayBuffer.__len__ b).







End SumMasses.

Section SampleFacts.
Context {T : Type}.
Variable b : PrioritizedReplayBuffer.t T.
Hypothesis b_wf : buffer_wf b.
Hypothesis b_masses : masses_ok b.


End SampleFacts.

(** ** Exponentiation at integral exponents *)


Lemma ipow_pos x a : (0 < x)%Q -> (0 < ipow x a)%Q.
Proof. intros Hx. unfold ipow. by apply Qpower_0_lt. Qed.





(** * Further properties of the segment trees *)

Lemma py_index_below len i : i < - Z.of_nat len -> py_index len i = None.
Proof.
  intros H. unfold py_index.
  destruct (Z.leb_spec 0 i); [lia|]. simpl.
  destruct (Z.leb_spec (- Z.of_nat len) i); [lia|]. done.
Qed.

Lemma getitem_in_range {A : Type} (s : SegmentTree.t A) i :
  wf s -> 0 <= i < SegmentTree._capacity s ->
  exists x, leaves s !! Z.to_nat i = Some x /\ SegmentTree.__getitem__ s i = Ok x.
Proof.
  intros Hwf Hi. pose proof (leaves_length s Hwf) as Hl.
  destruct (lookup_lt_is_Some_2 (leaves s) (Z.to_nat i)) as [x Hx]; [lia|].
  exists x. split; [done|]. by apply getitem_leaves.
Qed.

(** X1. On a tree a program can hold, [t[i] = v] with [i] in
    [[0, capacity)] succeeds, [t[i]] then returns [v], and every other
    [t[j]] returns what it returned before. *)
Theorem setitem_getitem_roundtrip {A : Type} (op : A -> A -> A) (e : A)
    (s : SegmentTree.t A) (i : Z) (v : A) :
  neutral op e -> built op e s ->
  0 <= i < SegmentTree._capacity s ->
  exists s',
    SegmentTree.__setitem__ i v s = (s', Ok tt) /\
    SegmentTree.__getitem__ s' i = Ok v /\
    forall j, 0 <= j < SegmentTree._capacity s -> j <> i ->
      SegmentTree.__getitem__ s' j = SegmentTree.__getitem__ s j.
Proof.
  intros Hne Hb Hi.
  destruct (built_valid op e s (proj1 (Hne e)) Hb) as (Hwf & Hcons & _).
  destruct (setitem_ok s i v Hwf Hcons Hi) as (s' & Hrun & Hwf' & Hcap & _ & _ & Hl).
  pose proof (leaves_length s Hwf) as Hlen.
  exists s'. split; [done|]. split.
  - apply getitem_leaves; [done|lia|]. rewrite Hl. apply list_lookup_insert_eq. lia.
  - intros j Hj Hne'.
    destruct (getitem_in_range s j Hwf Hj) as (x & Hx & ->).
    apply getitem_leaves; [done|lia|]. rewrite Hl, list_lookup_insert_ne by lia. done.
Qed.

Lemma setitem_getitem_roundtrip_witness :
  exists s',
    SegmentTree.__setitem__ 2 (7 # 2)%Q sum_tree4 = (s', Ok tt) /\
    SegmentTree.__getitem__ s' 2 = Ok (7 # 2)%Q /\
    forall j, 0 <= j < SegmentTree._capacity sum_tree4 -> j <> 2 ->
      SegmentTree.__getitem__ s' j = SegmentTree.__getitem__ sum_tree4 j.
Proof.
  apply (setitem_getitem_roundtrip Qplus 0%Q sum_tree4 2 (7 # 2)%Q).
  - exact Qplus_neutral.
  - exact sum_tree4_built.
  - vm_compute. split; discriminate || reflexivity.
Defined.

(** X2. On a tree a program can hold, [t[i] = v] with [i >= capacity] or
    [i < -3 * capacity] raises [IndexError] and leaves the tree as it
    was. *)
Theorem setitem_far_index_raises {A : Type} (op : A -> A -> A) (e : A)
    (s : SegmentTree.t A) (i : Z) (v : A) :
  neutral op e -> built op e s ->
  SegmentTree._capacity s <= i \/ i < - 3 * SegmentTree._capacity s ->
  SegmentTree.__setitem__ i v s = (s, Raise IndexError).
Proof.
  intros Hne Hb Hi.
  destruct (built_valid op e s (proj1 (Hne e)) Hb) as (Hwf & _).
  destruct Hi as [Hi|Hi]; [by apply setitem_above|].
  destruct Hwf as [Hc Hlen].
  unfold SegmentTree.__setitem__, bind, gets, SegmentTree.write_value, list_setitem.
  rewrite py_index_below by lia. done.
Qed.

Lemma setitem_far_index_raises_witness :
  SegmentTree.__setitem__ 4 1%Q sum_tree4 = (sum_tree4, Raise IndexError).
Proof.
  apply (setitem_far_index_raises Qplus 0%Q sum_tree4 4 1%Q).
  - exact Qplus_neutral.
  - exact sum_tree4_built.
  - left. vm_compute. discriminate.
Defined.

(** X3. [SegmentTree(capacity, operation, neutral_element)] is constructed
    exactly when [capacity] is a power of two, [2 ^ n] with [n >= 0]; the
    tree then has [2 * capacity] entries, all of them the neutral element.
    For any other capacity the constructor raises [AssertionError]. *)
Theorem init_accepts_powers_of_two {A : Type} (op : A -> A -> A) (e : A) (c : Z) :
  ((exists n : nat, c = 2 ^ Z.of_nat n) ->
   SegmentTree.__init__ c op e
     = Ok (SegmentTree.mk c (replicate (Z.to_nat (2 * c)) e) op)) /\
  ((forall n : nat, c <> 2 ^ Z.of_nat n) ->
   SegmentTree.__init__ c op e = Raise AssertionError).
Proof.
  split.
  - intros [n ->]. destruct (tree_init_pow2 n op e) as [s Hs].
    rewrite Hs. revert Hs. unfold SegmentTree.__init__.
    destruct (_ && _); [|discriminate]. by intros [= <-].
  - intros Hnot. unfold SegmentTree.__init__.
    destruct (Z.ltb_spec 0 c); [|done].
    destruct (Z.eqb_spec (Z.land c (c - 1)) 0) as [Hland|]; [|done].
    destruct (land_pred_pow2 c H Hland) as [n Hn]. by destruct (Hnot n).
Qed.

(** X4. On any tree of positive capacity, [reduce(start, start)] with
    [start >= 0], a query for an empty range, raises [RecursionError]
    whatever the recursion limit. *)
Theorem reduce_empty_range_raises {A : Type} (s : SegmentTree.t A)
    (depth : nat) (start : Z) :
  0 < SegmentTree._capacity s -> 0 <= start ->
  SegmentTree.reduce depth s start (Some start) = Raise RecursionError.
Proof. apply reduce_empty_range. Qed.

Lemma reduce_empty_range_raises_witness :
  SegmentTree.reduce 1000 sum_tree4 3 (Some 3) = Raise RecursionError.
Proof.
  apply (reduce_empty_range_raises sum_tree4 1000 3).
  - vm_compute. reflexivity.
  - lia.
Defined.





(** X6. On a min tree a program can hold, [t.min(start, end)] over a
    non-empty range [0 <= start < end <= capacity] returns a value that is
    at most every [t[j]] with [start <= j < end] and is one of them. *)
Theorem min_is_least_leaf (s : SegmentTree.t ext) (depth : nat) (start end_ : Z) :
  built py_min PInf s ->
  0 <= start < end_ -> end_ <= SegmentTree._capacity s ->
  Z.log2 (SegmentTree._capacity s) < Z.of_nat depth ->
  exists r,
    MinSegmentTree.min depth s start (Some end_) = Ok r /\
    (forall j x, start <= j < end_ -> SegmentTree.__getitem__ s j = Ok x -> ext_le r x) /\
    (exists j, start <= j < end_ /\ SegmentTree.__getitem__ s j = Ok r).
Proof.
  intros Hb Hse He Hd.
  destruct (built_valid py_min PInf s py_min_PInf Hb) as (Hwf & Hcons & Hop & Hpow).
  pose proof (leaves_length s Hwf) as Hlen.
  exists (fold_range py_min PInf s start end_).
  split.
  { by apply (reduce_ok py_min PInf py_min_associative py_min_neutral). }
  set (l := take (Z.to_nat (end_ - start)) (drop (Z.to_nat start) (leaves s))).
  assert (Hin : forall j x, start <= j < end_ ->
            SegmentTree.__getitem__ s j = Ok x -> x ∈ l).
  { intros j x Hj Hx.
    destruct (getitem_in_range s j Hwf ltac:(lia)) as (y & Hy & Hget).
    rewrite Hget in Hx. injection Hx as ->.
    apply (list_elem_of_lookup_2 l (Z.to_nat (j - start))).
    unfold l. rewrite lookup_take_lt, lookup_drop by lia.
    rewrite <- Hy. f_equal. lia. }
  assert (Hout : forall x, x ∈ l ->
            exists j, start <= j < end_ /\ SegmentTree.__getitem__ s j = Ok x).
  { intros x Hx. apply list_elem_of_lookup_1 in Hx as [k Hk].
    pose proof (lookup_lt_Some _ _ _ Hk) as Hkl.
    unfold l in Hk, Hkl. rewrite length_take in Hkl.
    rewrite lookup_take_lt, lookup_drop in Hk by lia.
    exists (start + Z.of_nat k). split; [lia|].
    apply getitem_leaves; [done|lia|]. rewrite <- Hk. f_equal. lia. }
  destruct (fold_py_min l PInf) as (_ & Hlow & Hatt). fold l in Hlow, Hatt.
  unfold fold_range. fold l. split.
  - intros j x Hj Hx. apply Hlow. by apply (Hin j).
  - destruct Hatt as [Hinf|Hmem]; [|by apply Hout].
    destruct (getitem_in_range s start Hwf ltac:(lia)) as (y & _ & Hget).
    exists start. split; [lia|]. rewrite Hinf, Hget. f_equal.
    pose proof (Hlow y (Hin start y ltac:(lia) Hget)) as Hle.
    rewrite Hinf in Hle. by destruct y.
Qed.

Lemma min_is_least_leaf_witness :
  exists r,
    MinSegmentTree.min 1000 (PrioritizedReplayBuffer._it_min buffer2) 0 (Some 2) = Ok r /\
    (forall j x, 0 <= j < 2 ->
       SegmentTree.__getitem__ (PrioritizedReplayBuffer._it_min buffer2) j = Ok x ->
       ext_le r x) /\
    (exists j, 0 <= j < 2 /\
       SegmentTree.__getitem__ (PrioritizedReplayBuffer._it_min buffer2) j = Ok r).
Proof.
  apply (min_is_least_leaf (PrioritizedReplayBuffer._it_min buffer2) 1000 0 2).
  - apply (wf_min buffer2). apply (reachable_wf ipow buffer2 []). exact buffer2_reachable.
  - lia.
  - vm_compute. discriminate.
  - vm_compute. reflexivity.
Defined.








(** * Further properties of the plain replay buffer *)

Section Ring.
Context {T : Type}.
Variable m : Z.
Hypothesis m_pos : 0 < m.

Lemma mod_differs (k n : Z) : 0 < n - k < m -> k mod m <> n mod m.
Proof.
  intros Hkn E.
  assert (H : (n - k) mod m = 0) by (rewrite Zminus_mod, E, Z.sub_diag; by apply Z.mod_0_l; lia).
  rewrite Z.mod_small in H by lia. lia.
Qed.

Lemma ring_add (hist : list T) (b : ReplayBuffer.t T) (d : T) :
  ring_of m hist b ->
  exists b', ReplayBuffer.add d b = (b', Ok tt) /\ ring_of m (hist ++ [d]) b'.
Proof.
  destruct b as [st mx nx]. unfold ring_of, ReplayBuffer.__len__. simpl.
  intros (-> & Hlen & -> & Hst).
  unfold ReplayBuffer.add, ReplayBuffer.__len__. simpl.
  destruct (Z.eqb_spec m 0) as [|_]; [lia|].
  set (n := Z.of_nat (length hist)) in *.
  pose proof (Z.mod_pos_bound n m m_pos) as Hmod.
  assert (Hn1 : Z.of_nat (length (hist ++ [d])) = n + 1).
  { rewrite length_app. simpl. lia. }
  destruct (Z.geb_spec (n mod m) (Z.of_nat (length st))) as [Hge|Hlt].
  - assert (Hnm : n < m) by lia.
    rewrite Z.mod_small in Hge by lia.
    eexists. split; [reflexivity|]. simpl. rewrite Hn1, length_app. simpl.
    split; [done|]. split; [lia|]. split; [apply Zplus_mod_idemp_l|].
    intros k x Hk Hkn.
    assert (Hkle : Z.of_nat k <= n).
    { apply lookup_lt_Some in Hk. lia. }
    rewrite Z.mod_small by lia.
    destruct (decide (Z.of_nat k = n)) as [Hkeq|Hkne].
    + rewrite lookup_app_r in Hk by lia.
      rewrite lookup_app_r by lia.
      replace (Z.to_nat (Z.of_nat k) - length st)%nat with 0%nat by lia.
      replace (k - length hist)%nat with 0%nat in Hk by lia. done.
    + rewrite lookup_app_l in Hk by lia. rewrite lookup_app_l by lia.
      rewrite <- (Z.mod_small (Z.of_nat k) m) by lia. apply Hst; [done|lia].
  - assert (Hnm : m <= n) by (destruct (Z_lt_le_dec n m); [rewrite Z.mod_small in Hlt; lia|done]).
    rewrite list_setitem_insert by lia.
    eexists. split; [reflexivity|]. simpl. rewrite Hn1, length_insert.
    split; [done|]. split; [lia|]. split; [apply Zplus_mod_idemp_l|].
    intros k x Hk Hkn.
    assert (Hkle : Z.of_nat k <= n).
    { apply lookup_lt_Some in Hk. lia. }
    destruct (decide (Z.of_nat k = n)) as [Hkeq|Hkne].
    + rewrite lookup_app_r in Hk by lia.
      replace (k - length hist)%nat with 0%nat in Hk by lia. injection Hk as <-.
      rewrite Hkeq. apply list_lookup_insert_eq. lia.
    + rewrite lookup_app_l in Hk by lia.
      pose proof (mod_differs (Z.of_nat k) n ltac:(lia)) as Hne.
      pose proof (Z.mod_pos_bound (Z.of_nat k) m m_pos).
      rewrite list_lookup_insert_ne by lia. apply Hst; [done|lia].
Qed.

Lemma ring_adds (ds : list T) : forall (hist : list T) (b : ReplayBuffer.t T),
  ring_of m hist b ->
  exists b', adds ds b = (b', Ok tt) /\ ring_of m (hist ++ ds) b'.
Proof.
  induction ds as [|d ds IH]; intros hist b Hb.
  - exists b. by rewrite app_nil_r.
  - destruct (ring_add hist b d Hb) as (b1 & Hadd & Hb1).
    destruct (IH (hist ++ [d]) b1 Hb1) as (b' & Hrun & Hb').
    exists b'. rewrite <- app_assoc in Hb'. split; [|done].
    cbn [adds]. unfold bind. by rewrite Hadd.
Qed.

End Ring.

(** X10. A [ReplayBuffer(size)] with [size > 0] that is given the items
    [ds] one after the other keeps the last [size] of them: every [add]
    succeeds, [len(buffer)] is [min(len(ds), size)], the cursor is at
    [len(ds) % size], and the [k]-th item added, when it is one of the last
    [size], is stored at slot [k % size]. *)
Theorem replay_buffer_keeps_last_items {T : Type} (size : Z) (ds : list T) :
  0 < size ->
  exists b,
    adds ds (ReplayBuffer.__init__ size) = (b, Ok tt) /\
    ReplayBuffer.__len__ b = Z.min (Z.of_nat (length ds)) size /\
    ReplayBuffer._next_idx b = Z.of_nat (length ds) mod size /\
    forall (k : nat) d, ds !! k = Some d ->
      Z.of_nat (length ds) - size <= Z.of_nat k ->
      list_getitem (ReplayBuffer._storage b) (Z.of_nat k mod size) = Ok d.
Proof.
  intros Hsize.
  destruct (ring_adds size Hsize ds [] (ReplayBuffer.__init__ size))
    as (b & Hrun & _ & Hlen & Hnext & Hst).
  { unfold ring_of, ReplayBuffer.__len__. simpl.
    split; [done|]. split; [lia|]. split; [by rewrite Z.mod_0_l by lia|]. done. }
  simpl in *. exists b. split; [done|]. split; [done|]. split; [done|].
  intros k d Hk Hkn. pose proof (Z.mod_pos_bound (Z.of_nat k) size Hsize).
  apply list_getitem_lookup; [lia|]. by apply Hst.
Qed.

Lemma replay_buffer_keeps_last_items_witness :
  exists b,
    adds [10; 11; 12]%nat (ReplayBuffer.__init__ 2) = (b, Ok tt) /\
    ReplayBuffer.__len__ b = Z.min (Z.of_nat (length [10; 11; 12]%nat)) 2 /\
    ReplayBuffer._next_idx b = Z.of_nat (length [10; 11; 12]%nat) mod 2 /\
    forall (k : nat) d, [10; 11; 12]%nat !! k = Some d ->
      Z.of_nat (length [10; 11; 12]%nat) - 2 <= Z.of_nat k ->
      list_getitem (ReplayBuffer._storage b) (Z.of_nat k mod 2) = Ok d.
Proof.
  apply (replay_buffer_keeps_last_items 2 [10; 11; 12]%nat). lia.
Defined.

Lemma rmap_map {X Y : Type} (f : X -> result Y) (g : X -> Y) (l : list X) :
  Forall (fun x => f x = Ok (g x)) l -> rmap f l = Ok (map g l).
Proof.
  induction 1 as [|x l Hx _ IH]; simpl; [done|]. by rewrite Hx, IH.
Qed.


Lemma rmap_getitem {X : Type} (st : list X) (idxes : list Z) :
  Forall (fun i => 0 <= i < Z.of_nat (length st)) idxes ->
  exists rows,
    rmap (list_getitem st) idxes = Ok rows /\
    Forall2 (fun i x => st !! Z.to_nat i = Some x) idxes rows.
Proof.
  induction 1 as [|i idxes Hi _ (rows & Hrows & Hall)]; simpl.
  - by exists [].
  - destruct (lookup_lt_is_Some_2 st (Z.to_nat i)) as [x Hx]; [lia|].
    exists (x :: rows). rewrite (list_getitem_lookup st i x), Hrows by (lia || done).
    split; [done|]. by constructor.
Qed.

Lemma range_length n : length (ReplayBuffer.range n) = Z.to_nat n.
Proof. unfold ReplayBuffer.range. by rewrite length_map, length_seq. Qed.

Lemma range_lookup n (i : nat) :
  Z.of_nat i < n -> ReplayBuffer.range n !! i = Some (Z.of_nat i).
Proof.
  intros Hi. unfold ReplayBuffer.range.
  rewrite list_lookup_fmap, lookup_seq_lt by lia. done.
Qed.

Lemma choice_range (randbelow : nat -> Z -> Z) (k : nat) (n : Z) :
  0 <= randbelow k n < n ->
  ReplayBuffer.choice randbelow k (ReplayBuffer.range n) = Ok (randbelow k n).
Proof.
  intros Hr. unfold ReplayBuffer.choice. rewrite range_length.
  destruct (Nat.eqb_spec (Z.to_nat n) 0); [lia|].
  rewrite Z2Nat.id by lia.
  rewrite (list_getitem_lookup _ _ (randbelow k n)); [done|lia|].
  rewrite range_lookup by lia. f_equal. lia.
Qed.

(** X11. [ReplayBuffer.sample(batch_size)] on a buffer that holds at
    least one transition returns [batch_size] rows, each of them a stored
    transition, namely the one at the index drawn for it. *)
Theorem uniform_sample_returns_stored_rows {T : Type} (randbelow : nat -> Z -> Z)
    (b : ReplayBuffer.t T) (batch_size : Z) :
  1 <= ReplayBuffer.__len__ b ->
  (forall k, 0 <= randbelow k (ReplayBuffer.__len__ b) < ReplayBuffer.__len__ b) ->
  exists rows,
    ReplayBuffer.sample randbelow b batch_size = Ok rows /\
    Z.of_nat (length rows) = Z.max 0 batch_size /\
    forall (k : nat) x, rows !! k = Some x ->
      list_getitem (ReplayBuffer._storage b) (randbelow k (ReplayBuffer.__len__ b)) = Ok x.
Proof.
  intros Hlen Hr. unfold ReplayBuffer.sample.
  set (n := ReplayBuffer.__len__ b) in *.
  rewrite (rmap_map _ (fun k => randbelow k n)).
  2:{ apply Forall_forall. intros k _. by apply choice_range. }
  simpl. unfold ReplayBuffer._encode_sample.
  destruct (rmap_getitem (ReplayBuffer._storage b)
              (map (fun k => randbelow k n) (seq 0 (Z.to_nat batch_size))))
    as (rows & Hrows & Hall).
  { apply Forall_forall. intros i Hi. apply list_elem_of_fmap in Hi as (k & -> & _).
    apply Hr. }
  exists rows. split; [done|]. split.
  { apply Forall2_length in Hall. rewrite <- Hall, length_map, length_seq. lia. }
  intros k x Hk.
  destruct (Forall2_lookup_r _ _ _ _ _ Hall Hk) as (i & Hi & Hx).
  rewrite list_lookup_fmap in Hi.
  pose proof (lookup_lt_Some _ _ _ Hk) as Hkl.
  apply Forall2_length in Hall. rewrite length_map, length_seq in Hall.
  rewrite lookup_seq_lt in Hi by lia. simpl in Hi. injection Hi as <-.
  apply list_getitem_lookup; [apply Hr|done].
Qed.

Lemma uniform_sample_returns_stored_rows_witness :
  exists rows,
    ReplayBuffer.sample (fun k _ => Z.of_nat k mod 2) (PrioritizedReplayBuffer.base buffer2) 3
      = Ok rows /\
    Z.of_nat (length rows) = Z.max 0 3 /\
    forall (k : nat) x, rows !! k = Some x ->
      list_getitem (ReplayBuffer._storage (PrioritizedReplayBuffer.base buffer2))
        ((fun k _ => Z.of_nat k mod 2) k
           (ReplayBuffer.__len__ (PrioritizedReplayBuffer.base buffer2))) = Ok x.
Proof.
  apply (uniform_sample_returns_stored_rows (fun k _ => Z.of_nat k mod 2)
           (PrioritizedReplayBuffer.base buffer2) 3).
  - vm_compute. discriminate.
  - intros k. change (ReplayBuffer.__len__ (PrioritizedReplayBuffer.base buffer2)) with 2.
    apply Z.mod_pos_bound. lia.
Defined.

(** X12. [ReplayBuffer.sample(batch_size)] on an empty buffer raises
    [IndexError] as soon as one row is asked for, and returns an empty
    batch otherwise. *)
Theorem uniform_sample_empty_buffer {T : Type} (randbelow : nat -> Z -> Z)
    (b : ReplayBuffer.t T) (batch_size : Z) :
  ReplayBuffer.__len__ b = 0 ->
  ReplayBuffer.sample randbelow b batch_size
    = if 1 <=? batch_size then Raise IndexError else Ok [].
Proof.
  intros Hlen. unfold ReplayBuffer.sample. rewrite Hlen.
  destruct (Z.leb_spec 1 batch_size) as [Hb|Hb].
  - destruct (Z.to_nat batch_size) as [|n] eqn:Hn; [lia|]. done.
  - replace (Z.to_nat batch_size) with 0%nat by lia. done.
Qed.

Lemma uniform_sample_empty_buffer_witness :
  ReplayBuffer.sample (fun _ _ => 0) (ReplayBuffer.__init__ (T := nat) 2) 1
    = if 1 <=? 1 then Raise IndexError else Ok [].
Proof.
  apply (uniform_sample_empty_buffer (fun _ _ => 0) (ReplayBuffer.__init__ 2) 1).
  reflexivity.
Defined.

(** * Further properties of the prioritized buffer *)

Lemma tree_init_pow2_eq {A : Type} (k : nat) (op : A -> A -> A) (e : A) :
  SegmentTree.__init__ (2 ^ Z.of_nat k) op e
    = Ok (SegmentTree.mk (2 ^ Z.of_nat k)
            (replicate (Z.to_nat (2 * 2 ^ Z.of_nat k)) e) op).
Proof.
  destruct (tree_init_pow2 k op e) as [s Hs]. revert Hs.
  unfold SegmentTree.__init__. destruct (_ && _); [done|discriminate].
Qed.

Lemma it_capacity_loop_lt fuel : forall c0 size c,
  PrioritizedReplayBuffer.it_capacity_loop fuel c0 size = Ok c ->
  0 < c0 -> c0 < 2 * size -> c < 2 * size.
Proof.
  induction fuel as [|fuel IH]; intros c0 size c; simpl;
    destruct (Z.ltb_spec c0 size); try discriminate; try (intros [= <-]; lia).
  intros Hrun Hc0 _. apply (IH _ _ _ Hrun); lia.
Qed.

Lemma fold_py_max_ge (l : list Q) : forall a, (a <= fold_left py_max l a)%Q.
Proof.
  induction l as [|p l IH]; intros a; simpl; [lra|].
  specialize (IH (py_max a p)). unfold py_max in *.
  destruct (Qlt_bool a p) eqn:E; [|done]. apply Qlt_bool_iff in E. lra.
Qed.

(** X13. [PrioritizedReplayBuffer(size, alpha, beta)] with [size > 0]:
    for [alpha >= 0] it returns an empty buffer whose two trees have the
    capacity [2 ^ n] with [size <= 2 ^ n < 2 * size], the smallest power of
    two that holds [size] slots, filled with their neutral elements, and
    whose maximal priority is 1; for [alpha < 0] it raises
    [AssertionError]. *)
Theorem prioritized_init_spec {T : Type} (size : Z) (alpha beta : Q) :
  0 < size ->
  ((0 <= alpha)%Q ->
   exists (b : PrioritizedReplayBuffer.t T) (n : nat),
     PrioritizedReplayBuffer.__init__ size alpha beta = Ok b /\
     size <= 2 ^ Z.of_nat n < 2 * size /\
     PrioritizedReplayBuffer.base b = ReplayBuffer.mk [] size 0 /\
     PrioritizedReplayBuffer._it_sum b
       = SegmentTree.mk (2 ^ Z.of_nat n)
           (replicate (Z.to_nat (2 * 2 ^ Z.of_nat n)) 0%Q) Qplus /\
     PrioritizedReplayBuffer._it_min b
       = SegmentTree.mk (2 ^ Z.of_nat n)
           (replicate (Z.to_nat (2 * 2 ^ Z.of_nat n)) PInf) py_min /\
     PrioritizedReplayBuffer._max_priority b = 1%Q /\
     PrioritizedReplayBuffer._alpha b = alpha /\
     PrioritizedReplayBuffer.beta b = beta) /\
  ((alpha < 0)%Q ->
   PrioritizedReplayBuffer.__init__ (T := T) size alpha beta = Raise AssertionError).
Proof.
  intros Hsize. split.
  - intros Halpha. unfold PrioritizedReplayBuffer.__init__.
    rewrite (proj2 (Qle_bool_iff 0 alpha) Halpha).
    destruct (it_capacity_loop_ok (Z.to_nat size) 0 size) as [n Hn].
    { change (2 ^ Z.of_nat 0) with 1. rewrite Z2Nat.id by lia.
      pose proof (Z.pow_gt_lin_r 2 size). lia. }
    change (2 ^ Z.of_nat 0) with 1 in Hn. rewrite Hn. simpl.
    pose proof (it_capacity_loop_ge _ _ _ _ Hn).
    pose proof (it_capacity_loop_lt _ _ _ _ Hn).
    unfold SumSegmentTree.__init__, MinSegmentTree.__init__.
    rewrite !tree_init_pow2_eq. simpl.
    eexists _, n. split; [reflexivity|]. simpl. split; [lia|]. done.
  - intros Halpha. unfold PrioritizedReplayBuffer.__init__.
    destruct (Qle_bool 0 alpha) eqn:E; [|done]. apply Qle_bool_iff in E. lra.
Qed.

Lemma prioritized_init_spec_witness :
  ((0 <= 1)%Q ->
   exists (b : PrioritizedReplayBuffer.t nat) (n : nat),
     PrioritizedReplayBuffer.__init__ 5 1%Q 1%Q = Ok b /\
     5 <= 2 ^ Z.of_nat n < 2 * 5 /\
     PrioritizedReplayBuffer.base b = ReplayBuffer.mk [] 5 0 /\
     PrioritizedReplayBuffer._it_sum b
       = SegmentTree.mk (2 ^ Z.of_nat n)
           (replicate (Z.to_nat (2 * 2 ^ Z.of_nat n)) 0%Q) Qplus /\
     PrioritizedReplayBuffer._it_min b
       = SegmentTree.mk (2 ^ Z.of_nat n)
           (replicate (Z.to_nat (2 * 2 ^ Z.of_nat n)) PInf) py_min /\
     PrioritizedReplayBuffer._max_priority b = 1%Q /\
     PrioritizedReplayBuffer._alpha b = 1%Q /\
     PrioritizedReplayBuffer.beta b = 1%Q) /\
  ((1 < 0)%Q ->
   PrioritizedReplayBuffer.__init__ (T := nat) 5 1%Q 1%Q = Raise AssertionError).
Proof.
  apply (prioritized_init_spec 5 1%Q 1%Q). lia.
Defined.

(** X14. A [PrioritizedReplayBuffer] of size 0 is constructed without
    complaint, but its first [add] raises [ZeroDivisionError] after the
    transition has been stored and before either tree is written: the
    buffer then holds a transition that has no priority. *)
Theorem add_to_buffer_of_size_zero {T : Type} (pow : Q -> Q -> Q)
    (alpha beta : Q) (data : T) :
  (0 <= alpha)%Q ->
  exists b b',
    PrioritizedReplayBuffer.__init__ 0 alpha beta = Ok b /\
    PrioritizedReplayBuffer.add pow data b = (b', Raise ZeroDivisionError) /\
    storage b' = [data] /\
    PrioritizedReplayBuffer._it_sum b' = PrioritizedReplayBuffer._it_sum b /\
    PrioritizedReplayBuffer._it_min b' = PrioritizedReplayBuffer._it_min b /\
    SegmentTree.__getitem__ (PrioritizedReplayBuffer._it_sum b') 0 = Ok 0%Q.
Proof.
  intros Halpha. unfold PrioritizedReplayBuffer.__init__.
  rewrite (proj2 (Qle_bool_iff 0 alpha) Halpha). simpl.
  eexists _, _. split; [reflexivity|]. split; [reflexivity|]. done.
Qed.

Lemma add_to_buffer_of_size_zero_witness :
  exists b b',
    PrioritizedReplayBuffer.__init__ 0 1%Q 1%Q = Ok b /\
    PrioritizedReplayBuffer.add ipow 10%nat b = (b', Raise ZeroDivisionError) /\
    storage b' = [10%nat] /\
    PrioritizedReplayBuffer._it_sum b' = PrioritizedReplayBuffer._it_sum b /\
    PrioritizedReplayBuffer._it_min b' = PrioritizedReplayBuffer._it_min b /\
    SegmentTree.__getitem__ (PrioritizedReplayBuffer._it_sum b') 0 = Ok 0%Q.
Proof.
  apply (add_to_buffer_of_size_zero ipow 1%Q 1%Q 10%nat). vm_compute. discriminate.
Defined.

(** X15. In every state a program can bring a prioritized buffer of
    positive size to, the buffer holds at most [size] transitions, the
    cursor is a slot of the buffer and equals [len(buffer)] while the
    buffer fills, both trees have the same capacity, a power of two with
    room for every slot, and the maximal priority is at least 1. *)
Theorem reachable_buffer_shape {T : Type} (pow : Q -> Q -> Q)
    (b : PrioritizedReplayBuffer.t T) (h : list Q) :
  reachable pow b h ->
  0 <= PrioritizedReplayBuffer.__len__ b <= maxsize b /\
  0 <= next_idx b < maxsize b /\
  (PrioritizedReplayBuffer.__len__ b < maxsize b ->
   next_idx b = PrioritizedReplayBuffer.__len__ b) /\
  (exists n : nat,
     SegmentTree._capacity (PrioritizedReplayBuffer._it_sum b) = 2 ^ Z.of_nat n) /\
  SegmentTree._capacity (PrioritizedReplayBuffer._it_min b)
    = SegmentTree._capacity (PrioritizedReplayBuffer._it_sum b) /\
  maxsize b <= SegmentTree._capacity (PrioritizedReplayBuffer._it_sum b) /\
  (1 <= PrioritizedReplayBuffer._max_priority b)%Q.
Proof.
  intros Hr. destruct (reachable_wf pow b h Hr) as [Hwf Hmp].
  destruct (sum_tree_valid _ (wf_sum b Hwf)) as (_ & _ & _ & Hpow).
  split.
  { split; [unfold PrioritizedReplayBuffer.__len__, ReplayBuffer.__len__; lia|].
    apply (wf_len b Hwf). }
  split; [apply (wf_cursor b Hwf)|]. split; [apply (wf_filling b Hwf)|].
  split; [done|]. split; [apply (wf_same_capacity b Hwf)|].
  split; [apply (wf_capacity b Hwf)|].
  rewrite Hmp. apply fold_py_max_ge.
Qed.

Lemma reachable_buffer_shape_witness :
  0 <= PrioritizedReplayBuffer.__len__ buffer2 <= maxsize buffer2 /\
  0 <= next_idx buffer2 < maxsize buffer2 /\
  (PrioritizedReplayBuffer.__len__ buffer2 < maxsize buffer2 ->
   next_idx buffer2 = PrioritizedReplayBuffer.__len__ buffer2) /\
  (exists n : nat,
     SegmentTree._capacity (PrioritizedReplayBuffer._it_sum buffer2) = 2 ^ Z.of_nat n) /\
  SegmentTree._capacity (PrioritizedReplayBuffer._it_min buffer2)
    = SegmentTree._capacity (PrioritizedReplayBuffer._it_sum buffer2) /\
  maxsize buffer2 <= SegmentTree._capacity (PrioritizedReplayBuffer._it_sum buffer2) /\
  (1 <= PrioritizedReplayBuffer._max_priority buffer2)%Q.
Proof.
  apply (reachable_buffer_shape ipow buffer2 []). exact buffer2_reachable.
Defined.

(** X16. In every state a program can bring a prioritized buffer of
    positive size to (powers of positive numbers being positive), the two
    trees agree: a slot that holds a transition has the same strictly
    positive mass in both, and every other slot holds [0.0] in the sum tree
    and [inf] in the min tree. *)
Theorem trees_agree_on_every_slot {T : Type} (pow : Q -> Q -> Q)
    (b : PrioritizedReplayBuffer.t T) (h : list Q) (j : Z) :
  (forall x a, (0 < x)%Q -> (0 < pow x a)%Q) ->
  reachable pow b h ->
  0 <= j < SegmentTree._capacity (PrioritizedReplayBuffer._it_sum b) ->
  (j < PrioritizedReplayBuffer.__len__ b ->
   exists m,
     SegmentTree.__getitem__ (PrioritizedReplayBuffer._it_sum b) j = Ok m /\
     SegmentTree.__getitem__ (PrioritizedReplayBuffer._it_min b) j = Ok (Fin m) /\
     (0 < m)%Q) /\
  (PrioritizedReplayBuffer.__len__ b <= j ->
   SegmentTree.__getitem__ (PrioritizedReplayBuffer._it_sum b) j = Ok 0%Q /\
   SegmentTree.__getitem__ (PrioritizedReplayBuffer._it_min b) j = Ok PInf).
Proof.
  intros Hpow Hr Hj. destruct (reachable_wf pow b h Hr) as [Hwf _].
  destruct (reachable_masses pow Hpow b h Hr) as [Hm _].
  destruct (sum_tree_valid _ (wf_sum b Hwf)) as (Hwfs & _).
  destruct (built_valid py_min PInf _ py_min_PInf (wf_min b Hwf)) as (Hwfm & _).
  pose proof (wf_same_capacity b Hwf) as Hsame.
  specialize (Hm (Z.to_nat j) ltac:(lia)). rewrite Z2Nat.id in Hm by lia.
  split; intros Hlen.
  - rewrite decide_True in Hm by done. destruct Hm as (m & Hs & Hmin & Hpos).
    exists m. split; [by apply getitem_leaves|].
    split; [apply getitem_leaves; [done|lia|done]|done].
  - rewrite decide_False in Hm by lia. destruct Hm as [Hs Hmin].
    split; [by apply getitem_leaves|apply getitem_leaves; [done|lia|done]].
Qed.

Lemma trees_agree_on_every_slot_witness :
  (1 < PrioritizedReplayBuffer.__len__ buffer2 ->
   exists m,
     SegmentTree.__getitem__ (PrioritizedReplayBuffer._it_sum buffer2) 1 = Ok m /\
     SegmentTree.__getitem__ (PrioritizedReplayBuffer._it_min buffer2) 1 = Ok (Fin m) /\
     (0 < m)%Q) /\
  (PrioritizedReplayBuffer.__len__ buffer2 <= 1 ->
   SegmentTree.__getitem__ (PrioritizedReplayBuffer._it_sum buffer2) 1 = Ok 0%Q /\
   SegmentTree.__getitem__ (PrioritizedReplayBuffer._it_min buffer2) 1 = Ok PInf).
Proof.
  apply (trees_agree_on_every_slot ipow buffer2 [] 1).
  - exact ipow_pos.
  - exact buffer2_reachable.
  - vm_compute. split; discriminate || reflexivity.
Defined.

(** X17. In every state a program can bring a prioritized buffer of
    positive size to, [sample(batch_size)] on a buffer that holds exactly
    one transition raises [RecursionError], whatever the batch size, the
    recursion limit and the random numbers. *)
Theorem sample_single_transition_raises {T : Type} (pow : Q -> Q -> Q)
    (b : PrioritizedReplayBuffer.t T) (h : list Q) (depth fuel : nat)
    (random : nat -> Q) (batch_size : Z) :
  reachable pow b h ->
  PrioritizedReplayBuffer.__len__ b = 1 ->
  PrioritizedReplayBuffer.sample pow depth fuel random b batch_size
    = Raise RecursionError.
Proof.
  intros Hr Hlen. destruct (reachable_wf pow b h Hr) as [Hwf _].
  destruct (sum_tree_valid _ (wf_sum b Hwf)) as ([Hc _] & _).
  unfold PrioritizedReplayBuffer.sample, PrioritizedReplayBuffer._sample_proportional,
    SumSegmentTree.sum.
  rewrite Hlen. change (1 - 1) with 0.
  by rewrite reduce_empty_range by lia.
Qed.

Lemma sample_single_transition_raises_witness :
  PrioritizedReplayBuffer.sample ipow 1000 1 (fun _ => 1 # 2)%Q buffer1 4
    = Raise RecursionError.
Proof.
  apply (sample_single_transition_raises ipow buffer1 [] 1000 1 (fun _ => 1 # 2)%Q 4).
  - exact buffer1_reachable.
  - reflexivity.
Defined.

Lemma rmap_exists {X Y : Type} (f : X -> result Y) (l : list X) :
  Forall (fun x => exists y, f x = Ok y) l -> exists ys, rmap f l = Ok ys.
Proof.
  induction 1 as [|x l [y Hy] _ [ys Hys]]; simpl; [by exists []|].
  exists (y :: ys). by rewrite Hy, Hys.
Qed.


Section SampleRuns.
Context {T : Type}.
Variable pow : Q -> Q -> Q.
Variable b : PrioritizedReplayBuffer.t T.
Hypothesis b_wf : buffer_wf b.
Hypothesis b_masses : masses_ok b.
Variables depth fuel : nat.
Hypothesis depth_ok :
  Z.log2 (SegmentTree._capacity (PrioritizedReplayBuffer._it_sum b)) < Z.of_nat depth.
Hypothesis fuel_ok :
  Z.log2 (SegmentTree._capacity (PrioritizedReplayBuffer._it_sum b)) <= Z.of_nat fuel.
Variable random : nat -> Q.
Hypothesis random_unit : forall k, (0 <= random k)%Q /\ (random k < 1)%Q.



End SampleRuns.



Lemma fold_left_Qplus_zero (l : list Q) : forall a,
  Forall (fun x => x == 0)%Q l -> (a == 0)%Q -> (fold_left Qplus l a == 0)%Q.
Proof.
  induction l as [|x l IH]; intros a Hl Ha; simpl; [done|].
  apply Forall_cons in Hl as [Hx Hl]. apply IH; [done|]. rewrite Ha, Hx. reflexivity.
Qed.

Lemma init_trees {T : Type} size alpha beta (b : PrioritizedReplayBuffer.t T) :
  PrioritizedReplayBuffer.__init__ size alpha beta = Ok b ->
  exists c,
    size <= c /\
    SumSegmentTree.__init__ c = Ok (PrioritizedReplayBuffer._it_sum b) /\
    MinSegmentTree.__init__ c = Ok (PrioritizedReplayBuffer._it_min b) /\
    PrioritizedReplayBuffer.base b = ReplayBuffer.mk [] size 0.
Proof.
  unfold PrioritizedReplayBuffer.__init__.
  destruct (Qle_bool 0 alpha); [|discriminate].
  destruct (PrioritizedReplayBuffer.it_capacity_loop _ 1 size) as [c| |] eqn:Hc;
    try discriminate. simpl.
  apply it_capacity_loop_ge in Hc.
  destruct (SumSegmentTree.__init__ c) as [s| |] eqn:Hs; try discriminate. simpl.
  destruct (MinSegmentTree.__init__ c) as [m| |] eqn:Hm; try discriminate. simpl.
  intros [= <-]. by exists c.
Qed.

(** X19. [sample(batch_size)] on a freshly constructed prioritized buffer
    of size 2 or more, which holds no transition, raises
    [ZeroDivisionError] whatever the batch size and the random numbers. *)
Theorem sample_fresh_buffer_raises {T : Type} (pow : Q -> Q -> Q)
    (size : Z) (alpha beta : Q) (b : PrioritizedReplayBuffer.t T)
    (depth fuel : nat) (random : nat -> Q) (batch_size : Z) :
  2 <= size ->
  PrioritizedReplayBuffer.__init__ size alpha beta = Ok b ->
  Z.log2 (SegmentTree._capacity (PrioritizedReplayBuffer._it_sum b)) < Z.of_nat depth ->
  Z.log2 (SegmentTree._capacity (PrioritizedReplayBuffer._it_sum b)) <= Z.of_nat fuel ->
  PrioritizedReplayBuffer.sample pow depth fuel random b batch_size
    = Raise ZeroDivisionError.
Proof.
  intros Hsize Hinit Hd Hf.
  destruct (init_trees size alpha beta b Hinit) as (c & Hc & Hs & Hm & Hbase).
  destruct (init_ok c Qplus 0%Q _ eq_refl Hs) as (Hwf & Hcons & Hcap & Hop & Hpow & Hl).
  destruct (init_ok c py_min PInf _ py_min_PInf Hm) as (Hwfm & Hconsm & Hcapm & Hopm & _).
  assert (Hbuilt : built Qplus 0%Q (PrioritizedReplayBuffer._it_sum b))
    by (by apply (built_init Qplus 0%Q c)).
  assert (Hzero : Forall (fun x => x == 0)%Q (leaves (PrioritizedReplayBuffer._it_sum b))).
  { rewrite Hl. apply Forall_replicate. reflexivity. }
  assert (Htot : (total_sum (PrioritizedReplayBuffer._it_sum b) == 0)%Q).
  { apply fold_left_Qplus_zero; [done|reflexivity]. }
  set (s := PrioritizedReplayBuffer._it_sum b) in *.
  assert (Hlen : PrioritizedReplayBuffer.__len__ b = 0).
  { unfold PrioritizedReplayBuffer.__len__. by rewrite Hbase. }
  assert (Hsum : SumSegmentTree.sum depth s 0 (Some (PrioritizedReplayBuffer.__len__ b - 1))
                 = Ok (fold_range Qplus 0%Q s 0 (c - 1))).
  { rewrite Hlen. unfold SumSegmentTree.sum.
    rewrite <- (reduce_ok Qplus 0%Q Qplus_associative Qplus_neutral s depth 0 (c - 1));
      [|done|done|done|by rewrite Hcap|lia|lia|done].
    unfold SegmentTree.reduce. simpl. rewrite Hcap.
    destruct (Z.ltb_spec (c - 1) 0); [lia|]. f_equal. lia. }
  assert (HP : (fold_range Qplus 0%Q s 0 (c - 1) == 0)%Q).
  { unfold fold_range. apply fold_left_Qplus_zero; [|reflexivity].
    by apply Forall_take, Forall_drop. }
  assert (Hidx : exists idxes,
            PrioritizedReplayBuffer._sample_proportional depth fuel random b batch_size
              = Ok idxes \/ batch_size = 0).
  { unfold PrioritizedReplayBuffer._sample_proportional. fold s. rewrite Hsum. simpl.
    destruct (Z.eqb_spec batch_size 0) as [|_]; [exists []; by right|].
    match goal with
    | |- exists idxes, rmap ?f ?l = Ok idxes \/ _ =>
        destruct (rmap_exists f l) as [ys Hys]; [|exists ys; by left]
    end.
    apply Forall_forall. intros i _.
    set (mass := (_ + _)%Q).
    assert (Hmass : (mass == 0)%Q) by (unfold mass; rewrite HP; unfold Qdiv; ring).
    destruct (find_prefixsum_idx_ok s Hbuilt depth fuel mass Hd Hf) as (idx & Hrun & _);
      [lra|lra|by exists idx]. }
  destruct Hidx as [idxes [Hidx|Hbs]].
  - unfold PrioritizedReplayBuffer.sample. rewrite Hidx. simpl. fold s.
    rewrite (sum_default_ok s Hbuilt) by done. simpl.
    unfold MinSegmentTree.min.
    rewrite (reduce_default_ok py_min PInf py_min_associative py_min_neutral);
      [|done|done|done|by rewrite Hcapm|by rewrite Hcapm, <- Hcap].
    simpl. by rewrite (proj2 (Qeq_bool_iff _ 0) Htot).
  - unfold PrioritizedReplayBuffer.sample, PrioritizedReplayBuffer._sample_proportional.
    fold s. rewrite Hsum. simpl. by rewrite Hbs.
Qed.

Lemma sample_fresh_buffer_raises_witness :
  PrioritizedReplayBuffer.sample ipow 1000 1 (fun _ => 1 # 2)%Q buffer0 3
    = Raise ZeroDivisionError.
Proof.
  apply (sample_fresh_buffer_raises ipow 2 1%Q 1%Q buffer0 1000 1 (fun _ => 1 # 2)%Q 3).
  - lia.
  - reflexivity.
  - vm_compute. reflexivity.
  - vm_compute. discriminate.
Defined.

Section UpdateLeaves.
Context {T : Type}.
Variable pow : Q -> Q -> Q.
Implicit Types b : PrioritizedReplayBuffer.t T.


End UpdateLeaves.






(** * Further properties of the vectorised buffer *)

Lemma rmap_spec {X Y : Type} (f : X -> result Y) (Q : X -> Y -> Prop) (l : list X) :
  Forall (fun x => exists y, f x = Ok y /\ Q x y) l ->
  exists ys, rmap f l = Ok ys /\ Forall2 Q l ys.
Proof.
  induction 1 as [|x l (y & Hy & HQ) _ (ys & Hys & Hall)]; simpl.
  - by exists [].
  - exists (y :: ys). rewrite Hy, Hys. split; [done|]. by constructor.
Qed.

Lemma ring_index (sz n loc : Z) :
  0 < sz -> 0 <= loc < Z.min sz n ->
  exists k : nat, n - sz <= Z.of_nat k < n /\ Z.of_nat k mod sz = loc.
Proof.
  intros Hsz Hloc. destruct (Z_le_gt_dec n sz) as [Hn|Hn].
  - exists (Z.to_nat loc). rewrite Z2Nat.id by lia. split; [lia|].
    apply Z.mod_small. lia.
  - pose proof (Z.mod_pos_bound (loc - (n - sz)) sz Hsz) as Hm.
    exists (Z.to_nat (n - sz + (loc - (n - sz)) mod sz)).
    rewrite Z2Nat.id by lia. split; [lia|].
    rewrite Zplus_mod_idemp_r.
    replace (n - sz + (loc - (n - sz))) with loc by lia.
    apply Z.mod_small. lia.
Qed.

Section Slots.
Context {X : Type}.
Variable sz : Z.
Hypothesis sz_pos : 0 < sz.

Lemma slots_fresh (x : list X) : Z.of_nat (length x) = sz -> slots_of sz [] x.
Proof. intros Hx. split; [done|]. intros k v Hk. done. Qed.

Lemma slots_write (hist x : list X) (v : X) :
  slots_of sz hist x ->
  exists x',
    list_setitem x (Z.of_nat (length hist) mod sz) v = Ok x' /\
    slots_of sz (hist ++ [v]) x'.
Proof.
  intros [Hlen Hst]. set (n := Z.of_nat (length hist)) in *.
  pose proof (Z.mod_pos_bound n sz sz_pos) as Hmod.
  rewrite list_setitem_insert by lia. eexists. split; [reflexivity|].
  assert (Hn1 : Z.of_nat (length (hist ++ [v])) = n + 1).
  { rewrite length_app. simpl. lia. }
  split; [by rewrite length_insert|]. rewrite Hn1.
  intros k w Hk Hkn.
  assert (Hkle : Z.of_nat k <= n).
  { apply lookup_lt_Some in Hk. lia. }
  destruct (decide (Z.of_nat k = n)) as [Hkeq|Hkne].
  - rewrite lookup_app_r in Hk by lia.
    replace (k - length hist)%nat with 0%nat in Hk by lia. injection Hk as <-.
    rewrite Hkeq. apply list_lookup_insert_eq. lia.
  - rewrite lookup_app_l in Hk by lia.
    pose proof (mod_differs sz sz_pos (Z.of_nat k) n ltac:(lia)) as Hne.
    pose proof (Z.mod_pos_bound (Z.of_nat k) sz sz_pos).
    rewrite list_lookup_insert_ne by lia. apply Hst; [done|lia].
Qed.

(** Two values found for the same location of the ring are the same. *)
Lemma slots_lookup (hist x : list X) (k : nat) (v : X) :
  slots_of sz hist x -> hist !! k = Some v ->
  Z.of_nat (length hist) - sz <= Z.of_nat k ->
  list_getitem x (Z.of_nat k mod sz) = Ok v.
Proof.
  intros [_ Hst] Hk Hkn. pose proof (Z.mod_pos_bound (Z.of_nat k) sz sz_pos).
  apply list_getitem_lookup; [lia|]. by apply Hst.
Qed.

End Slots.

Section VecRing.
Context {A R P : Type}.
Variable sz : Z.
Hypothesis sz_pos : 0 < sz.
Implicit Types m : VecReplayBuffer.mem A R P.
Implicit Types blk : block A R P.

Lemma vec_ring_fresh m : fresh_mem sz m -> vec_ring_of sz [] m.
Proof.
  intros (Hsz & Ho & Ha & Hr & Hp & Hd & Hn & Hne).
  unfold vec_ring_of. simpl. rewrite Z.mod_0_l by lia.
  split; [done|]. split; [done|]. split; [lia|].
  repeat split; try done.
Qed.

Lemma vec_ring_add (hist : list (block A R P)) m blk :
  vec_ring_of sz hist m ->
  exists m',
    VecReplayBuffer.add (block_enc_o blk) (block_a blk) (block_r blk) (block_p blk)
      (block_done blk) m = (m', Ok tt) /\
    vec_ring_of sz (hist ++ [blk]) m'.
Proof.
  destruct m as [sz' xo xa xr xp xd nx ne]. unfold vec_ring_of. simpl.
  intros (-> & -> & -> & Ho & Ha & Hr & Hp & Hd).
  destruct (slots_write sz sz_pos _ xo (block_enc_o blk) Ho) as (xo' & Eo & Ho').
  destruct (slots_write sz sz_pos _ xa (block_a blk) Ha) as (xa' & Ea & Ha').
  destruct (slots_write sz sz_pos _ xr (block_r blk) Hr) as (xr' & Er & Hr').
  destruct (slots_write sz sz_pos _ xp (block_p blk) Hp) as (xp' & Ep & Hp').
  destruct (slots_write sz sz_pos _ xd (block_done blk) Hd) as (xd' & Ed & Hd').
  rewrite length_map in Eo, Ea, Er, Ep, Ed.
  exists (VecReplayBuffer.mk_mem sz xo' xa' xr' xp' xd'
            ((Z.of_nat (length hist) mod sz + 1) mod sz)
            (Z.min sz (Z.min sz (Z.of_nat (length hist)) + 1))).
  split.
  { unfold VecReplayBuffer.add, bind, gets, VecReplayBuffer.assign, modify. simpl.
    rewrite Eo. simpl. rewrite Ea. simpl. rewrite Er. simpl. rewrite Ep. simpl.
    rewrite Ed. simpl. destruct (Z.eqb_spec sz 0); [lia|]. done. }
  simpl. rewrite !map_app. simpl.
  assert (Hn1 : Z.of_nat (length (hist ++ [blk])) = Z.of_nat (length hist) + 1).
  { rewrite length_app. simpl. lia. }
  rewrite Hn1. split; [done|]. split; [apply Zplus_mod_idemp_l|]. split; [lia|].
  done.
Qed.

Lemma vec_ring_adds (blocks : list (block A R P)) : forall hist m,
  vec_ring_of sz hist m ->
  exists m', vec_adds blocks m = (m', Ok tt) /\ vec_ring_of sz (hist ++ blocks) m'.
Proof.
  induction blocks as [|blk blocks IH]; intros hist m Hm.
  - exists m. by rewrite app_nil_r.
  - destruct (vec_ring_add hist m blk Hm) as (m1 & Hadd & Hm1).
    destruct (IH (hist ++ [blk]) m1 Hm1) as (m' & Hrun & Hm').
    exists m'. rewrite <- app_assoc in Hm'. split; [|done].
    cbn [vec_adds]. unfold bind. by rewrite Hadd.
Qed.

End VecRing.

(** X22. A vectorised buffer of [size > 0] locations, whatever its arrays
    held at first, that is given blocks one after the other keeps the last
    [size] of them: every [add] succeeds, the cursor is at
    [len(blocks) % size], [nonempty_num] is [min(size, len(blocks))], and
    the five parts of the [k]-th block, when it is one of the last [size],
    are at location [k % size] of the five arrays. *)
Theorem vec_buffer_keeps_last_blocks {A R P : Type} (sz : Z)
    (m0 : VecReplayBuffer.mem A R P) (blocks : list (block A R P)) :
  0 < sz -> fresh_mem sz m0 ->
  exists m,
    vec_adds blocks m0 = (m, Ok tt) /\
    VecReplayBuffer.next_idx m = Z.of_nat (length blocks) mod sz /\
    VecReplayBuffer.nonempty_num m = Z.min sz (Z.of_nat (length blocks)) /\
    forall (k : nat) blk, blocks !! k = Some blk ->
      Z.of_nat (length blocks) - sz <= Z.of_nat k ->
      list_getitem (VecReplayBuffer.enc_o m) (Z.of_nat k mod sz) = Ok (block_enc_o blk) /\
      list_getitem (VecReplayBuffer.a m) (Z.of_nat k mod sz) = Ok (block_a blk) /\
      list_getitem (VecReplayBuffer.r m) (Z.of_nat k mod sz) = Ok (block_r blk) /\
      list_getitem (VecReplayBuffer.p m) (Z.of_nat k mod sz) = Ok (block_p blk) /\
      list_getitem (VecReplayBuffer.done m) (Z.of_nat k mod sz) = Ok (block_done blk).
Proof.
  intros Hsz Hfresh.
  destruct (vec_ring_adds sz Hsz blocks [] m0 (vec_ring_fresh sz Hsz m0 Hfresh))
    as (m & Hrun & _ & Hnx & Hne & Ho & Ha & Hr & Hp & Hd).
  simpl in *. exists m. split; [done|]. split; [done|]. split; [done|].
  intros k blk Hk Hkn.
  repeat split;
    (eapply (slots_lookup sz Hsz); [eassumption| |by rewrite length_map]);
    by rewrite list_lookup_fmap, Hk.
Qed.

Lemma vec_mem0_fresh : fresh_mem 2 vec_mem0.
Proof. repeat split. Qed.

Lemma vec_buffer_keeps_last_blocks_witness :
  exists m,
    vec_adds vec_blocks vec_mem0 = (m, Ok tt) /\
    VecReplayBuffer.next_idx m = Z.of_nat (length vec_blocks) mod 2 /\
    VecReplayBuffer.nonempty_num m = Z.min 2 (Z.of_nat (length vec_blocks)) /\
    forall (k : nat) blk, vec_blocks !! k = Some blk ->
      Z.of_nat (length vec_blocks) - 2 <= Z.of_nat k ->
      list_getitem (VecReplayBuffer.enc_o m) (Z.of_nat k mod 2) = Ok (block_enc_o blk) /\
      list_getitem (VecReplayBuffer.a m) (Z.of_nat k mod 2) = Ok (block_a blk) /\
      list_getitem (VecReplayBuffer.r m) (Z.of_nat k mod 2) = Ok (block_r blk) /\
      list_getitem (VecReplayBuffer.p m) (Z.of_nat k mod 2) = Ok (block_p blk) /\
      list_getitem (VecReplayBuffer.done m) (Z.of_nat k mod 2) = Ok (block_done blk).
Proof.
  apply (vec_buffer_keeps_last_blocks 2 vec_mem0 vec_blocks).
  - lia.
  - exact vec_mem0_fresh.
Defined.

Section Take.
Context {A R P X : Type}.
Variable self : VecReplayBuffer.t.
Variable sz : Z.
Hypothesis sz_pos : 0 < sz.
Variable proj : block A R P -> list X.
Variable blocks : list (block A R P).
Variable x : list (list X).
Variable idx : list Z.
Hypothesis x_slots : slots_of sz (map proj blocks) x.
Hypothesis blocks_shaped :
  Forall (fun blk => length (proj blk) = VecReplayBuffer.nenv self) blocks.
Hypothesis idx_length : length idx = VecReplayBuffer.nenv self.
Hypothesis idx_range :
  Forall (fun loc => 0 <= loc < Z.min sz (Z.of_nat (length blocks))) idx.

(** [_take] on an array that holds the last blocks: the entry returned for
    environment [e] is the entry for [e] of the block stored at the
    location drawn for [e]. *)
Lemma take_from_slots :
  exists out,
    VecReplayBuffer._take self x idx = Ok out /\
    length out = VecReplayBuffer.nenv self /\
    forall (e k : nat) loc blk,
      idx !! e = Some loc -> blocks !! k = Some blk ->
      Z.of_nat (length blocks) - sz <= Z.of_nat k -> Z.of_nat k mod sz = loc ->
      out !! e = proj blk !! e.
Proof.
  unfold VecReplayBuffer._take.
  match goal with
  | |- exists out, rmap ?f ?l = Ok out /\ _ =>
      destruct (rmap_spec f
                  (fun e v => forall (k : nat) loc blk,
                     idx !! e = Some loc -> blocks !! k = Some blk ->
                     Z.of_nat (length blocks) - sz <= Z.of_nat k ->
                     Z.of_nat k mod sz = loc -> proj blk !! e = Some v) l)
        as (out & Hout & Hall)
  end.
  - apply Forall_forall. intros e He. apply elem_of_seq in He.
    destruct (lookup_lt_is_Some_2 idx e) as [loc Hloc]; [lia|].
    pose proof (proj1 (Forall_forall _ _) idx_range loc
                  (list_elem_of_lookup_2 _ _ _ Hloc)) as Hrange.
    destruct (ring_index sz (Z.of_nat (length blocks)) loc sz_pos Hrange)
      as (k0 & Hk0 & Hmod).
    destruct (lookup_lt_is_Some_2 blocks k0) as [blk0 Hblk0]; [lia|].
    assert (Hx : list_getitem x loc = Ok (proj blk0)).
    { rewrite <- Hmod. apply (slots_lookup sz sz_pos (map proj blocks)); [done| |].
      - by rewrite list_lookup_fmap, Hblk0.
      - rewrite length_map. lia. }
    pose proof (proj1 (Forall_forall _ _) blocks_shaped blk0
                  (list_elem_of_lookup_2 _ _ _ Hblk0)) as Hshape.
    simpl in Hshape, Hrange.
    destruct (lookup_lt_is_Some_2 (proj blk0) e) as [v Hv]; [lia|].
    exists v. split.
    + rewrite (list_getitem_lookup idx (Z.of_nat e) loc) by (lia || by rewrite Nat2Z.id).
      simpl. rewrite Hx. simpl.
      apply list_getitem_lookup; [lia|by rewrite Nat2Z.id].
    + intros k loc' blk Hloc' Hblk Hk Hkmod.
      rewrite Hloc in Hloc'. injection Hloc' as <-.
      assert (Hx' : list_getitem x loc = Ok (proj blk)).
      { rewrite <- Hkmod. apply (slots_lookup sz sz_pos (map proj blocks)); [done| |].
        - by rewrite list_lookup_fmap, Hblk.
        - by rewrite length_map. }
      rewrite Hx in Hx'. injection Hx' as <-. done.
  - exists out. split; [done|]. split.
    { apply Forall2_length in Hall. by rewrite <- Hall, length_seq. }
    intros e k loc blk Hloc Hblk Hk Hkmod.
    pose proof (lookup_lt_Some _ _ _ Hloc) as He.
    destruct (Forall2_lookup_l _ _ _ e e Hall) as (v & Hv & HQ).
    { apply lookup_seq. lia. }
    rewrite Hv. symmetry. by apply (HQ k loc).
Qed.

End Take.

(** X23. On a vectorised buffer of [size > 0] locations that has been
    given blocks with one entry per environment, [sample()], for a draw
    [idx] of one location below [nonempty_num] per environment, returns:
    for every environment [e] there is one block, among the last [size]
    given and stored at the location drawn for [e], from which the action,
    reward, policy and done rows returned for [e] all come, and the
    observations returned are [_stack_obs] of the encoded frames and the
    done rows so gathered. *)
Theorem vec_sample_returns_stored_blocks {A R P : Type} (self : VecReplayBuffer.t)
    (sz : Z) (m0 m : VecReplayBuffer.mem A R P) (blocks : list (block A R P))
    (idx : list Z) :
  0 < sz -> fresh_mem sz m0 ->
  Forall (block_shaped (VecReplayBuffer.nenv self)) blocks ->
  vec_adds blocks m0 = (m, Ok tt) ->
  length idx = VecReplayBuffer.nenv self ->
  Forall (fun loc => 0 <= loc < VecReplayBuffer.nonempty_num m) idx ->
  exists b_enc b_a b_r b_p b_done,
    VecReplayBuffer.sample self idx m
      = Ok (VecReplayBuffer._stack_obs self b_enc b_done, b_a, b_r, b_p, b_done) /\
    length b_a = VecReplayBuffer.nenv self /\
    length b_r = VecReplayBuffer.nenv self /\
    length b_p = VecReplayBuffer.nenv self /\
    length b_done = VecReplayBuffer.nenv self /\
    forall (e : nat) loc, idx !! e = Some loc ->
      exists (k : nat) blk,
        blocks !! k = Some blk /\
        Z.of_nat (length blocks) - sz <= Z.of_nat k /\
        Z.of_nat k mod sz = loc /\
        b_enc !! e = block_enc_o blk !! e /\
        b_a !! e = block_a blk !! e /\
        b_r !! e = block_r blk !! e /\
        b_p !! e = block_p blk !! e /\
        b_done !! e = block_done blk !! e.
Proof.
  intros Hsz Hfresh Hshape Hrun Hidx Hrange.
  destruct (vec_ring_adds sz Hsz blocks [] m0 (vec_ring_fresh sz Hsz m0 Hfresh))
    as (m' & Hrun' & _ & _ & Hne & Ho & Ha & Hr & Hp & Hd).
  rewrite Hrun in Hrun'. injection Hrun' as <-. simpl in *.
  rewrite Hne in Hrange.
  destruct (take_from_slots self sz Hsz block_done blocks _ idx Hd) as (b_done & Ed & Ld & Sd);
    [eapply Forall_impl; [exact Hshape|]; by intros blk (_ & _ & _ & _ & ?)|done|done|].
  destruct (take_from_slots self sz Hsz block_enc_o blocks _ idx Ho) as (b_enc & Eo & Lo & So);
    [eapply Forall_impl; [exact Hshape|]; by intros blk (? & _)|done|done|].
  destruct (take_from_slots self sz Hsz block_a blocks _ idx Ha) as (b_a & Ea & La & Sa);
    [eapply Forall_impl; [exact Hshape|]; by intros blk (_ & ? & _)|done|done|].
  destruct (take_from_slots self sz Hsz block_r blocks _ idx Hr) as (b_r & Er & Lr & Sr);
    [eapply Forall_impl; [exact Hshape|]; by intros blk (_ & _ & ? & _)|done|done|].
  destruct (take_from_slots self sz Hsz block_p blocks _ idx Hp) as (b_p & Ep & Lp & Sp);
    [eapply Forall_impl; [exact Hshape|]; by intros blk (_ & _ & _ & ? & _)|done|done|].
  exists b_enc, b_a, b_r, b_p, b_done. split.
  { unfold VecReplayBuffer.sample. rewrite Ed. simpl. rewrite Eo. simpl.
    rewrite Ea. simpl. rewrite Er. simpl. rewrite Ep. done. }
  split; [done|]. split; [done|]. split; [done|]. split; [done|].
  intros e loc Hloc.
  pose proof (proj1 (Forall_forall _ _) Hrange loc (list_elem_of_lookup_2 _ _ _ Hloc))
    as Hl. simpl in Hl.
  destruct (ring_index sz (Z.of_nat (length blocks)) loc Hsz Hl) as (k & Hk & Hmod).
  destruct (lookup_lt_is_Some_2 blocks k) as [blk Hblk]; [lia|].
  exists k, blk. split; [done|]. split; [lia|]. split; [done|].
  split; [apply (So e k loc blk Hloc Hblk); [lia|done]|].
  split; [apply (Sa e k loc blk Hloc Hblk); [lia|done]|].
  split; [apply (Sr e k loc blk Hloc Hblk); [lia|done]|].
  split; [apply (Sp e k loc blk Hloc Hblk); [lia|done]|].
  apply (Sd e k loc blk Hloc Hblk); [lia|done].
Qed.

Lemma vec_sample_returns_stored_blocks_witness :
  exists b_enc b_a b_r b_p b_done,
    VecReplayBuffer.sample vec_self [1; 0] (fst (vec_adds vec_blocks vec_mem0))
      = Ok (VecReplayBuffer._stack_obs vec_self b_enc b_done, b_a, b_r, b_p, b_done) /\
    length b_a = VecReplayBuffer.nenv vec_self /\
    length b_r = VecReplayBuffer.nenv vec_self /\
    length b_p = VecReplayBuffer.nenv vec_self /\
    length b_done = VecReplayBuffer.nenv vec_self /\
    forall (e : nat) loc, [1; 0] !! e = Some loc ->
      exists (k : nat) blk,
        vec_blocks !! k = Some blk /\
        Z.of_nat (length vec_blocks) - 2 <= Z.of_nat k /\
        Z.of_nat k mod 2 = loc /\
        b_enc !! e = block_enc_o blk !! e /\
        b_a !! e = block_a blk !! e /\
        b_r !! e = block_r blk !! e /\
        b_p !! e = block_p blk !! e /\
        b_done !! e = block_done blk !! e.
Proof.
  apply (vec_sample_returns_stored_blocks vec_self 2 vec_mem0
           (fst (vec_adds vec_blocks vec_mem0)) vec_blocks [1; 0]).
  - lia.
  - exact vec_mem0_fresh.
  - repeat constructor.
  - reflexivity.
  - reflexivity.
  - repeat constructor; vm_compute; (discriminate || reflexivity).
Defined.

(** X24. A vectorised buffer without any location, which is what
    [__init__] builds when [size < nsteps], accepts no block: [add] raises
    [IndexError] at its first assignment and changes nothing. *)
Theorem vec_add_without_location {A R P : Type} (m : VecReplayBuffer.mem A R P)
    (blk : block A R P) :
  fresh_mem 0 m ->
  VecReplayBuffer.add (block_enc_o blk) (block_a blk) (block_r blk) (block_p blk)
    (block_done blk) m = (m, Raise IndexError).
Proof.
  intros (_ & Ho & _ & _ & _ & _ & Hn & _).
  unfold VecReplayBuffer.add, bind, gets, VecReplayBuffer.assign.
  rewrite Hn. destruct (VecReplayBuffer.enc_o m); [done|simpl in Ho; lia].
Qed.

Lemma vec_add_without_location_witness :
  VecReplayBuffer.add (block_enc_o (vec_block 1)) (block_a (vec_block 1))
    (block_r (vec_block 1)) (block_p (vec_block 1)) (block_done (vec_block 1))
    (VecReplayBuffer.mk_mem 0 [] [] [] [] [] 0 0)
  = (VecReplayBuffer.mk_mem 0 [] [] [] [] [] 0 0, Raise IndexError).
Proof.
  apply (vec_add_without_location (VecReplayBuffer.mk_mem 0 [] [] [] [] [] 0 0)
           (vec_block 1)).
  repeat split.
Defined.

(** * Further properties of [add] and of [_stack_obs] *)

Lemma add_base {T : Type} (pow : Q -> Q -> Q) (b b' : PrioritizedReplayBuffer.t T)
    (data : T) (r : result unit) :
  PrioritizedReplayBuffer.add pow data b = (b', r) ->
  PrioritizedReplayBuffer.base b' = (ReplayBuffer.add data (PrioritizedReplayBuffer.base b)).1.
Proof.
  unfold PrioritizedReplayBuffer.add, bind, gets, zoom. simpl.
  destruct (ReplayBuffer.add data (PrioritizedReplayBuffer.base b)) as [rb' [[]| |]];
    simpl; try (by intros [= <- <-]).
  destruct (SegmentTree.__setitem__ _ _ (PrioritizedReplayBuffer._it_sum b))
    as [s' [[]| |]]; simpl; try (by intros [= <- <-]).
  destruct (SegmentTree.__setitem__ _ _ (PrioritizedReplayBuffer._it_min b))
    as [m' rm]; simpl. by intros [= <- <-].
Qed.

Lemma base_add_cursor {T : Type} (rb rb' : ReplayBuffer.t T) (data : T) :
  ReplayBuffer.add data rb = (rb', Ok tt) ->
  ReplayBuffer._next_idx rb' = (ReplayBuffer._next_idx rb + 1) mod ReplayBuffer._maxsize rb.
Proof.
  unfold ReplayBuffer.add.
  destruct (if ReplayBuffer._next_idx rb >=? ReplayBuffer.__len__ rb then _ else _)
    as [st| |]; try discriminate.
  destruct (ReplayBuffer._maxsize rb =? 0); [discriminate|]. by intros [= <-].
Qed.

(** X25. In every state a program can bring a prioritized buffer of
    positive size to, [add] succeeds; it does to the storage and the cursor
    what [ReplayBuffer.add] does, so that the buffer grows by one
    transition until it is full and the cursor moves one slot round the
    ring; it leaves the maximal priority as it was, and in both trees it
    changes no slot but the one the cursor was at. *)
Theorem prioritized_add_frames_other_slots {T : Type} (pow : Q -> Q -> Q)
    (b : PrioritizedReplayBuffer.t T) (h : list Q) (data : T) :
  reachable pow b h ->
  exists b',
    PrioritizedReplayBuffer.add pow data b = (b', Ok tt) /\
    ReplayBuffer.add data (PrioritizedReplayBuffer.base b)
      = (PrioritizedReplayBuffer.base b', Ok tt) /\
    PrioritizedReplayBuffer.__len__ b'
      = Z.min (PrioritizedReplayBuffer.__len__ b + 1) (maxsize b) /\
    next_idx b' = (next_idx b + 1) mod maxsize b /\
    PrioritizedReplayBuffer._max_priority b' = PrioritizedReplayBuffer._max_priority b /\
    forall j, 0 <= j < SegmentTree._capacity (PrioritizedReplayBuffer._it_sum b) ->
      j <> next_idx b ->
      SegmentTree.__getitem__ (PrioritizedReplayBuffer._it_sum b') j
        = SegmentTree.__getitem__ (PrioritizedReplayBuffer._it_sum b) j /\
      SegmentTree.__getitem__ (PrioritizedReplayBuffer._it_min b') j
        = SegmentTree.__getitem__ (PrioritizedReplayBuffer._it_min b) j.
Proof.
  intros Hr. destruct (reachable_wf pow b h Hr) as [Hwf _].
  destruct (add_ok pow b data Hwf)
    as (b' & Hrun & Hwf' & Hmp & _ & _ & _ & Hlen & Hls & Hlm).
  destruct (base_add_ok (PrioritizedReplayBuffer.base b) data
              (wf_maxsize b Hwf) (wf_len b Hwf) (wf_cursor b Hwf) (wf_filling b Hwf))
    as (rb' & Hbase & _).
  pose proof (add_base pow b b' data (Ok tt) Hrun) as Hb'. rewrite Hbase in Hb'.
  simpl in Hb'. subst rb'.
  exists b'. split; [done|]. split; [done|]. split.
  { rewrite Hlen. pose proof (wf_len b Hwf). pose proof (wf_cursor b Hwf).
    pose proof (wf_filling b Hwf).
    destruct (Z.eqb_spec (next_idx b) (PrioritizedReplayBuffer.__len__ b)); lia. }
  split; [by apply (base_add_cursor _ _ data)|]. split; [done|].
  destruct (sum_tree_valid _ (wf_sum b Hwf)) as (Hwfs & _).
  destruct (sum_tree_valid _ (wf_sum b' Hwf')) as (Hwfs' & _).
  destruct (built_valid py_min PInf _ py_min_PInf (wf_min b Hwf)) as (Hwfm & _).
  destruct (built_valid py_min PInf _ py_min_PInf (wf_min b' Hwf')) as (Hwfm' & _).
  pose proof (wf_same_capacity b Hwf) as Hsame.
  pose proof (wf_same_capacity b' Hwf') as Hsame'.
  pose proof (wf_cursor b Hwf) as Hcur.
  assert (Hcap : SegmentTree._capacity (PrioritizedReplayBuffer._it_sum b')
                 = SegmentTree._capacity (PrioritizedReplayBuffer._it_sum b)).
  { rewrite <- (leaves_length _ Hwfs'), <- (leaves_length _ Hwfs), Hls, length_insert.
    done. }
  intros j Hj Hne.
  destruct (getitem_in_range _ j Hwfs Hj) as (x & Hx & ->).
  destruct (getitem_in_range _ j Hwfm ltac:(lia)) as (y & Hy & ->).
  split; (apply getitem_leaves; [done|lia|]).
  - rewrite Hls, list_lookup_insert_ne by lia. done.
  - rewrite Hlm, list_lookup_insert_ne by lia. done.
Qed.

Lemma prioritized_add_frames_other_slots_witness :
  exists b',
    PrioritizedReplayBuffer.add ipow 12%nat buffer2 = (b', Ok tt) /\
    ReplayBuffer.add 12%nat (PrioritizedReplayBuffer.base buffer2)
      = (PrioritizedReplayBuffer.base b', Ok tt) /\
    PrioritizedReplayBuffer.__len__ b'
      = Z.min (PrioritizedReplayBuffer.__len__ buffer2 + 1) (maxsize buffer2) /\
    next_idx b' = (next_idx buffer2 + 1) mod maxsize buffer2 /\
    PrioritizedReplayBuffer._max_priority b' = PrioritizedReplayBuffer._max_priority buffer2 /\
    forall j, 0 <= j < SegmentTree._capacity (PrioritizedReplayBuffer._it_sum buffer2) ->
      j <> next_idx buffer2 ->
      SegmentTree.__getitem__ (PrioritizedReplayBuffer._it_sum b') j
        = SegmentTree.__getitem__ (PrioritizedReplayBuffer._it_sum buffer2) j /\
      SegmentTree.__getitem__ (PrioritizedReplayBuffer._it_min b') j
        = SegmentTree.__getitem__ (PrioritizedReplayBuffer._it_min buffer2) j.
Proof.
  apply (prioritized_add_frames_other_slots ipow buffer2 [] 12%nat).
  exact buffer2_reachable.
Defined.

Lemma stack_fold_length self enc_obs (n : nat) (l : list nat) : forall obs mask,
  length enc_obs = n -> length obs = n -> length mask = n ->
  length (fold_left (VecReplayBuffer.stack_step self enc_obs) l (obs, mask)).1 = n.
Proof.
  induction l as [|i l IH]; intros obs mask He Ho Hm; [done|].
  cbn [fold_left]. unfold VecReplayBuffer.stack_step at 2.
  destruct (Z.of_nat i <? Z.of_nat (VecReplayBuffer.nstack self) - 1).
  - apply IH; [done| |by rewrite length_map].
    rewrite !length_zip_with. lia.
  - apply IH; [done| |done]. rewrite length_zip_with. lia.
Qed.

(** X26. [_stack_obs] on arrays of the documented shapes, [nenv]
    environments with [nsteps + nstack] encoded frames and [nsteps] done
    flags (each 0 or 1) apiece, returns observations for [nenv]
    environments, each with [nsteps + 1] steps of [nstack] blocks. *)
Theorem stack_obs_shape (self : VecReplayBuffer.t)
    (enc_obs : list (list VecReplayBuffer.frame)) (dones : list (list Z)) :
  length enc_obs = VecReplayBuffer.nenv self ->
  length dones = VecReplayBuffer.nenv self ->
  Forall (fun enc_e => length enc_e
            = (VecReplayBuffer.nsteps self + VecReplayBuffer.nstack self)%nat) enc_obs ->
  Forall (fun d_e => length d_e = VecReplayBuffer.nsteps self /\
                     Forall (fun x => x = 0 \/ x = 1) d_e) dones ->
  length (VecReplayBuffer._stack_obs self enc_obs dones) = VecReplayBuffer.nenv self /\
  Forall (fun obs_e =>
            length obs_e = S (VecReplayBuffer.nsteps self) /\
            Forall (fun row => length row = VecReplayBuffer.nstack self) obs_e)
         (VecReplayBuffer._stack_obs self enc_obs dones).
Proof.
  intros Henc Hdones Hel Hdl.
  unfold VecReplayBuffer._stack_obs, VecReplayBuffer.stack_loop.
  split.
  { apply stack_fold_length; [done|by rewrite length_replicate|by rewrite length_map]. }
  apply Forall_lookup. intros e obs_e He.
  pose proof (lookup_lt_Some _ _ _ He) as Hlt.
  rewrite (stack_fold_length _ _ (VecReplayBuffer.nenv self)) in Hlt;
    [|done|by rewrite length_replicate|by rewrite length_map].
  destruct (lookup_lt_is_Some_2 enc_obs e) as [enc_e Hee]; [lia|].
  destruct (lookup_lt_is_Some_2 dones e) as [d_e Hde]; [lia|].
  pose proof (proj1 (Forall_lookup _ _) Hel e enc_e Hee) as Hlen. simpl in Hlen.
  destruct (proj1 (Forall_lookup _ _) Hdl e d_e Hde) as [Hdlen Hbin].
  rewrite (stack_fold_env self enc_obs e enc_e _ _ _
             (replicate (S (VecReplayBuffer.nsteps self))
                (replicate (VecReplayBuffer.nstack self)
                   (replicate (VecReplayBuffer.fsize self) 0)))
             (VecReplayBuffer.initial_mask d_e)) in He;
    [|by apply lookup_replicate_2|by rewrite list_lookup_fmap, Hde|done].
  injection He as <-.
  pose proof (stack_env_stacked self enc_e d_e Hlen Hdlen Hbin
                (VecReplayBuffer.nstack self) (le_n _)) as Hst.
  rewrite Nat.sub_diag in Hst. destruct Hst as (Hl & _ & Hrows).
  split; [done|]. apply Forall_lookup. intros t row Hrow.
  by destruct (Hrows t row Hrow) as [Hr _].
Qed.

Lemma stack_obs_shape_witness :
  length (VecReplayBuffer._stack_obs vec_self vec_enc_obs vec_dones)
    = VecReplayBuffer.nenv vec_self /\
  Forall (fun obs_e =>
            length obs_e = S (VecReplayBuffer.nsteps vec_self) /\
            Forall (fun row => length row = VecReplayBuffer.nstack vec_self) obs_e)
         (VecReplayBuffer._stack_obs vec_self vec_enc_obs vec_dones).
Proof.
  apply (stack_obs_shape vec_self vec_enc_obs vec_dones).
  - reflexivity.
  - reflexivity.
  - repeat constructor.
  - repeat first [apply Forall_nil | apply Forall_cons; split | split];
      first [reflexivity | by left | by right].
Defined.
